(** * AItinerary: the keyed session actors

    A shallow embedding of the three Durable Objects of the repository and
    the properties of their message handling:

    - [NotificationManager] (src/server/notification-manager.ts): the
      per-user registry of server-sent-event writers and its [/notify]
      fan-out;
    - [CollaborativeItinerary] (same file): the collaborative editing
      session, its edit fold, votes and broadcasts;
    - [Chat] (the chat agent): binding of the actor to a conversation id,
      identity resolution and the rewrite of the durable message log, with
      [validateToken] and [requireAuth] of the auth middleware;
    - [Worker]: the requests that reach the objects, [handleCollabRoutes]
      of the collaboration routes and the notification that the chat agent
      posts.

    Handlers are written in a small state/trace/exception monad; the
    JavaScript [Map]s are [gmap]s or association lists (where iteration
    order is observable), arrays are lists, and the array objects shared
    between the registry [Map] and a handler's local variables live in an
    explicit heap. Payloads that the source types as [any] are taken at the
    interfaces that types.ts declares for them. What the platform decides
    (the clock, whether a write to storage, a D1 statement or a send
    succeeds) is an argument of the handlers. The [/notify] call, which
    awaits its writes while other events are handled, is modelled by its
    two turns. Every other handler is run to its end before the next
    event: for [CollaborativeItinerary] that is how the object runs (it
    awaits the body of a request before it touches its state, and
    otherwise only its own storage, which holds back other events); for
    [Chat], whose handlers await D1, it describes the runs in which no
    other request to the same object is handled meanwhile. *)

From stdpp Require Import gmap strings list fin_maps.
From Stdlib Require Import ZArith Lia Sorted Ascii.

Set Default Proof Using "Type".

(** ** JavaScript helpers shared by the three actors *)

(** Line feed, for the SSE framing [data: ...\n\n]. *)
Definition LF : string := String (Ascii.ascii_of_nat 10) EmptyString.

(** Truthiness of a possibly missing string: [null], [undefined] and the
    empty string are falsy. *)
Definition truthy (o : option string) : bool :=
  match o with
  | Some s => negb (String.eqb s "")
  | None => false
  end.

(** [s.replace(pattern, "")] with a string pattern: the first occurrence
    of the pattern is removed. *)
Definition String_remove_first (pattern s : string) : string :=
  match String.index 0 pattern s with
  | Some i =>
      String.substring 0 i s
      +:+ String.substring (i + String.length pattern)
                           (String.length s - (i + String.length pattern)) s
  | None => s
  end.

(** [s.endsWith(suffix)] *)
Definition endsWith (suffix s : string) : bool :=
  (String.length suffix <=? String.length s)
  && String.eqb (String.substring (String.length s - String.length suffix)
                                  (String.length suffix) s) suffix.

(** [s.split(sep)] for a separator that is not empty: [skip] characters of
    a separator just found are still to be passed over, [cur] is the piece
    read so far. *)
Fixpoint split_go (sep : string) (skip : nat) (cur s : string) : list string :=
  match s with
  | EmptyString => [cur]
  | String c s' =>
      match skip with
      | S k => split_go sep k cur s'
      | 0 =>
          if String.prefix sep s then cur :: split_go sep (String.length sep - 1) "" s'
          else split_go sep 0 (cur +:+ String c "") s'
      end
  end.

Definition String_split (sep s : string) : list string := split_go sep 0 "" s.

(** A JavaScript [Map] (or an object used as one) whose iteration order is
    observable: an association list in insertion order, keys unique. *)
Section Assoc.
Context {K V : Type} `{EqDecision K}.

(** [m.get(k)] *)
Fixpoint assoc_get (k : K) (m : list (K * V)) : option V :=
  match m with
  | [] => None
  | (k', v) :: m' => if decide (k' = k) then Some v else assoc_get k m'
  end.

(** [m.set(k, v)]: an existing key keeps its place. *)
Fixpoint assoc_set (k : K) (v : V) (m : list (K * V)) : list (K * V) :=
  match m with
  | [] => [(k, v)]
  | (k', v') :: m' =>
      if decide (k' = k) then (k', v) :: m' else (k', v') :: assoc_set k v m'
  end.

(** [m.delete(k)] *)
Definition assoc_delete (k : K) (m : list (K * V)) : list (K * V) :=
  filter (λ kv, kv.1 ≠ k) m.

End Assoc.

(** ** Handlers: state, trace of effects, exceptions

    A handler takes the actor's state and returns the state it leaves, the
    effects it had on the outside in order, and either the exception it
    threw or its result. State changes made before a [throw] are kept, as
    in the source, where nothing is rolled back. *)

Definition M (St Ev Ex A : Type) : Type := St → St * list Ev * (Ex + A).

Section Handler.
Context {St Ev Ex : Type}.

Definition ret {A} (a : A) : M St Ev Ex A := λ s, (s, [], inr a).

Definition bind {A B} (m : M St Ev Ex A) (k : A → M St Ev Ex B) : M St Ev Ex B :=
  λ s, match m s with
       | (s1, t1, inl e) => (s1, t1, inl e)
       | (s1, t1, inr a) =>
           match k a s1 with
           | (s2, t2, r) => (s2, t1 ++ t2, r)
           end
       end.

Definition throw {A} (e : Ex) : M St Ev Ex A := λ s, (s, [], inl e).

(** [try { m } catch (e) { h e }] *)
Definition try_catch {A} (m : M St Ev Ex A) (h : Ex → M St Ev Ex A) : M St Ev Ex A :=
  λ s, match m s with
       | (s1, t1, inl e) =>
           match h e s1 with
           | (s2, t2, r) => (s2, t1 ++ t2, r)
           end
       | (s1, t1, inr a) => (s1, t1, inr a)
       end.

Definition get : M St Ev Ex St := λ s, (s, [], inr s).
Definition modify (f : St → St) : M St Ev Ex unit := λ s, (f s, [], inr tt).
Definition emit (ev : Ev) : M St Ev Ex unit := λ s, (s, [ev], inr tt).

Definition state_of {A} (r : St * list Ev * (Ex + A)) : St := r.1.1.
Definition trace_of {A} (r : St * list Ev * (Ex + A)) : list Ev := r.1.2.
Definition outcome_of {A} (r : St * list Ev * (Ex + A)) : Ex + A := r.2.
End Handler.

(** stdpp's [x ← m; k] and [m;; k] are used for handlers. *)
#[global] Instance M_ret {St Ev Ex} : MRet (M St Ev Ex) := λ A a, ret a.
#[global] Instance M_bind {St Ev Ex} : MBind (M St Ev Ex) := λ A B k m, bind m k.

Ltac unfold_handler :=
  unfold mbind, M_bind, bind, mret, M_ret, ret, modify, emit, get, throw, try_catch,
    state_of, trace_of, outcome_of in *.

Lemma bind_ok {St Ev Ex A B} (m : M St Ev Ex A) (k : A → M St Ev Ex B) s s1 t1 a :
  m s = (s1, t1, inr a) →
  (m ≫= k) s = (state_of (k a s1), t1 ++ trace_of (k a s1), outcome_of (k a s1)).
Proof. intros Hm. unfold_handler. rewrite Hm. by destruct (k a s1) as [[? ?] ?]. Qed.

Lemma bind_step {St Ev Ex A B} (m : M St Ev Ex A) (k : A → M St Ev Ex B)
    s s1 t1 a s2 t2 r :
  m s = (s1, t1, inr a) → k a s1 = (s2, t2, r) → (m ≫= k) s = (s2, t1 ++ t2, r).
Proof. intros Hm Hk. unfold_handler. by rewrite Hm, Hk. Qed.

Lemma bind_get {St Ev Ex B} (k : St → M St Ev Ex B) s : (get ≫= k) s = k s s.
Proof. unfold_handler. by destruct (k s s) as [[? ?] ?]. Qed.

Lemma bind_throw {St Ev Ex A B} (m : M St Ev Ex A) (k : A → M St Ev Ex B) s s1 t1 e :
  m s = (s1, t1, inl e) → (m ≫= k) s = (s1, t1, inl e).
Proof. intros Hm. unfold_handler. by rewrite Hm. Qed.

Lemma try_catch_ok {St Ev Ex A} (m : M St Ev Ex A) (h : Ex → M St Ev Ex A) s s1 t1 a :
  m s = (s1, t1, inr a) → try_catch m h s = (s1, t1, inr a).
Proof. intros Hm. unfold_handler. by rewrite Hm. Qed.

Lemma try_catch_throw {St Ev Ex A} (m : M St Ev Ex A) (h : Ex → M St Ev Ex A) s s1 t1 e :
  m s = (s1, t1, inl e) →
  try_catch m h s = (state_of (h e s1), t1 ++ trace_of (h e s1), outcome_of (h e s1)).
Proof. intros Hm. unfold_handler. rewrite Hm. by destruct (h e s1) as [[? ?] ?]. Qed.

(** *** Association lists *)

Section AssocFacts.
Context {K V : Type} `{EqDecision K}.
Implicit Types (k : K) (v : V) (m : list (K * V)).

Lemma assoc_get_set_eq k v m : assoc_get k (assoc_set k v m) = Some v.
Proof.
  induction m as [|[k' v'] m IH]; cbn.
  - by rewrite decide_True.
  - destruct (decide (k' = k)) as [->|Hne]; cbn.
    + by rewrite decide_True.
    + by rewrite decide_False.
Qed.

Lemma assoc_get_elem k v m : assoc_get k m = Some v → (k, v) ∈ m.
Proof.
  induction m as [|[k' v'] m IH]; cbn; [done|].
  destruct (decide (k' = k)) as [->|Hne].
  - intros [= ->]. by left.
  - intros Hget. right. by apply IH.
Qed.

Lemma assoc_get_set_ne k k' v m : k' ≠ k → assoc_get k' (assoc_set k v m) = assoc_get k' m.
Proof.
  intros Hne. induction m as [|[k0 v0] m IH]; cbn.
  - by rewrite decide_False.
  - destruct (decide (k0 = k)) as [->|Hne0]; cbn.
    + by rewrite !decide_False.
    + destruct (decide (k0 = k')); done.
Qed.

End AssocFacts.

Section AssocMore.
Context {K V : Type} `{EqDecision K}.
Implicit Types (k : K) (v : V) (m : list (K * V)).

Lemma assoc_set_set k v v' m : assoc_set k v (assoc_set k v' m) = assoc_set k v m.
Proof.
  induction m as [|[k0 v0] m IH]; cbn.
  - by rewrite decide_True.
  - destruct (decide (k0 = k)) as [->|Hne]; cbn.
    + by rewrite decide_True.
    + rewrite decide_False by done. by rewrite IH.
Qed.

Lemma assoc_set_comm k1 v1 k2 v2 m :
  k1 ≠ k2 → is_Some (assoc_get k1 m) →
  assoc_set k1 v1 (assoc_set k2 v2 m) = assoc_set k2 v2 (assoc_set k1 v1 m).
Proof.
  intros Hne. induction m as [|[k0 v0] m IH]; cbn; [by intros [? ?]|].
  destruct (decide (k0 = k1)) as [->|Hne1].
  - intros _. rewrite decide_False by done. cbn. rewrite decide_True by done.
    by rewrite decide_False by done.
  - intros Hsome. destruct (decide (k0 = k2)) as [->|Hne2]; cbn.
    + rewrite decide_False by done. by rewrite decide_True.
    + rewrite !decide_False by done. by rewrite IH.
Qed.

Lemma assoc_get_set_is_Some k k' v m :
  is_Some (assoc_get k' m) → is_Some (assoc_get k' (assoc_set k v m)).
Proof.
  intros Hsome. destruct (decide (k' = k)) as [->|Hne].
  - rewrite assoc_get_set_eq. by eexists.
  - by rewrite assoc_get_set_ne.
Qed.

Lemma assoc_get_delete_eq k m : assoc_get k (assoc_delete k m) = None.
Proof.
  unfold assoc_delete. induction m as [|[k0 v0] m IH]; [done|].
  destruct (decide (k0 = k)) as [->|Hne].
  - by rewrite filter_cons_False by (intros Hn; by apply Hn).
  - rewrite filter_cons_True by done. cbn. by rewrite decide_False.
Qed.

Lemma assoc_get_delete_ne k k' m : k' ≠ k → assoc_get k' (assoc_delete k m) = assoc_get k' m.
Proof.
  intros Hne. unfold assoc_delete. induction m as [|[k0 v0] m IH]; [done|].
  destruct (decide (k0 = k)) as [->|Hne0].
  - rewrite filter_cons_False by (intros Hn; by apply Hn). cbn.
    by rewrite decide_False by done.
  - rewrite filter_cons_True by done. cbn. by rewrite IH.
Qed.

Lemma assoc_get_None k m : assoc_get k m = None ↔ k ∉ m.*1.
Proof.
  induction m as [|[k0 v0] m IH]; cbn.
  - split; [intros _; apply not_elem_of_nil|done].
  - rewrite not_elem_of_cons. destruct (decide (k0 = k)) as [->|Hne].
    + split; [done|]. by intros [? _].
    + rewrite IH. split; [by split|by intros [_ ?]].
Qed.

Lemma length_assoc_set k v m :
  length (assoc_set k v m) = if assoc_get k m is Some _ then length m else S (length m).
Proof.
  induction m as [|[k0 v0] m IH]; cbn; [done|].
  destruct (decide (k0 = k)); cbn; [done|]. rewrite IH. by destruct (assoc_get k m).
Qed.

End AssocMore.

(** *** Strings *)

Lemma prefix_append (a t : string) : String.prefix a (a +:+ t) = true.
Proof.
  induction a as [|c a IH]; simpl.
  - by destruct t.
  - by destruct (Ascii.ascii_dec c c).
Qed.

Lemma prefix_append_inv (a b s : string) :
  String.prefix (a +:+ b) s = true → String.prefix a s = true.
Proof.
  revert s. induction a as [|c a IH]; intros s; simpl.
  - by destruct s.
  - destruct s as [|c' s]; simpl; [done|].
    destruct (Ascii.ascii_dec c c'); [apply IH|done].
Qed.

Lemma substring_all (t : string) : String.substring 0 (String.length t) t = t.
Proof. induction t as [|c t IH]; [done|]. cbn. by rewrite IH. Qed.

Lemma substring_append_skip (a t : string) n :
  String.substring (String.length a) n (a +:+ t) = String.substring 0 n t.
Proof. induction a as [|c a IH]; simpl; [done|]. by rewrite IH. Qed.

Lemma length_append (a t : string) :
  String.length (a +:+ t) = String.length a + String.length t.
Proof. induction a as [|c a IH]; simpl; [done|]. by rewrite IH. Qed.

Lemma index_append (c : Ascii.ascii) (a t : string) :
  String.index 0 (String c a) (String c a +:+ t) = Some 0.
Proof.
  change (String c a +:+ t) with (String c (a +:+ t)). cbn [String.index].
  change (String c (a +:+ t)) with (String c a +:+ t). by rewrite prefix_append.
Qed.


(** ** NotificationManager *)

Module NotificationManager.

(** An array object is referred to by its address in [heap]. *)
Definition loc := nat.

(** [interface SSEConnection]; the encoder is stateless and left out, the
    writer is the handle of the stream it writes to. *)
Record SSEConnection := mkConn { writer : nat; userId : string }.

#[global] Instance SSEConnection_eq_dec : EqDecision SSEConnection.
Proof. solve_decision. Defined.

Record State := mkState {
  connections : gmap string loc;          (* this.connections : Map<string, SSEConnection[]> *)
  heap : gmap loc (list SSEConnection);   (* the array objects *)
  streams : gmap nat (list string);       (* chunks accepted by each writer, in order *)
  errored : gset nat;                     (* writers whose stream is closed or errored *)
  next_loc : loc;
  next_writer : nat
}.

Definition init : State := mkState ∅ ∅ ∅ ∅ 0 0.

Definition set_connections (f : gmap string loc → gmap string loc) (s : State) : State :=
  mkState (f (connections s)) (heap s) (streams s) (errored s) (next_loc s) (next_writer s).

Definition set_heap (f : gmap loc (list SSEConnection) → gmap loc (list SSEConnection))
    (s : State) : State :=
  mkState (connections s) (f (heap s)) (streams s) (errored s) (next_loc s) (next_writer s).

Definition deref (s : State) (l : loc) : list SSEConnection :=
  default [] (heap s !! l).

(** The array registered for a user, as the [Map] and the heap hold it. *)
Definition registry (s : State) (u : string) : list SSEConnection :=
  match connections s !! u with
  | Some l => deref s l
  | None => []
  end.

(** [this.connections.get(k) || []]: the registered array itself, or a
    freshly allocated empty one. *)
Definition get_or_new (k : string) (s : State) : loc * State :=
  match connections s !! k with
  | Some l => (l, s)
  | None =>
      (next_loc s,
       mkState (connections s) (<[next_loc s := []]> (heap s)) (streams s)
               (errored s) (S (next_loc s)) (next_writer s))
  end.

(** [writer.write(chunk)]: rejects on a closed or errored stream. *)
Definition writer_write (w : nat) (chunk : string) (s : State) : bool * State :=
  if decide (w ∈ errored s) then (false, s)
  else (true,
        mkState (connections s) (heap s)
                (<[w := default [] (streams s !! w) ++ [chunk]]> (streams s))
                (errored s) (next_loc s) (next_writer s)).

(** [writer.close()] *)
Definition writer_close (w : nat) (s : State) : State :=
  mkState (connections s) (heap s) (streams s) ({[w]} ∪ errored s)
          (next_loc s) (next_writer s).

(** [arr.indexOf(c)] *)
Definition indexOf (c : SSEConnection) (l : list SSEConnection) : option nat :=
  fst <$> list_find (λ x, x = c) l.

(** [const i = arr.indexOf(c); if (i > -1) arr.splice(i, 1)] on the array at [l]. *)
Definition splice_out (c : SSEConnection) (l : loc) (s : State) : State :=
  match indexOf c (deref s l) with
  | Some i => set_heap (<[l := delete i (deref s l)]>) s
  | None => s
  end.

(** The [/subscribe] branch. *)
Definition subscribe (uid : string) (s : State) : SSEConnection * State :=
  let w := next_writer s in
  let s0 := mkState (connections s) (heap s) (streams s) (errored s)
                    (next_loc s) (S w) in
  let '(l, s1) := get_or_new uid s0 in
  let connection := mkConn w uid in
  let s2 := set_heap (<[l := deref s1 l ++ [connection]]>) s1 in
  (connection, set_connections (<[uid := l]>) s2).

(** The keepalive timer of a subscription. *)
Definition keepalive (w : nat) (s : State) : State :=
  snd (writer_write w (": keepalive" +:+ LF +:+ LF) s).

(** The [abort] listener of a subscription. *)
Definition on_abort (c : SSEConnection) (s : State) : State :=
  let '(l, s1) := get_or_new (userId c) s in
  let s2 := splice_out c l s1 in
  let s3 := if decide (length (deref s2 l) = 0)
            then set_connections (delete (userId c)) s2 else s2 in
  writer_close (writer c) s3.

Definition frame (json : string) : string := "data: " +:+ json +:+ LF +:+ LF.

(** The synchronous part of [connections.map(async conn => ...)]: every
    callback runs up to its [await], so every write is issued before any
    [catch] block runs. Returns the connections whose write rejected. *)
Fixpoint start_writes (message : string) (conns : list SSEConnection) (s : State)
    : list SSEConnection * State :=
  match conns with
  | [] => ([], s)
  | conn :: rest =>
      let '(ok, s1) := writer_write (writer conn) message s in
      let '(failed, s2) := start_writes message rest s1 in
      (if ok then failed else conn :: failed, s2)
  end.

(** The [catch] blocks, one per rejected write. *)
Fixpoint remove_failed (targetUserId : string) (failed : list SSEConnection) (s : State)
    : State :=
  match failed with
  | [] => s
  | conn :: rest =>
      let '(userConns, s1) := get_or_new targetUserId s in
      remove_failed targetUserId rest (splice_out conn userConns s1)
  end.

(** A write is accepted when the writer's stream is open. *)
Definition open_in (s : State) (c : SSEConnection) : Prop := writer c ∉ errored s.

#[global] Instance open_in_dec s c : Decision (open_in s c).
Proof. unfold open_in. apply _. Defined.

(** The [/notify] branch runs in two turns of the event loop, before and
    after [await Promise.all(...)]; between them the object handles other
    events. [Call] is what the call keeps across the [await]: the user it
    notifies, the array it read from the Map (the local [connections], a
    reference to the shared array) and the connections whose write was
    accepted, whose callbacks are suspended at [await conn.writer.write]. *)
Record Call := mkCall {
  call_target : string;
  call_connections : loc;
  call_accepted : list SSEConnection
}.

(** The first turn; [json] is [JSON.stringify(data)]. Every write is
    issued, in the order of the array. A write to a closed or errored
    stream rejects at once; the [catch] blocks of these writes run when
    the call suspends, before any other event is handled. *)
Definition notify_start (targetUserId json : string) (s : State) : Call * State :=
  let '(conns, s1) := get_or_new targetUserId s in
  let '(failed, s2) := start_writes (frame json) (deref s1 conns) s1 in
  let s3 := remove_failed targetUserId failed s2 in
  (mkCall targetUserId conns (filter (open_in s1) (deref s1 conns)), s3).

(** The [catch] block of an accepted write that rejects later, because
    the stream errors while the chunk is queued: it looks up the array
    registered for the user at that time. *)
Definition write_rejected (targetUserId : string) (conn : SSEConnection) (s : State)
    : State :=
  remove_failed targetUserId [conn] s.

(** The second turn, when every write has settled: [connections.length] is
    read from the array that the local variable refers to, as it is then. *)
Definition notify_resume (call : Call) (s : State) : nat :=
  length (deref s (call_connections call)).

(** The whole call when nothing else is handled while it awaits and no
    accepted write rejects: [notify_start] followed at once by
    [notify_resume]. It leaves the state that the first turn leaves. *)
Definition notify (targetUserId json : string) (s : State) : nat * State :=
  let '(conns, s1) := get_or_new targetUserId s in
  let '(failed, s2) := start_writes (frame json) (deref s1 conns) s1 in
  let s3 := remove_failed targetUserId failed s2 in
  (length (deref s3 conns), s3).

Record Request := mkRequest {
  query_userId : option string;
  pathname : string;
  method : string;
  body_userId : string;
  body_data : string
}.

Inductive Response :=
| MissingUserId                      (* 400 *)
| EventStream (c : SSEConnection)    (* the readable side of the new stream *)
| Notified (sent : nat)              (* { success: true, sent } *)
| NotFound.                          (* 404 *)

(** [fetch]. For [/notify] the state is the one that the first turn of the
    call leaves, and the response is the one given when the call resumes at
    once; [notify_resume] gives the count of a call that resumes later. *)
Definition fetch (r : Request) (s : State) : Response * State :=
  match query_userId r with
  | Some uid =>
      if negb (truthy (Some uid)) then (MissingUserId, s)
      else if String.eqb (pathname r) "/subscribe" then
        let '(c, s') := subscribe uid s in (EventStream c, s')
      else if String.eqb (pathname r) "/notify" && String.eqb (method r) "POST" then
        let '(n, s') := notify (body_userId r) (body_data r) s in (Notified n, s')
      else (NotFound, s)
  | None => (MissingUserId, s)
  end.

(** Events the actor processes, one at a time: each is one turn of the
    event loop. For a [/notify] request [EvFetch] is the first turn of the
    call; the second turn changes nothing. [EvWriteRejected] is the
    [catch] block of a write that a call for [targetUserId] had pending
    and that rejects, which takes a stream that is closed or has errored.
    Which writes are pending is not tracked: the block may run for any
    connection with such a stream, which includes every run of the code. *)
Inductive Event :=
| EvFetch (r : Request)
| EvAbort (c : SSEConnection)
| EvKeepalive (w : nat)
| EvStreamError (w : nat)    (* the peer goes away: later writes reject *)
| EvWriteRejected (targetUserId : string) (conn : SSEConnection).

Definition step (e : Event) (s : State) : State :=
  match e with
  | EvFetch r => snd (fetch r s)
  | EvAbort c => on_abort c s
  | EvKeepalive w => keepalive w s
  | EvStreamError w => writer_close w s
  | EvWriteRejected targetUserId conn =>
      if decide (writer conn ∈ errored s) then write_rejected targetUserId conn s else s
  end.

Definition run (es : list Event) (s : State) : State :=
  foldl (λ s e, step e s) s es.

(** States the actor can be in. *)
Definition reachable (s : State) : Prop := ∃ es, s = run es init.

(** The invariant of the registry: arrays of distinct users are distinct
    objects, every registered array is allocated, and a writer handle
    occurs once in the whole heap. *)
Record wf (s : State) : Prop := mkWf {
  wf_inj : ∀ u1 u2 l, connections s !! u1 = Some l → connections s !! u2 = Some l → u1 = u2;
  wf_alloc : ∀ u l, connections s !! u = Some l → is_Some (heap s !! l);
  wf_heap_fresh : ∀ l, next_loc s ≤ l → heap s !! l = None;
  wf_writer_fresh : ∀ l cs c, heap s !! l = Some cs → c ∈ cs → writer c < next_writer s;
  wf_nodup : ∀ l cs, heap s !! l = Some cs → NoDup (writer <$> cs);
  wf_disj : ∀ l1 l2 cs1 cs2 c1 c2,
      l1 ≠ l2 → heap s !! l1 = Some cs1 → heap s !! l2 = Some cs2 →
      c1 ∈ cs1 → c2 ∈ cs2 → writer c1 ≠ writer c2
}.

(** What the [catch] blocks do to the array, as a list function. *)
Definition remove_first (c : SSEConnection) (cs : list SSEConnection) : list SSEConnection :=
  match indexOf c cs with
  | Some i => delete i cs
  | None => cs
  end.

Definition remove_all (failed cs : list SSEConnection) : list SSEConnection :=
  foldl (λ acc c, remove_first c acc) cs failed.

(** What the accepted writes do to the streams. *)
Definition deliver (message : string) (ws : list nat) (st : gmap nat (list string))
    : gmap nat (list string) :=
  foldl (λ st w, <[w := default [] (st !! w) ++ [message]]> st) st ws.

(** The chunks that the object writes: the keepalive comment and the
    [data:] frame of a notification. *)
Definition sse_chunk (chunk : string) : Prop :=
  chunk = ": keepalive" +:+ LF +:+ LF ∨ ∃ json, chunk = frame json.

(** *** Lists: [indexOf] and [splice] *)

(** A state with two subscriptions of alice, the first of them broken, and
    one of bob. *)
Definition sub (u : string) : Event := EvFetch (mkRequest (Some u) "/subscribe" "GET" "" "").

Definition demo : State :=
  run [sub "alice"; sub "bob"; EvStreamError 0; sub "alice"] init.

Lemma remove_first_head c cs : remove_first c (c :: cs) = cs.
Proof.
  unfold remove_first, indexOf. cbn. by rewrite decide_True.
Qed.

Lemma remove_first_skip c a cs :
  a ≠ c → remove_first c (a :: cs) = a :: remove_first c cs.
Proof.
  intros Hne. unfold remove_first, indexOf. cbn.
  rewrite decide_False by done.
  destruct (list_find (λ x, x = c) cs) as [[i x]|]; done.
Qed.

Lemma remove_all_skip failed a cs :
  a ∉ failed → remove_all failed (a :: cs) = a :: remove_all failed cs.
Proof.
  revert cs. induction failed as [|f failed IH]; intros cs Hnin; [done|].
  apply not_elem_of_cons in Hnin as [Hne Hnin].
  unfold remove_all in *. cbn. rewrite remove_first_skip by done. by apply IH.
Qed.

(** Splicing out, one by one, the connections that fail a test leaves
    exactly those that pass it, in their order. *)
Lemma remove_all_filter (P : SSEConnection → Prop) `{!∀ c, Decision (P c)} cs :
  remove_all (filter (λ c, ¬ P c) cs) cs = filter P cs.
Proof.
  induction cs as [|a cs IH]; [done|].
  destruct (decide (P a)) as [Ha|Ha].
  - rewrite (filter_cons_True P) by done.
    rewrite filter_cons_False by (intros Hn; by apply Hn).
    rewrite remove_all_skip, IH; [done|].
    intros [Hn _]%list_elem_of_filter. by apply Hn.
  - rewrite (filter_cons_False P) by done.
    rewrite filter_cons_True by done.
    unfold remove_all in *. cbn. by rewrite remove_first_head.
Qed.

(** *** The writes of [/notify] and their [catch] blocks *)

Lemma deliver_notin message ws st w :
  w ∉ ws → deliver message ws st !! w = st !! w.
Proof.
  revert st. induction ws as [|a ws IH]; intros st Hnin; [done|].
  apply not_elem_of_cons in Hnin as [Hne Hnin].
  unfold deliver in *. cbn. rewrite IH by done. by rewrite lookup_insert_ne.
Qed.

Lemma deliver_in message ws st w :
  NoDup ws → w ∈ ws →
  deliver message ws st !! w = Some (default [] (st !! w) ++ [message]).
Proof.
  revert st. induction ws as [|a ws IH]; intros st Hnd Hin.
  - by apply elem_of_nil in Hin.
  - apply NoDup_cons in Hnd as [Hna Hnd]. unfold deliver. cbn.
    fold (deliver message ws (<[a:=default [] (st !! a) ++ [message]]> st)).
    apply elem_of_cons in Hin as [->|Hin].
    + rewrite deliver_notin by done. by rewrite lookup_insert_eq.
    + rewrite IH by done. rewrite lookup_insert_ne; [done|]. by intros ->.
Qed.

Lemma start_writes_spec message conns s :
  (start_writes message conns s).1 = filter (λ c, ¬ open_in s c) conns ∧
  connections (start_writes message conns s).2 = connections s ∧
  heap (start_writes message conns s).2 = heap s ∧
  errored (start_writes message conns s).2 = errored s ∧
  next_loc (start_writes message conns s).2 = next_loc s ∧
  next_writer (start_writes message conns s).2 = next_writer s ∧
  streams (start_writes message conns s).2
    = deliver message (writer <$> filter (open_in s) conns) (streams s).
Proof.
  revert s. induction conns as [|c conns IH]; intros s; [done|].
  cbn [start_writes]. unfold writer_write.
  destruct (decide (writer c ∈ errored s)) as [Hbad|Hok].
  - destruct (start_writes message conns s) as [failed s2] eqn:E.
    specialize (IH s). rewrite E in IH. cbn [fst snd] in *.
    destruct IH as (-> & ? & ? & ? & ? & ? & ?).
    rewrite filter_cons_True by (unfold open_in; naive_solver).
    rewrite (filter_cons_False (open_in s)) by (unfold open_in; naive_solver).
    done.
  - set (s1 := mkState _ _ _ _ _ _).
    destruct (start_writes message conns s1) as [failed s2] eqn:E.
    specialize (IH s1). rewrite E in IH. cbn [fst snd] in *.
    destruct IH as (-> & ? & ? & ? & ? & ? & Hst).
    rewrite filter_cons_False by (unfold open_in; naive_solver).
    rewrite (filter_cons_True (open_in s)) by done.
    done.
Qed.

Lemma deref_splice_out c l s : deref (splice_out c l s) l = remove_first c (deref s l).
Proof.
  unfold splice_out, remove_first. destruct (indexOf c (deref s l)); [|done].
  unfold deref at 1. cbn. by rewrite lookup_insert_eq.
Qed.

Lemma heap_splice_out_ne c l l' s : l' ≠ l → heap (splice_out c l s) !! l' = heap s !! l'.
Proof.
  intros Hne. unfold splice_out. destruct (indexOf c (deref s l)); [|done].
  cbn. by rewrite lookup_insert_ne.
Qed.

Lemma splice_out_frame c l s :
  connections (splice_out c l s) = connections s ∧
  streams (splice_out c l s) = streams s ∧
  errored (splice_out c l s) = errored s ∧
  next_loc (splice_out c l s) = next_loc s ∧
  next_writer (splice_out c l s) = next_writer s.
Proof. unfold splice_out. by destruct (indexOf c (deref s l)). Qed.

Lemma get_or_new_present k s l : connections s !! k = Some l → get_or_new k s = (l, s).
Proof. intros H. unfold get_or_new. by rewrite H. Qed.

Lemma remove_failed_spec target failed s l :
  connections s !! target = Some l →
  connections (remove_failed target failed s) = connections s ∧
  streams (remove_failed target failed s) = streams s ∧
  errored (remove_failed target failed s) = errored s ∧
  next_loc (remove_failed target failed s) = next_loc s ∧
  next_writer (remove_failed target failed s) = next_writer s ∧
  deref (remove_failed target failed s) l = remove_all failed (deref s l) ∧
  ∀ l', l' ≠ l → heap (remove_failed target failed s) !! l' = heap s !! l'.
Proof.
  revert s. induction failed as [|c failed IH]; intros s Hl; [done|].
  cbn [remove_failed]. rewrite (get_or_new_present _ _ _ Hl).
  destruct (splice_out_frame c l s) as (Hc & Hs & He & Hnl & Hnw).
  destruct (IH (splice_out c l s)) as (? & ? & ? & ? & ? & Hd & Hh).
  { by rewrite Hc. }
  repeat split; try congruence.
  - rewrite Hd, deref_splice_out. done.
  - intros l' Hne. rewrite Hh by done. by apply heap_splice_out_ne.
Qed.

Lemma notify_absent target json s :
  connections s !! target = None →
  notify target json s
  = (0, mkState (connections s) (<[next_loc s := []]> (heap s)) (streams s)
                (errored s) (S (next_loc s)) (next_writer s)).
Proof.
  intros Hnone. unfold notify, get_or_new. rewrite Hnone.
  unfold deref at 1. cbn [heap]. rewrite lookup_insert_eq. cbn.
  unfold deref. cbn. by rewrite lookup_insert_eq.
Qed.

Lemma notify_present target json s l :
  connections s !! target = Some l →
  connections (notify target json s).2 = connections s ∧
  errored (notify target json s).2 = errored s ∧
  next_loc (notify target json s).2 = next_loc s ∧
  next_writer (notify target json s).2 = next_writer s ∧
  streams (notify target json s).2
    = deliver (frame json) (writer <$> filter (open_in s) (deref s l)) (streams s) ∧
  deref (notify target json s).2 l = filter (open_in s) (deref s l) ∧
  (∀ l', l' ≠ l → heap (notify target json s).2 !! l' = heap s !! l') ∧
  (notify target json s).1 = length (filter (open_in s) (deref s l)).
Proof.
  intros Hl. unfold notify. rewrite (get_or_new_present _ _ _ Hl).
  destruct (start_writes_spec (frame json) (deref s l) s)
    as (Hf & Hc & Hh & He & Hnl & Hnw & Hst).
  destruct (start_writes (frame json) (deref s l) s) as [failed s2].
  cbn [fst snd] in *. subst failed.
  destruct (remove_failed_spec target (filter (λ c, ¬ open_in s c) (deref s l)) s2 l)
    as (Hc' & Hs' & He' & Hnl' & Hnw' & Hd & Hh').
  { by rewrite Hc. }
  assert (deref s2 l = deref s l) as Hd2 by (unfold deref; by rewrite Hh).
  rewrite Hd2, remove_all_filter in Hd.
  repeat split; try congruence.
  intros l' Hne. rewrite Hh' by done. by rewrite Hh.
Qed.

(** *** The invariant holds in every reachable state *)

Lemma wf_init : wf init.
Proof. split; cbn; intros; by simplify_map_eq. Qed.

Lemma wf_ext s s' :
  connections s' = connections s → heap s' = heap s →
  next_loc s' = next_loc s → next_writer s' = next_writer s →
  wf s → wf s'.
Proof.
  intros Hc Hh Hl Hw [].
  split; rewrite ?Hc, ?Hh, ?Hl, ?Hw; done.
Qed.

Lemma wf_get_or_new k s : wf s → wf (get_or_new k s).2.
Proof.
  intros Hwf. unfold get_or_new. destruct (connections s !! k); [done|].
  destruct Hwf as [Hinj Hal Hfr Hwfr Hnd Hdj]. split; cbn.
  - done.
  - intros u l Hu. destruct (decide (l = next_loc s)) as [->|Hne].
    + rewrite lookup_insert_eq. by eexists.
    + rewrite lookup_insert_ne by done. eauto.
  - intros l Hle. rewrite lookup_insert_ne by lia. apply Hfr. lia.
  - intros l cs c Hl Hin. destruct (decide (l = next_loc s)) as [->|Hne].
    + rewrite lookup_insert_eq in Hl. simplify_eq. by apply elem_of_nil in Hin.
    + rewrite lookup_insert_ne in Hl by done. eauto.
  - intros l cs Hl. destruct (decide (l = next_loc s)) as [->|Hne].
    + rewrite lookup_insert_eq in Hl. simplify_eq. constructor.
    + rewrite lookup_insert_ne in Hl by done. eauto.
  - intros l1 l2 cs1 cs2 c1 c2 Hne H1 H2 Hin1 Hin2.
    destruct (decide (l1 = next_loc s)) as [->|Hne1].
    { rewrite lookup_insert_eq in H1. simplify_eq. by apply elem_of_nil in Hin1. }
    destruct (decide (l2 = next_loc s)) as [->|Hne2].
    { rewrite lookup_insert_eq in H2. simplify_eq. by apply elem_of_nil in Hin2. }
    rewrite lookup_insert_ne in H1, H2 by done. eauto.
Qed.

Lemma get_or_new_alloc k s : wf s → is_Some (heap (get_or_new k s).2 !! (get_or_new k s).1).
Proof.
  intros Hwf. unfold get_or_new. destruct (connections s !! k) as [l|] eqn:E; cbn.
  - by eapply wf_alloc.
  - rewrite lookup_insert_eq. by eexists.
Qed.

(** Replacing an array by a sublist of itself (a [splice]) keeps the invariant. *)
Lemma wf_shrink l cs cs' s :
  wf s → heap s !! l = Some cs → sublist cs' cs → wf (set_heap (<[l := cs']>) s).
Proof.
  intros [Hinj Hal Hfr Hwfr Hnd Hdj] Hl Hsub. split; cbn.
  - done.
  - intros u l0 Hu. destruct (decide (l0 = l)) as [->|Hne].
    + rewrite lookup_insert_eq. by eexists.
    + rewrite lookup_insert_ne by done. eauto.
  - intros l0 Hle. destruct (decide (l0 = l)) as [->|Hne].
    + rewrite Hfr in Hl by done. done.
    + rewrite lookup_insert_ne by done. eauto.
  - intros l0 cs0 c H0 Hin. destruct (decide (l0 = l)) as [->|Hne].
    + rewrite lookup_insert_eq in H0. simplify_eq.
      eapply Hwfr; [done|]. by eapply elem_of_sublist.
    + rewrite lookup_insert_ne in H0 by done. eauto.
  - intros l0 cs0 H0. destruct (decide (l0 = l)) as [->|Hne].
    + rewrite lookup_insert_eq in H0. simplify_eq.
      eapply sublist_NoDup; [by eapply Hnd|]. by apply fmap_sublist.
    + rewrite lookup_insert_ne in H0 by done. eauto.
  - intros l1 l2 cs1 cs2 c1 c2 Hne H1 H2 Hin1 Hin2.
    destruct (decide (l1 = l)) as [->|Hne1]; destruct (decide (l2 = l)) as [->|Hne2];
      try done.
    + rewrite lookup_insert_eq in H1. rewrite lookup_insert_ne in H2 by done.
      simplify_eq. eapply (Hdj l l2); eauto using elem_of_sublist.
    + rewrite lookup_insert_eq in H2. rewrite lookup_insert_ne in H1 by done.
      simplify_eq. eapply (Hdj l1 l); eauto using elem_of_sublist.
    + rewrite lookup_insert_ne in H1, H2 by done. eauto.
Qed.

Lemma wf_splice_out c l s : wf s → wf (splice_out c l s).
Proof.
  intros Hwf. unfold splice_out.
  destruct (indexOf c (deref s l)) as [i|] eqn:E; [|done].
  unfold deref in *. destruct (heap s !! l) as [cs|] eqn:Hl.
  - eapply wf_shrink; [done..|]. apply sublist_delete.
  - discriminate E.
Qed.

Lemma wf_remove_failed target failed s : wf s → wf (remove_failed target failed s).
Proof.
  revert s. induction failed as [|c failed IH]; intros s Hwf; [done|].
  cbn [remove_failed]. pose proof (wf_get_or_new target s Hwf) as H1.
  destruct (get_or_new target s) as [l s1]. by apply IH, wf_splice_out.
Qed.

Lemma wf_notify target json s : wf s → wf (notify target json s).2.
Proof.
  intros Hwf. unfold notify. pose proof (wf_get_or_new target s Hwf) as H1.
  destruct (get_or_new target s) as [l s1]. cbn [snd] in H1.
  destruct (start_writes_spec (frame json) (deref s1 l) s1)
    as (_ & Hc & Hh & _ & Hnl & Hnw & _).
  destruct (start_writes (frame json) (deref s1 l) s1) as [failed s2].
  cbn [fst snd] in *. apply wf_remove_failed. by eapply wf_ext.
Qed.

Lemma wf_subscribe uid s : wf s → wf (subscribe uid s).2.
Proof.
  intros Hwf. unfold subscribe.
  set (s0 := mkState _ _ _ _ _ (S (next_writer s))).
  assert (wf s0) as Hwf0.
  { destruct Hwf as [Hinj Hal Hfr Hwfr Hnd Hdj]. split; cbn; eauto.
    intros l cs c Hl Hin. specialize (Hwfr _ _ _ Hl Hin). lia. }
  assert (∀ l cs c, heap s0 !! l = Some cs → c ∈ cs → writer c < next_writer s) as Hlt.
  { intros l cs c. cbn. by eapply wf_writer_fresh. }
  assert (∀ l cs c, heap (get_or_new uid s0).2 !! l = Some cs → c ∈ cs
            → writer c < next_writer s) as Hlt1.
  { unfold get_or_new. destruct (connections s0 !! uid); [done|]. cbn.
    intros l cs c Hl Hin. destruct (decide (l = next_loc s)) as [->|Hne].
    - rewrite lookup_insert_eq in Hl. simplify_eq. by apply elem_of_nil in Hin.
    - rewrite lookup_insert_ne in Hl by done. by eapply (Hlt l). }
  assert (∀ u, connections (get_or_new uid s0).2 !! u = Some (get_or_new uid s0).1
            → u = uid) as Hown.
  { unfold get_or_new. destruct (connections s0 !! uid) as [l|] eqn:E; cbn.
    - intros u Hu. by eapply (wf_inj s).
    - intros u Hu. destruct (wf_alloc s Hwf u _ Hu) as [cs Hcs].
      rewrite (wf_heap_fresh s Hwf) in Hcs by done. done. }
  pose proof (wf_get_or_new uid s0 Hwf0) as Hwf1.
  pose proof (get_or_new_alloc uid s0 Hwf0) as [cs Hcs].
  assert (next_writer (get_or_new uid s0).2 = S (next_writer s)) as Hnw.
  { unfold get_or_new. by destruct (connections s0 !! uid). }
  destruct (get_or_new uid s0) as [l s1]. cbn [fst snd] in *.
  destruct Hwf1 as [Hinj Hal Hfr Hwfr Hnd Hdj].
  unfold deref. rewrite Hcs. cbn [default].
  split; cbn.
  - intros u1 u2 l0 H1 H2.
    destruct (decide (u1 = uid)) as [->|Hn1]; destruct (decide (u2 = uid)) as [->|Hn2];
      try done.
    + rewrite lookup_insert_eq in H1. rewrite lookup_insert_ne in H2 by done.
      simplify_eq. symmetry. by apply Hown.
    + rewrite lookup_insert_eq in H2. rewrite lookup_insert_ne in H1 by done.
      simplify_eq. by apply Hown.
    + rewrite lookup_insert_ne in H1, H2 by done. eauto.
  - intros u l0 Hu. destruct (decide (l0 = l)) as [->|Hne].
    + rewrite lookup_insert_eq. by eexists.
    + rewrite lookup_insert_ne by done. destruct (decide (u = uid)) as [->|Hnu].
      * rewrite lookup_insert_eq in Hu. by simplify_eq.
      * rewrite lookup_insert_ne in Hu by done. eauto.
  - intros l0 Hle. destruct (decide (l0 = l)) as [->|Hne].
    + rewrite Hfr in Hcs by done. done.
    + rewrite lookup_insert_ne by done. eauto.
  - rewrite Hnw. intros l0 cs0 c H0 Hin. destruct (decide (l0 = l)) as [->|Hne].
    + rewrite lookup_insert_eq in H0. simplify_eq.
      apply elem_of_app in Hin as [Hin|Hin%list_elem_of_singleton].
      * specialize (Hlt1 _ _ _ Hcs Hin). lia.
      * subst c. cbn. lia.
    + rewrite lookup_insert_ne in H0 by done. specialize (Hlt1 _ _ _ H0 Hin). lia.
  - intros l0 cs0 H0. destruct (decide (l0 = l)) as [->|Hne].
    + rewrite lookup_insert_eq in H0. simplify_eq.
      rewrite fmap_app. apply NoDup_app. split_and!.
      * by eapply Hnd.
      * intros w [c [-> Hin]]%list_elem_of_fmap [Heq|Hnil]%elem_of_cons.
        -- specialize (Hlt1 _ _ _ Hcs Hin). cbn in Heq. lia.
        -- by apply elem_of_nil in Hnil.
      * apply NoDup_singleton.
    + rewrite lookup_insert_ne in H0 by done. eauto.
  - intros l1 l2 cs1 cs2 c1 c2 Hne H1 H2 Hin1 Hin2.
    destruct (decide (l1 = l)) as [->|Hne1]; destruct (decide (l2 = l)) as [->|Hne2];
      try done.
    + rewrite lookup_insert_eq in H1. rewrite lookup_insert_ne in H2 by done.
      simplify_eq. apply elem_of_app in Hin1 as [Hin1|Hin1%list_elem_of_singleton].
      * eauto.
      * subst c1. cbn. specialize (Hlt1 _ _ _ H2 Hin2). lia.
    + rewrite lookup_insert_eq in H2. rewrite lookup_insert_ne in H1 by done.
      simplify_eq. apply elem_of_app in Hin2 as [Hin2|Hin2%list_elem_of_singleton].
      * eauto.
      * subst c2. cbn. specialize (Hlt1 _ _ _ H1 Hin1). lia.
    + rewrite lookup_insert_ne in H1, H2 by done. eauto.
Qed.

Lemma wf_delete_key k s : wf s → wf (set_connections (delete k) s).
Proof.
  intros [Hinj Hal Hfr Hwfr Hnd Hdj]. split; cbn; eauto.
  - intros u1 u2 l [_ H1]%lookup_delete_Some [_ H2]%lookup_delete_Some. eauto.
  - intros u l [_ H1]%lookup_delete_Some. eauto.
Qed.

Lemma wf_on_abort c s : wf s → wf (on_abort c s).
Proof.
  intros Hwf. unfold on_abort. pose proof (wf_get_or_new (userId c) s Hwf) as H1.
  destruct (get_or_new (userId c) s) as [l s1]. cbn [snd] in H1.
  apply (wf_splice_out c l) in H1.
  destruct (decide (length (deref (splice_out c l s1) l) = 0)).
  - eapply wf_ext; [..|by apply (wf_delete_key (userId c))]; done.
  - eapply wf_ext; [..|done]; done.
Qed.

Lemma wf_step e s : wf s → wf (step e s).
Proof.
  intros Hwf. destruct e as [r|c|w|w|target conn]; cbn.
  5: { destruct (decide (writer conn ∈ errored s)); [|done]. by apply (wf_remove_failed target [conn]). }
  - unfold fetch. destruct (query_userId r) as [uid|]; [|done].
    destruct (negb (truthy (Some uid))); [done|].
    destruct (String.eqb (pathname r) "/subscribe").
    { pose proof (wf_subscribe uid s Hwf). by destruct (subscribe uid s). }
    destruct (String.eqb (pathname r) "/notify" && String.eqb (method r) "POST"); [|done].
    pose proof (wf_notify (body_userId r) (body_data r) s Hwf).
    by destruct (notify (body_userId r) (body_data r) s).
  - by apply wf_on_abort.
  - unfold keepalive, writer_write. destruct (decide (w ∈ errored s)); [done|].
    eapply wf_ext; [..|done]; done.
  - eapply wf_ext; [..|done]; done.
Qed.

Lemma reachable_wf s : reachable s → wf s.
Proof.
  intros [es ->]. unfold run.
  induction es as [|e es IH] using rev_ind; [apply wf_init|].
  rewrite foldl_app. cbn. by apply wf_step.
Qed.

(** *** What [/notify] does to registries and streams *)

Lemma notify_registry_target target json s :
  registry (notify target json s).2 target = filter (open_in s) (registry s target).
Proof.
  unfold registry. destruct (connections s !! target) as [l|] eqn:E.
  - destruct (notify_present target json s l E) as (-> & _ & _ & _ & _ & Hd & _).
    by rewrite E.
  - rewrite (notify_absent _ _ _ E). cbn. by rewrite E.
Qed.

Lemma notify_sent target json s :
  (notify target json s).1 = length (filter (open_in s) (registry s target)).
Proof.
  unfold registry. destruct (connections s !! target) as [l|] eqn:E.
  - by destruct (notify_present target json s l E) as (_ & _ & _ & _ & _ & _ & _ & ->).
  - by rewrite (notify_absent _ _ _ E).
Qed.

Lemma notify_registry_other target json s u :
  wf s → u ≠ target → registry (notify target json s).2 u = registry s u.
Proof.
  intros Hwf Hne. unfold registry. destruct (connections s !! target) as [l|] eqn:E.
  - destruct (notify_present target json s l E) as (-> & _ & _ & _ & _ & _ & Hh & _).
    destruct (connections s !! u) as [l'|] eqn:Eu; [|done].
    unfold deref. rewrite Hh; [done|]. intros ->. apply Hne. by eapply wf_inj.
  - rewrite (notify_absent _ _ _ E). cbn.
    destruct (connections s !! u) as [l'|] eqn:Eu; [|done].
    unfold deref. cbn. rewrite lookup_insert_ne; [done|]. intros <-.
    destruct (wf_alloc s Hwf u _ Eu) as [cs Hcs].
    by rewrite (wf_heap_fresh s Hwf) in Hcs.
Qed.

Lemma notify_streams target json s :
  streams (notify target json s).2
  = deliver (frame json) (writer <$> filter (open_in s) (registry s target)) (streams s).
Proof.
  unfold registry. destruct (connections s !! target) as [l|] eqn:E.
  - by destruct (notify_present target json s l E) as (_ & _ & _ & _ & -> & _).
  - by rewrite (notify_absent _ _ _ E).
Qed.

Lemma registry_NoDup s u : wf s → NoDup (writer <$> registry s u).
Proof.
  intros Hwf. unfold registry, deref. destruct (connections s !! u) as [l|]; [|constructor].
  destruct (heap s !! l) as [cs|] eqn:E; [by eapply wf_nodup | constructor].
Qed.

Lemma notify_delivered target json s c :
  wf s → c ∈ registry s target → open_in s c →
  streams (notify target json s).2 !! writer c
  = Some (default [] (streams s !! writer c) ++ [frame json]).
Proof.
  intros Hwf Hin Hopen. rewrite notify_streams. apply deliver_in.
  - eapply sublist_NoDup; [by apply (registry_NoDup s target)|].
    apply fmap_sublist, sublist_filter.
  - apply list_elem_of_fmap. exists c. split; [done|]. by apply list_elem_of_filter.
Qed.

Lemma notify_untouched target json s w :
  w ∉ writer <$> registry s target →
  streams (notify target json s).2 !! w = streams s !! w.
Proof.
  intros Hnin. rewrite notify_streams. apply deliver_notin.
  intros [c [-> [_ Hin]%list_elem_of_filter]]%list_elem_of_fmap.
  apply Hnin, list_elem_of_fmap. eauto.
Qed.

Lemma remove_first_filter c cs :
  NoDup cs → remove_first c cs = filter (λ x, x ≠ c) cs.
Proof.
  induction 1 as [|a cs Hnin Hnd IH]; [done|].
  destruct (decide (a = c)) as [->|Hne].
  - rewrite remove_first_head, filter_cons_False by (intros Hn; by apply Hn).
    clear IH Hnd. induction cs as [|b cs IH]; [done|].
    apply not_elem_of_cons in Hnin as [Hb Hnin].
    rewrite filter_cons_True by done. f_equal. by apply IH.
  - rewrite remove_first_skip, filter_cons_True by done. by rewrite IH.
Qed.

Lemma registry_fresh_loc s u l :
  wf s → connections s !! u = Some l → l ≠ next_loc s.
Proof.
  intros Hwf Hu ->. destruct (wf_alloc s Hwf u _ Hu) as [cs Hcs].
  by rewrite (wf_heap_fresh s Hwf) in Hcs.
Qed.

(** Writers registered under distinct users are distinct. *)
Lemma registry_disjoint s u1 u2 c1 c2 :
  wf s → u1 ≠ u2 → c1 ∈ registry s u1 → c2 ∈ registry s u2 → writer c1 ≠ writer c2.
Proof.
  intros Hwf Hne. unfold registry, deref.
  destruct (connections s !! u1) as [l1|] eqn:E1; [|by intros ?%elem_of_nil].
  destruct (connections s !! u2) as [l2|] eqn:E2; [|by intros _ ?%elem_of_nil].
  destruct (heap s !! l1) as [cs1|] eqn:H1; [|by intros ?%elem_of_nil].
  destruct (heap s !! l2) as [cs2|] eqn:H2; [|by intros _ ?%elem_of_nil].
  cbn. intros Hin1 Hin2. eapply (wf_disj s Hwf l1 l2); eauto.
  intros ->. apply Hne. by eapply wf_inj.
Qed.

(** *** The two turns of a call *)

Lemma wf_run es s : wf s → wf (run es s).
Proof.
  revert s. induction es as [|e es IH]; intros s Hwf; [done|].
  change (run (e :: es) s) with (run es (step e s)). by apply IH, wf_step.
Qed.

Lemma notify_start_state target json s :
  (notify_start target json s).2 = (notify target json s).2.
Proof.
  unfold notify_start, notify. destruct (get_or_new target s) as [l s1].
  by destruct (start_writes (frame json) (deref s1 l) s1) as [failed s2].
Qed.

Lemma notify_start_resume target json s :
  notify_resume (notify_start target json s).1 (notify_start target json s).2
  = (notify target json s).1.
Proof.
  unfold notify_start, notify, notify_resume. destruct (get_or_new target s) as [l s1].
  by destruct (start_writes (frame json) (deref s1 l) s1) as [failed s2].
Qed.

Lemma notify_start_call target json s :
  call_target (notify_start target json s).1 = target ∧
  call_accepted (notify_start target json s).1 = filter (open_in s) (registry s target) ∧
  ∀ l, connections s !! target = Some l → call_connections (notify_start target json s).1 = l.
Proof.
  unfold notify_start, registry, get_or_new.
  destruct (connections s !! target) as [l|] eqn:E.
  - destruct (start_writes (frame json) (deref s l) s) as [failed s2].
    split_and!; [done..|]. by intros l' [= <-].
  - match goal with |- context [start_writes ?m ?cs ?s0] =>
      destruct (start_writes m cs s0) as [failed s2] end.
    cbn. split_and!; [done| |done]. unfold deref. cbn. by rewrite lookup_insert_eq.
Qed.

Lemma write_rejected_frame target conn s :
  connections (write_rejected target conn s) = connections s ∧
  streams (write_rejected target conn s) = streams s ∧
  errored (write_rejected target conn s) = errored s.
Proof.
  unfold write_rejected. cbn [remove_failed].
  assert (connections (get_or_new target s).2 = connections s ∧
          streams (get_or_new target s).2 = streams s ∧
          errored (get_or_new target s).2 = errored s) as (Hc & Hs & He).
  { unfold get_or_new. by destruct (connections s !! target). }
  destruct (get_or_new target s) as [l s1]. cbn [snd] in *.
  destruct (splice_out_frame conn l s1) as (-> & -> & -> & _). done.
Qed.

(** The [catch] block of a rejected write takes that connection, and no
    other, out of the array registered for the user. *)
Lemma write_rejected_registry target conn s :
  wf s →
  registry (write_rejected target conn s) target
  = filter (λ x, x ≠ conn) (registry s target) ∧
  ∀ u, u ≠ target → registry (write_rejected target conn s) u = registry s u.
Proof.
  intros Hwf.
  pose proof (NoDup_fmap_1 _ _ (registry_NoDup s target Hwf)) as Hnd.
  destruct (connections s !! target) as [l|] eqn:E.
  - destruct (remove_failed_spec target [conn] s l E) as (Hc & _ & _ & _ & _ & Hd & Hh).
    fold (write_rejected target conn s) in Hc, Hd, Hh.
    assert (registry s target = deref s l) as Hreg by (unfold registry; by rewrite E).
    split.
    + unfold registry at 1. rewrite Hc, E, Hd, Hreg.
      rewrite Hreg in Hnd. by rewrite <-(remove_first_filter conn _ Hnd).
    + intros u Hne. unfold registry. rewrite Hc.
      destruct (connections s !! u) as [l'|] eqn:Eu; [|done].
      unfold deref. rewrite Hh; [done|]. intros ->. apply Hne. by eapply wf_inj.
  - assert (registry s target = []) as Hreg by (unfold registry; by rewrite E).
    unfold write_rejected. cbn [remove_failed]. unfold get_or_new. rewrite E.
    unfold splice_out, deref, indexOf. cbn. rewrite lookup_insert_eq. cbn.
    split.
    + unfold registry. cbn. by rewrite E.
    + intros u Hne. unfold registry, deref. cbn.
      destruct (connections s !! u) as [l'|] eqn:Eu; [|done].
      pose proof (registry_fresh_loc s u l' Hwf Eu). by rewrite lookup_insert_ne.
Qed.

Lemma notify_rejected_untouched target json s c :
  wf s → c ∈ registry s target → ¬ open_in s c →
  streams (notify target json s).2 !! writer c = streams s !! writer c.
Proof.
  intros Hwf Hin Hclosed. rewrite notify_streams. apply deliver_notin.
  intros [c' [Heq [Hopen _]%list_elem_of_filter]]%list_elem_of_fmap.
  apply Hclosed. unfold open_in in *. by rewrite Heq.
Qed.

Lemma subscribe_same_array uid s l :
  connections s !! uid = Some l →
  connections (subscribe uid s).2 !! uid = Some l ∧
  deref (subscribe uid s).2 l = deref s l ++ [(subscribe uid s).1].
Proof.
  intros E. unfold subscribe, get_or_new. cbn [connections]. rewrite E. cbn.
  rewrite lookup_insert_eq. split; [done|]. unfold deref. cbn. by rewrite lookup_insert_eq.
Qed.

(** C4, amended. A [/notify] call issues every write in its first turn,
    before anything else is handled. A write to a closed or errored stream
    rejects at once and its connection is spliced out of the user's array
    before the call suspends: the array is then the array before without
    those connections, in the same order, and they were written nothing.
    Every other connection of the user has the frame
    [data: <json>] followed by an empty line queued on its stream, and its
    write is pending. The arrays of the other users are untouched. When a
    pending write rejects later, whatever was handled meanwhile, its
    [catch] block takes that connection, and no other, out of the array
    registered for the user then, and writes nothing. The [sent] count of
    the response is the length that the array has when the call resumes:
    the number of accepted writes if the call resumes at once, and in
    general the number of connections registered for the user then, as
    long as the Map still holds the array that the call read; a
    subscription of the user handled while the call awaits a pending
    write is counted, though it was sent nothing. *)
Theorem notify_write_failure_is_isolated (userId json : string) (s : State) :
  reachable s →
  let call := (notify_start userId json s).1 in
  let s1 := (notify_start userId json s).2 in
  let accepted := filter (open_in s) (registry s userId) in
  call_accepted call = accepted ∧
  registry s1 userId = accepted ∧
  (∀ c, c ∈ accepted →
     streams s1 !! writer c
     = Some (default [] (streams s !! writer c) ++ ["data: " +:+ json +:+ LF +:+ LF])) ∧
  (∀ c, c ∈ registry s userId → ¬ open_in s c →
     streams s1 !! writer c = streams s !! writer c) ∧
  (∀ u, u ≠ userId → registry s1 u = registry s u) ∧
  (∀ es conn,
     registry (write_rejected userId conn (run es s1)) userId
     = filter (λ x, x ≠ conn) (registry (run es s1) userId) ∧
     (∀ u, u ≠ userId →
        registry (write_rejected userId conn (run es s1)) u = registry (run es s1) u) ∧
     streams (write_rejected userId conn (run es s1)) = streams (run es s1)) ∧
  notify_resume call s1 = length accepted ∧
  (∀ es, connections (run es s1) !! userId = Some (call_connections call) →
         notify_resume call (run es s1) = length (registry (run es s1) userId)) ∧
  (accepted ≠ [] →
   notify_resume call (subscribe userId s1).2 = S (length accepted)).
Proof.
  intros Hwf%reachable_wf. cbn zeta.
  destruct (notify_start_call userId json s) as (_ & Hacc & Hloc).
  pose proof (wf_notify userId json s Hwf) as Hwf1.
  rewrite notify_start_state in *. split_and!.
  - done.
  - apply notify_registry_target.
  - intros c [Hopen Hin]%list_elem_of_filter. by apply notify_delivered.
  - intros c. by apply notify_rejected_untouched.
  - intros u. by apply notify_registry_other.
  - intros es conn. pose proof (wf_run es _ Hwf1) as Hwf2.
    destruct (write_rejected_registry userId conn _ Hwf2) as [H1 H2].
    by destruct (write_rejected_frame userId conn (run es (notify userId json s).2))
      as (_ & ? & _).
  - rewrite <-notify_start_state, notify_start_resume. apply notify_sent.
  - intros es Hsame. unfold notify_resume, registry. by rewrite Hsame.
  - intros Hsome. destruct (connections s !! userId) as [l|] eqn:Hl.
    2: { exfalso. apply Hsome. unfold registry. by rewrite Hl. }
    unfold notify_resume. rewrite (Hloc l eq_refl).
    destruct (notify_present userId json s l Hl) as (Hc & _ & _ & _ & _ & Hd & _).
    destruct (subscribe_same_array userId (notify userId json s).2 l) as [_ ->].
    { by rewrite Hc. }
    rewrite length_app, Hd. unfold registry. rewrite Hl. cbn. lia.
Qed.

(** C4, as stated, fails: alice has one connection; a notification for
    her starts and its one write is accepted; while the call awaits, a
    second subscription of alice is handled; the call then answers
    [sent: 2], though one frame was written and the new connection was
    sent nothing. *)
Lemma notify_write_failure_is_isolated_counterexample :
  let s := run [sub "alice"] init in
  let call := (notify_start "alice" "{}" s).1 in
  let s1 := (notify_start "alice" "{}" s).2 in
  let s2 := step (sub "alice") s1 in
  call_accepted call = [mkConn 0 "alice"] ∧
  streams s2 !! 0 = Some ["data: {}" +:+ LF +:+ LF] ∧
  streams s2 !! 1 = None ∧
  registry s2 "alice" = [mkConn 0 "alice"; mkConn 1 "alice"] ∧
  notify_resume call s2 = 2.
Proof. cbn zeta. split_and!; by vm_compute. Qed.

Lemma notify_write_failure_is_isolated_witness :
  reachable demo ∧
  registry demo "alice" = [mkConn 0 "alice"; mkConn 2 "alice"] ∧
  ¬ open_in demo (mkConn 0 "alice") ∧
  registry (notify_start "alice" "{}" demo).2 "alice" = [mkConn 2 "alice"] ∧
  streams (notify_start "alice" "{}" demo).2 !! 2 = Some ["data: {}" +:+ LF +:+ LF] ∧
  streams (notify_start "alice" "{}" demo).2 !! 0 = None ∧
  registry (notify_start "alice" "{}" demo).2 "bob" = registry demo "bob" ∧
  notify_resume (notify_start "alice" "{}" demo).1 (notify_start "alice" "{}" demo).2 = 1 ∧
  notify_resume (notify_start "alice" "{}" demo).1
                (subscribe "alice" (notify_start "alice" "{}" demo).2).2 = 2 ∧
  registry (write_rejected "alice" (mkConn 2 "alice")
              (run [EvStreamError 2] (notify_start "alice" "{}" demo).2)) "alice" = [].
Proof.
  assert (reachable demo) as Hr by (by eexists).
  pose proof (notify_write_failure_is_isolated "alice" "{}" demo Hr) as H.
  cbv zeta in H. destruct H as (_ & H1 & H2 & H3 & H4 & H5 & H6 & _ & H8).
  split; [exact Hr|]. split; [by vm_compute|]. split; [compute_done|].
  split; [rewrite H1; by vm_compute|].
  split; [etrans; [apply (H2 (mkConn 2 "alice")); compute_done | by vm_compute]|].
  split; [etrans; [apply (H3 (mkConn 0 "alice")); compute_done | by vm_compute]|].
  split; [by apply H4|]. split; [rewrite H6; by vm_compute|].
  split; [rewrite H8; by vm_compute|].
  destruct (H5 [EvStreamError 2] (mkConn 2 "alice")) as (-> & _). by vm_compute.
Defined.

(** C7. [notify(userA, payload)] appends the frame to the stream of every
    open writer registered under [userA]; the stream of any writer that is
    not registered under [userA] is left as it was, in particular that of
    every writer registered under another user; and the registries of all
    other users are unchanged. *)
Theorem notify_fanout_isolation (userA json : string) (s : State) :
  reachable s →
  (∀ c, c ∈ registry s userA → open_in s c →
     streams (notify userA json s).2 !! writer c
     = Some (default [] (streams s !! writer c) ++ [frame json])) ∧
  (∀ w, w ∉ writer <$> registry s userA →
     streams (notify userA json s).2 !! w = streams s !! w) ∧
  (∀ u c, u ≠ userA → c ∈ registry s u →
     streams (notify userA json s).2 !! writer c = streams s !! writer c) ∧
  (∀ u, u ≠ userA → registry (notify userA json s).2 u = registry s u).
Proof.
  intros Hwf%reachable_wf. split_and!.
  - intros c. by apply notify_delivered.
  - intros w. apply notify_untouched.
  - intros u c Hne Hin. apply notify_untouched.
    intros [c' [Heq Hin']]%list_elem_of_fmap.
    by eapply (registry_disjoint s u userA c c').
  - intros u. by apply notify_registry_other.
Qed.

Lemma notify_fanout_isolation_witness :
  reachable demo ∧
  registry demo "bob" = [mkConn 1 "bob"] ∧
  streams (notify "alice" "{}" demo).2 !! 2 = Some [frame "{}"] ∧
  streams (notify "alice" "{}" demo).2 !! 1 = streams demo !! 1 ∧
  registry (notify "alice" "{}" demo).2 "bob" = [mkConn 1 "bob"].
Proof.
  assert (reachable demo) as Hr by (by eexists).
  destruct (notify_fanout_isolation "alice" "{}" demo Hr) as (H1 & H2 & H3 & H4).
  split; [exact Hr|]. split; [by vm_compute|].
  split; [etrans; [apply (H1 (mkConn 2 "alice")); compute_done | by vm_compute]|].
  split; [apply (H3 "bob" (mkConn 1 "bob")); compute_done|].
  rewrite H4; by vm_compute.
Defined.

(** *** Subscribing and aborting *)

Lemma subscribe_registry uid s :
  wf s →
  (subscribe uid s).1 = mkConn (next_writer s) uid ∧
  registry (subscribe uid s).2 uid = registry s uid ++ [(subscribe uid s).1] ∧
  (∀ u, u ≠ uid → registry (subscribe uid s).2 u = registry s u) ∧
  streams (subscribe uid s).2 = streams s ∧
  errored (subscribe uid s).2 = errored s.
Proof.
  intros Hwf. unfold subscribe, get_or_new. cbn [connections].
  destruct (connections s !! uid) as [l|] eqn:E.
  - cbn [fst snd]. split_and!; try done.
    + unfold registry, deref. cbn. rewrite E. by rewrite !lookup_insert_eq.
    + intros u Hne. unfold registry, deref. cbn. rewrite lookup_insert_ne by done.
      destruct (connections s !! u) as [l'|] eqn:Eu; [|done].
      rewrite lookup_insert_ne; [done|]. intros ->. apply Hne. by eapply wf_inj.
  - cbn [fst snd]. split_and!; try done.
    + unfold registry, deref. cbn. rewrite E. by rewrite !lookup_insert_eq.
    + intros u Hne. unfold registry, deref. cbn. rewrite lookup_insert_ne by done.
      destruct (connections s !! u) as [l'|] eqn:Eu; [|done].
      pose proof (registry_fresh_loc s u l' Hwf Eu).
      by rewrite !lookup_insert_ne by done.
Qed.

Lemma on_abort_registry c s :
  wf s →
  registry (on_abort c s) (userId c) = filter (λ x, x ≠ c) (registry s (userId c)) ∧
  (∀ u, u ≠ userId c → registry (on_abort c s) u = registry s u) ∧
  (is_Some (connections (on_abort c s) !! userId c)
   ↔ registry (on_abort c s) (userId c) ≠ []) ∧
  streams (on_abort c s) = streams s ∧
  errored (on_abort c s) = {[writer c]} ∪ errored s.
Proof.
  intros Hwf.
  pose proof (NoDup_fmap_1 _ _ (registry_NoDup s (userId c) Hwf)) as Hnd.
  unfold on_abort, get_or_new.
  destruct (connections s !! userId c) as [l|] eqn:E.
  - pose proof (deref_splice_out c l s) as Hd.
    destruct (splice_out_frame c l s) as (Hc & Hst & He & _).
    assert (registry s (userId c) = deref s l) as Hreg by (unfold registry; by rewrite E).
    rewrite Hreg in Hnd |- *. rewrite <-(remove_first_filter c _ Hnd), <-Hd.
    destruct (decide (length (deref (splice_out c l s) l) = 0)) as [Hz|Hnz].
    + apply nil_length_inv in Hz. split_and!.
      * unfold registry. cbn. by rewrite lookup_delete_eq, Hz.
      * intros u Hne. unfold registry, deref. cbn. rewrite lookup_delete_ne by done.
        rewrite Hc. destruct (connections s !! u) as [l'|] eqn:Eu; [|done].
        rewrite heap_splice_out_ne; [done|]. intros ->. apply Hne. by eapply wf_inj.
      * unfold registry. cbn. rewrite lookup_delete_eq. split; [by intros [? ?]|done].
      * done.
      * cbn. by rewrite He.
    + split_and!.
      * unfold registry. cbn -[splice_out]. by rewrite Hc, E.
      * intros u Hne. unfold registry, deref. cbn -[splice_out].
        rewrite Hc. destruct (connections s !! u) as [l'|] eqn:Eu; [|done].
        rewrite heap_splice_out_ne; [done|]. intros ->. apply Hne. by eapply wf_inj.
      * unfold registry. cbn -[splice_out]. rewrite Hc, E.
        split; [|by eexists]. intros _ Hnil. apply Hnz.
        unfold deref in *. cbn -[splice_out] in Hnil. by rewrite Hnil.
      * done.
      * cbn -[splice_out]. by rewrite He.
  - assert (registry s (userId c) = []) as Hreg by (unfold registry; by rewrite E).
    rewrite Hreg. unfold splice_out, deref, indexOf. cbn.
    repeat (first [rewrite !lookup_insert_eq | progress cbn]).
    rewrite decide_True by done. split_and!; try done.
    + unfold registry. cbn. by rewrite lookup_delete_eq.
    + intros u Hne. unfold registry, deref. cbn. rewrite lookup_delete_ne by done.
      destruct (connections s !! u) as [l'|] eqn:Eu; [|done].
      pose proof (registry_fresh_loc s u l' Hwf Eu).
      by rewrite lookup_insert_ne.
    + unfold registry. cbn. rewrite lookup_delete_eq. split; [by intros [? ?]|done].
Qed.

(** *** What the streams hold *)

Lemma deliver_sse message ws st :
  sse_chunk message →
  (∀ w chunks chunk, st !! w = Some chunks → chunk ∈ chunks → sse_chunk chunk) →
  ∀ w chunks chunk,
    deliver message ws st !! w = Some chunks → chunk ∈ chunks → sse_chunk chunk.
Proof.
  intros Hm. revert st. induction ws as [|w0 ws IH]; intros st Hst; [done|].
  cbn. apply IH. intros w chunks chunk Hw Hin.
  destruct (decide (w = w0)) as [->|Hne].
  - rewrite lookup_insert_eq in Hw. simplify_eq.
    apply elem_of_app in Hin as [Hin|Hin%list_elem_of_singleton]; [|by subst].
    destruct (st !! w0) as [old|] eqn:E; cbn in Hin; [by eapply Hst|].
    by apply elem_of_nil in Hin.
  - rewrite lookup_insert_ne in Hw by done. by eapply Hst.
Qed.

Lemma step_sse e s :
  wf s →
  (∀ w chunks chunk, streams s !! w = Some chunks → chunk ∈ chunks → sse_chunk chunk) →
  ∀ w chunks chunk,
    streams (step e s) !! w = Some chunks → chunk ∈ chunks → sse_chunk chunk.
Proof.
  intros Hwf Hs. destruct e as [r|c|w0|w0|target conn]; cbn [step].
  5: { destruct (decide (writer conn ∈ errored s)); [|done].
       by destruct (write_rejected_frame target conn s) as (_ & -> & _). }
  - unfold fetch. destruct (query_userId r) as [uid|]; [|done].
    destruct (negb (truthy (Some uid))); [done|].
    destruct (String.eqb (pathname r) "/subscribe").
    { destruct (subscribe_registry uid s Hwf) as (_ & _ & _ & Hst & _).
      destruct (subscribe uid s). cbn in *. by rewrite Hst. }
    destruct (String.eqb (pathname r) "/notify" && String.eqb (method r) "POST"); [|done].
    pose proof (notify_streams (body_userId r) (body_data r) s) as Hst.
    destruct (notify (body_userId r) (body_data r) s). cbn in *. rewrite Hst.
    apply deliver_sse; [|done]. right. by eexists.
  - by destruct (on_abort_registry c s Hwf) as (_ & _ & _ & -> & _).
  - unfold keepalive, writer_write. destruct (decide (w0 ∈ errored s)); [done|]. cbn.
    apply (deliver_sse _ [w0]); [by left|done].
  - done.
Qed.


(** X1. A request to [/subscribe] with a non-empty [userId], whatever its
    method, answers with the event stream of a new connection, which is
    appended at the end of the user's array; the arrays of the other users,
    the streams and the closed writers are as before. *)
Theorem subscribe_appends_connection (r : Request) (uid : string) (s : State) :
  reachable s →
  query_userId r = Some uid → uid ≠ "" → pathname r = "/subscribe" →
  let c := mkConn (next_writer s) uid in
  (fetch r s).1 = EventStream c ∧
  registry (fetch r s).2 uid = registry s uid ++ [c] ∧
  (∀ u, u ≠ uid → registry (fetch r s).2 u = registry s u) ∧
  (∀ u, c ∉ registry s u) ∧
  streams (fetch r s).2 = streams s ∧
  errored (fetch r s).2 = errored s.
Proof.
  intros Hwf%reachable_wf Hq Hne Hp c. unfold fetch. rewrite Hq, Hp.
  assert (truthy (Some uid) = true) as ->.
  { cbn. apply negb_true_iff, String.eqb_neq. done. }
  cbn [negb]. rewrite String.eqb_refl.
  destruct (subscribe_registry uid s Hwf) as (Hc & Hreg & Hother & Hst & He).
  destruct (subscribe uid s) as [c' s']. cbn [fst snd] in *. subst c'.
  split_and!; try done.
  intros u Hin. unfold registry, deref in Hin.
  destruct (connections s !! u) as [l|]; [|by apply elem_of_nil in Hin].
  destruct (heap s !! l) as [cs|] eqn:El; [|by apply elem_of_nil in Hin].
  pose proof (wf_writer_fresh s Hwf l cs _ El Hin) as Hlt. cbn in Hlt. lia.
Qed.

Lemma subscribe_appends_connection_witness :
  (fetch (mkRequest (Some "alice") "/subscribe" "GET" "" "") demo).1
    = EventStream (mkConn 3 "alice") ∧
  registry (fetch (mkRequest (Some "alice") "/subscribe" "GET" "" "") demo).2 "alice"
    = [mkConn 0 "alice"; mkConn 2 "alice"; mkConn 3 "alice"].
Proof.
  assert (reachable demo) as Hr by (by eexists).
  destruct (subscribe_appends_connection
              (mkRequest (Some "alice") "/subscribe" "GET" "" "") "alice" demo
              Hr eq_refl ltac:(done) eq_refl) as (H1 & H2 & _).
  split; [exact H1|]. rewrite H2. by vm_compute.
Defined.

(** X2. When the request of a subscription is aborted, its connection leaves
    the user's array and no other connection does; the user's key is
    deleted from the registry exactly when the array is left empty; the
    writer is closed; other users' arrays and all streams are untouched. *)
Theorem abort_unregisters_connection (c : SSEConnection) (s : State) :
  reachable s →
  registry (on_abort c s) (userId c) = filter (λ x, x ≠ c) (registry s (userId c)) ∧
  (∀ u, u ≠ userId c → registry (on_abort c s) u = registry s u) ∧
  (is_Some (connections (on_abort c s) !! userId c)
   ↔ registry (on_abort c s) (userId c) ≠ []) ∧
  streams (on_abort c s) = streams s ∧
  writer c ∈ errored (on_abort c s).
Proof.
  intros Hwf%reachable_wf.
  destruct (on_abort_registry c s Hwf) as (H1 & H2 & H3 & H4 & H5).
  split_and!; try done. rewrite H5. apply elem_of_union. left. by apply elem_of_singleton.
Qed.

Lemma abort_unregisters_connection_witness :
  registry (on_abort (mkConn 1 "bob") demo) "bob" = [] ∧
  connections (on_abort (mkConn 1 "bob") demo) !! "bob" = None ∧
  registry (on_abort (mkConn 1 "bob") demo) "alice" = registry demo "alice".
Proof.
  assert (reachable demo) as Hr by (by eexists).
  destruct (abort_unregisters_connection (mkConn 1 "bob") demo Hr) as (H1 & H2 & H3 & _).
  split; [etrans; [exact H1 | by vm_compute]|]. split; [by vm_compute|].
  by apply (H2 "alice").
Defined.

(** X3. Subscribing and then aborting that subscription leaves every user's
    array as it was before the subscription. *)
Theorem subscribe_abort_round_trip (uid : string) (s : State) :
  reachable s →
  ∀ u, registry (on_abort (subscribe uid s).1 (subscribe uid s).2) u = registry s u.
Proof.
  intros Hwf%reachable_wf u.
  destruct (subscribe_registry uid s Hwf) as (Hc & Hreg & Hother & _).
  pose proof (wf_subscribe uid s Hwf) as Hwf'.
  destruct (on_abort_registry (subscribe uid s).1 (subscribe uid s).2 Hwf')
    as (H1 & H2 & _).
  assert (userId (subscribe uid s).1 = uid) as Hu by (by rewrite Hc).
  rewrite Hu in H1, H2.
  destruct (decide (u = uid)) as [->|Hne]; [|by rewrite H2, Hother].
  rewrite H1, Hreg, filter_app, filter_cons_False, filter_nil, app_nil_r
    by (intros Hn; by apply Hn).
  assert (∀ cs : list SSEConnection, (∀ x, x ∈ cs → x ≠ (subscribe uid s).1) →
            filter (λ x, x ≠ (subscribe uid s).1) cs = cs) as Hall.
  { clear. intros cs. induction cs as [|a cs IH]; intros Hcs; [done|].
    rewrite filter_cons_True by (apply Hcs; by left).
    f_equal. apply IH. intros x Hx. apply Hcs. by right. }
  apply Hall. intros x Hx ->. rewrite Hc in Hx.
  unfold registry, deref in Hx.
  destruct (connections s !! uid) as [l|]; [|by apply elem_of_nil in Hx].
  destruct (heap s !! l) as [cs|] eqn:El; [|by apply elem_of_nil in Hx].
  pose proof (wf_writer_fresh s Hwf l cs _ El Hx) as Hlt. cbn in Hlt. lia.
Qed.

Lemma subscribe_abort_round_trip_witness :
  registry (on_abort (subscribe "carol" demo).1 (subscribe "carol" demo).2) "carol" = [] ∧
  registry (on_abort (subscribe "alice" demo).1 (subscribe "alice" demo).2) "alice"
    = [mkConn 0 "alice"; mkConn 2 "alice"].
Proof.
  assert (reachable demo) as Hr by (by eexists).
  split.
  - rewrite (subscribe_abort_round_trip "carol" demo Hr "carol"). by vm_compute.
  - rewrite (subscribe_abort_round_trip "alice" demo Hr "alice"). by vm_compute.
Defined.

(** What a writer has accepted is never changed or taken back: later
    chunks come after it. *)
Lemma deliver_grows message ws st w :
  ∃ more, default [] (deliver message ws st !! w) = default [] (st !! w) ++ more.
Proof.
  revert st. induction ws as [|w0 ws IH]; intros st; [exists []; by rewrite app_nil_r|].
  unfold deliver. cbn [foldl].
  fold (deliver message ws (<[w0:=default [] (st !! w0) ++ [message]]> st)).
  destruct (IH (<[w0:=default [] (st !! w0) ++ [message]]> st)) as [more ->].
  destruct (decide (w = w0)) as [->|Hne].
  - rewrite lookup_insert_eq. cbn. rewrite <-app_assoc. by eexists.
  - rewrite lookup_insert_ne by done. by eexists.
Qed.

Lemma step_streams_grow e s w :
  wf s → ∃ more, default [] (streams (step e s) !! w) = default [] (streams s !! w) ++ more.
Proof.
  intros Hwf.
  assert (∃ more, default [] (streams s !! w) = default [] (streams s !! w) ++ more) as Hsame
    by (exists []; by rewrite app_nil_r).
  destruct e as [r|c|w0|w0|target conn]; cbn [step].
  - unfold fetch. destruct (query_userId r) as [uid|]; [|done].
    destruct (negb (truthy (Some uid))); [done|].
    destruct (String.eqb (pathname r) "/subscribe").
    { destruct (subscribe_registry uid s Hwf) as (_ & _ & _ & Hst & _).
      destruct (subscribe uid s). cbn in *. by rewrite Hst. }
    destruct (String.eqb (pathname r) "/notify" && String.eqb (method r) "POST"); [|done].
    pose proof (notify_streams (body_userId r) (body_data r) s) as Hst.
    destruct (notify (body_userId r) (body_data r) s). cbn in *. rewrite Hst.
    apply deliver_grows.
  - by destruct (on_abort_registry c s Hwf) as (_ & _ & _ & -> & _).
  - unfold keepalive, writer_write. destruct (decide (w0 ∈ errored s)); [done|]. cbn.
    apply (deliver_grows _ [w0]).
  - done.
  - destruct (decide (writer conn ∈ errored s)); [|done].
    by destruct (write_rejected_frame target conn s) as (_ & -> & _).
Qed.

Lemma run_streams_grow es s w :
  wf s → ∃ more, default [] (streams (run es s) !! w) = default [] (streams s !! w) ++ more.
Proof.
  revert s. induction es as [|e es IH]; intros s Hwf.
  - exists []. by rewrite app_nil_r.
  - change (run (e :: es) s) with (run es (step e s)).
    destruct (IH (step e s) (wf_step e s Hwf)) as [more2 ->].
    destruct (step_streams_grow e s w Hwf) as [more1 ->].
    exists (more1 ++ more2). by rewrite app_assoc.
Qed.

(** X4. Frames are queued in the order in which the calls start. When a
    notification of a user starts, and a second one starts after any
    events handled in between, a connection of the user that was
    registered and open at both starts holds the frame of the first call
    before the frame of the second: its stream is what it was, then the
    first frame, then whatever was written in between, then the second
    frame. With nothing handled in between, the two frames are adjacent. *)
Theorem notify_twice_in_order (target json1 json2 : string) (s : State)
    (es : list Event) (c : SSEConnection) :
  reachable s →
  let s1 := (notify_start target json1 s).2 in
  let s2 := run es s1 in
  let s3 := (notify_start target json2 s2).2 in
  c ∈ registry s target → open_in s c →
  c ∈ registry s2 target → open_in s2 c →
  ∃ between,
    streams s3 !! writer c
    = Some (default [] (streams s !! writer c)
            ++ ["data: " +:+ json1 +:+ LF +:+ LF] ++ between
            ++ ["data: " +:+ json2 +:+ LF +:+ LF]) ∧
    (es = [] → between = []).
Proof.
  intros Hwf%reachable_wf. cbn zeta. rewrite !notify_start_state.
  intros Hin Hopen Hin2 Hopen2.
  pose proof (wf_notify target json1 s Hwf) as Hwf1.
  pose proof (wf_run es _ Hwf1) as Hwf2.
  destruct (run_streams_grow es (notify target json1 s).2 (writer c) Hwf1) as [between Hgrow].
  assert (default [] (streams (notify target json1 s).2 !! writer c)
          = default [] (streams s !! writer c) ++ [frame json1]) as Hfirst
    by (by rewrite notify_delivered).
  rewrite Hfirst in Hgrow. exists between. split.
  - rewrite (notify_delivered target json2 _ c Hwf2 Hin2 Hopen2), Hgrow.
    unfold frame. by rewrite <-!app_assoc.
  - intros ->. change (run [] ?x) with x in Hgrow. rewrite Hfirst in Hgrow.
    apply (f_equal length) in Hgrow. rewrite !length_app in Hgrow.
    apply nil_length_inv. lia.
Qed.

Lemma notify_twice_in_order_witness :
  streams (notify_start "alice" "2"
             (run [EvKeepalive 2] (notify_start "alice" "1" demo).2)).2 !! 2
  = Some ["data: 1" +:+ LF +:+ LF; ": keepalive" +:+ LF +:+ LF; "data: 2" +:+ LF +:+ LF].
Proof.
  assert (reachable demo) as Hr by (by eexists).
  destruct (notify_twice_in_order "alice" "1" "2" demo [EvKeepalive 2] (mkConn 2 "alice") Hr)
    as (between & H & _); [compute_done..|].
  by vm_compute.
Defined.

(** X5. Every chunk that the object has written to a stream is a complete
    server-sent event: the keepalive comment [: keepalive] or a line
    [data: <json>], each followed by an empty line. *)
Theorem streams_hold_sse_frames (s : State) (w : nat) (chunks : list string)
    (chunk : string) :
  reachable s → streams s !! w = Some chunks → chunk ∈ chunks →
  chunk = ": keepalive" +:+ LF +:+ LF ∨ ∃ json, chunk = "data: " +:+ json +:+ LF +:+ LF.
Proof.
  intros [es ->]. revert w chunks chunk.
  change (∀ w chunks chunk, streams (run es init) !! w = Some chunks → chunk ∈ chunks
                            → sse_chunk chunk).
  unfold run. induction es as [|e es IH] using rev_ind; [done|].
  rewrite foldl_app. cbn [foldl]. apply step_sse; [|done].
  apply reachable_wf. by exists es.
Qed.

Lemma streams_hold_sse_frames_witness :
  let s := run [sub "alice"; EvKeepalive 0;
                EvFetch (mkRequest (Some "x") "/notify" "POST" "alice" "{}")] init in
  streams s !! 0 = Some [": keepalive" +:+ LF +:+ LF; "data: {}" +:+ LF +:+ LF] ∧
  ("data: {}" +:+ LF +:+ LF = ": keepalive" +:+ LF +:+ LF
   ∨ ∃ json, "data: {}" +:+ LF +:+ LF = "data: " +:+ json +:+ LF +:+ LF).
Proof.
  intros s. split; [by vm_compute|].
  apply (streams_hold_sse_frames s 0 [": keepalive" +:+ LF +:+ LF; "data: {}" +:+ LF +:+ LF]
           ("data: {}" +:+ LF +:+ LF)).
  - by eexists.
  - by vm_compute.
  - right. by left.
Defined.

End NotificationManager.

(** ** CollaborativeItinerary *)

Module CollaborativeItinerary.

(** *** Documents *)

(** A JavaScript object with string keys, in insertion order. *)
Abbreviation obj V := (list (string * V)) (only parsing).

(** [o[k] = v] *)
Definition obj_set {V} (k : string) (v : V) (o : obj V) : obj V := assoc_set k v o.

(** [{ ...a, ...b }] *)
Definition obj_spread {V} (a b : obj V) : obj V :=
  foldl (λ acc kv, obj_set kv.1 kv.2 acc) a b.

Inductive Vote := up | down | neutral.

#[global] Instance Vote_eq_dec : EqDecision Vote.
Proof. solve_decision. Defined.

(** [interface Activity] of types.ts: the [id], the [votes] record that
    [handleVote] attaches, and the remaining fields by name. *)
Record Activity := mkActivity {
  id : string;
  fields : obj string;
  votes : option (obj Vote)
}.

(** The [updates] of an [activity-update]: a partial activity. *)
Record ActivityUpdates := mkActivityUpdates {
  upd_id : option string;
  upd_fields : obj string;
  upd_votes : option (obj Vote)
}.

(** [{ ...activity, ...updates }] *)
Definition spread_activity (a : Activity) (u : ActivityUpdates) : Activity :=
  mkActivity (default (id a) (upd_id u))
             (obj_spread (fields a) (upd_fields u))
             (match upd_votes u with Some v => Some v | None => votes a end).

Record Day := mkDay {
  date : string;
  dayNumber : Z;
  activities : list Activity
}.

(** [interface ItineraryData]: the [days] array, which may be missing, and
    the other top-level fields by name. *)
Record ItineraryData := mkItinerary {
  meta : obj string;
  days : option (list Day)
}.

(** The [data] of an [itinerary-update]: a partial document. *)
Record ItineraryUpdates := mkItineraryUpdates {
  upd_meta : obj string;
  upd_days : option (list Day)
}.

(** [{ ...this.itineraryData, ...data }] *)
Definition spread_itinerary (doc : ItineraryData) (u : ItineraryUpdates) : ItineraryData :=
  mkItinerary (obj_spread (meta doc) (upd_meta u))
              (match upd_days u with Some ds => Some ds | None => days doc end).

#[global] Instance Activity_eq_dec : EqDecision Activity.
Proof. solve_decision. Defined.
#[global] Instance Day_eq_dec : EqDecision Day.
Proof. solve_decision. Defined.
#[global] Instance ItineraryData_eq_dec : EqDecision ItineraryData.
Proof. solve_decision. Defined.

(** *** The four edits, on the document *)

Definition push_activity (activity : Activity) (d : Day) : Day :=
  mkDay (date d) (dayNumber d) (activities d ++ [activity]).

(** [addActivity(data)] with [data = { dayNumber, activity }] *)
Definition addActivity (dayNumber' : Z) (activity : Activity)
    (itineraryData : option ItineraryData) : option ItineraryData :=
  match itineraryData with
  | None => None
  | Some doc =>
      match days doc with
      | None => Some doc
      | Some ds =>
          match list_find (λ d, dayNumber d = dayNumber') ds with
          | Some (i, day) => Some (mkItinerary (meta doc) (Some (<[i := push_activity activity day]> ds)))
          | None => Some doc
          end
      end
  end.

(** The loop of [updateActivity]: the first day holding the activity is
    changed and the loop breaks. *)
Fixpoint updateActivity_days (activityId : string) (updates : ActivityUpdates)
    (ds : list Day) : list Day :=
  match ds with
  | [] => []
  | day :: rest =>
      match list_find (λ a, id a = activityId) (activities day) with
      | Some (activityIndex, a) =>
          mkDay (date day) (dayNumber day)
                (<[activityIndex := spread_activity a updates]> (activities day)) :: rest
      | None => day :: updateActivity_days activityId updates rest
      end
  end.

Definition updateActivity (activityId : string) (updates : ActivityUpdates)
    (itineraryData : option ItineraryData) : option ItineraryData :=
  match itineraryData with
  | None => None
  | Some doc =>
      match days doc with
      | None => Some doc
      | Some ds => Some (mkItinerary (meta doc) (Some (updateActivity_days activityId updates ds)))
      end
  end.

Fixpoint deleteActivity_days (activityId : string) (ds : list Day) : list Day :=
  match ds with
  | [] => []
  | day :: rest =>
      match list_find (λ a, id a = activityId) (activities day) with
      | Some (activityIndex, _) =>
          mkDay (date day) (dayNumber day) (delete activityIndex (activities day)) :: rest
      | None => day :: deleteActivity_days activityId rest
      end
  end.

Definition deleteActivity (activityId : string)
    (itineraryData : option ItineraryData) : option ItineraryData :=
  match itineraryData with
  | None => None
  | Some doc =>
      match days doc with
      | None => Some doc
      | Some ds => Some (mkItinerary (meta doc) (Some (deleteActivity_days activityId ds)))
      end
  end.

Definition updateItinerary (data : ItineraryUpdates)
    (itineraryData : option ItineraryData) : option ItineraryData :=
  match itineraryData with
  | None => None
  | Some doc => Some (spread_itinerary doc data)
  end.

(** [EditAction]: the [type] tag and its [data] as one variant. A tag
    outside the four falls through the [switch]. *)
Inductive EditData :=
| activity_add (dayNumber : Z) (activity : Activity)
| activity_update (activityId : string) (updates : ActivityUpdates)
| activity_delete (activityId : string)
| itinerary_update (data : ItineraryUpdates)
| unknown_edit (type : string).

Record EditAction := mkAction {
  data : EditData;
  userId : string;
  timestamp : Z
}.

(** The [switch (action.type)] of [handleEdit]. *)
Definition applyEdit (d : EditData) (itineraryData : option ItineraryData)
    : option ItineraryData :=
  match d with
  | activity_add n a => addActivity n a itineraryData
  | activity_update aid u => updateActivity aid u itineraryData
  | activity_delete aid => deleteActivity aid itineraryData
  | itinerary_update u => updateItinerary u itineraryData
  | unknown_edit _ => itineraryData
  end.

(** *** The actor *)

Definition WebSocket := nat.

Record User := mkUser {
  user_id : string;
  user_name : string;
  user_email : string;
  user_color : string
}.

Record Cursor := mkCursor { cursor_activityId : string; cursor_dayNumber : Z }.

Record CollaboratorPresence := mkPresence {
  presence_userId : string;
  presence_userName : string;
  presence_color : string;
  lastSeen : Z;
  cursor : option Cursor
}.

Record VoteTotals := mkTotals { total_up : nat; total_down : nat; total_neutral : nat }.

(** The [{ id, name, color }] sent along with edits and chat messages. *)
Record Sender := mkSender { sender_id : string; sender_name : string; sender_color : string }.

Definition sender_of (user : User) : Sender :=
  mkSender (user_id user) (user_name user) (user_color user).

(** Actor-to-client messages, by their [type]. *)
Inductive ServerMessage :=
| init_message (itinerary : option ItineraryData) (user : User)
               (collaborators : list CollaboratorPresence)
| user_joined (userId userName color : string)
| user_left (userId : string)
| edit_message (action : EditAction) (user : Sender)
| cursor_update (userId : string) (cursor : option Cursor)
| typing_message (userId userName activityId : string)
| vote_update (activityId userId : string) (vote : Vote) (totalVotes : VoteTotals)
| chat_message (user : Sender) (text : string) (timestamp : Z).

(** Client-to-actor messages, by their [type]. *)
Inductive ClientMessage :=
| edit (action : EditAction)
| cursor_move (cursor : option Cursor)
| typing (activityId : string)
| vote (activityId : string) (v : Vote)
| chat (text : string)
| unknown_message.

(** What a handler does to the outside. *)
Inductive Effect :=
| storage_put (value : option ItineraryData)   (* ctx.storage.put("itineraryData", value) *)
| ws_send (ws : WebSocket) (m : ServerMessage)
| console_error (what : string).

Inductive Exception := StorageError | SendError | SyntaxError.

(** What the platform decides while one event is handled. *)
Record Env := mkEnv {
  Date_now : Z;
  Math_random : nat;               (* Math.floor(Math.random() * colors.length) *)
  put_ok : bool;                   (* does ctx.storage.put resolve *)
  is_open : WebSocket → bool;      (* ws.readyState === WebSocket.OPEN *)
  send_ok : WebSocket → bool       (* does ws.send return *)
}.

(** The fields of the object and its durable value. [editHistory] lists
    the actions as they were when they were pushed. In the code an action
    keeps references into the document: the [activity] of an
    [activity-add] is the object that [addActivity] pushes into the day,
    and the values of an [itinerary-update] are those that the document
    then holds, so a later vote or edit shows in an action that the array
    already holds. The object graph is not modelled. The actor only pushes
    to this array and slices it (lines 323-326); it never reads an action
    back, so no message it sends and nothing it stores depends on the
    payload of a kept action. *)
Record State := mkState {
  sessions : list (WebSocket * User);
  itineraryData : option ItineraryData;
  collaborators : list (string * CollaboratorPresence);
  editHistory : list EditAction;
  storage : option (option ItineraryData)   (* the durable value under "itineraryData" *)
}.

(** A new object: nothing in memory; the constructor then loads [storage]. *)
Definition constructor (stored : option (option ItineraryData)) : State :=
  mkState [] (match stored with Some (Some doc) => Some doc | _ => None end) [] [] stored.

Abbreviation Handler := (M State Effect Exception).

Definition set_sessions (f : list (WebSocket * User) → list (WebSocket * User)) (s : State) :=
  mkState (f (sessions s)) (itineraryData s) (collaborators s) (editHistory s) (storage s).
Definition set_itineraryData (f : option ItineraryData → option ItineraryData) (s : State) :=
  mkState (sessions s) (f (itineraryData s)) (collaborators s) (editHistory s) (storage s).
Definition set_collaborators
    (f : list (string * CollaboratorPresence) → list (string * CollaboratorPresence))
    (s : State) :=
  mkState (sessions s) (itineraryData s) (f (collaborators s)) (editHistory s) (storage s).
Definition set_editHistory (f : list EditAction → list EditAction) (s : State) :=
  mkState (sessions s) (itineraryData s) (collaborators s) (f (editHistory s)) (storage s).
Definition set_storage (v : option (option ItineraryData)) (s : State) :=
  mkState (sessions s) (itineraryData s) (collaborators s) (editHistory s) v.

(** [await this.ctx.storage.put("itineraryData", value)] *)
Definition ctx_storage_put (env : Env) (value : option ItineraryData) : Handler unit :=
  if put_ok env then modify (set_storage (Some value));; emit (storage_put value)
  else throw StorageError.

(** [ws.send(data)] *)
Definition send (env : Env) (ws : WebSocket) (m : ServerMessage) : Handler unit :=
  if send_ok env ws then emit (ws_send ws m) else throw SendError.

(** The [for (const [ws, user] of this.sessions)] of [broadcast]. Deleting
    the entry being visited does not disturb the iteration. *)
Fixpoint broadcast_loop (env : Env) (message : ServerMessage) (exclude : option WebSocket)
    (entries : list (WebSocket * User)) : Handler unit :=
  match entries with
  | [] => ret tt
  | (ws, _) :: rest =>
      (if bool_decide (Some ws ≠ exclude) && is_open env ws then
         try_catch (send env ws message)
           (λ _, emit (console_error "Error broadcasting message");;
                 modify (set_sessions (assoc_delete ws)))
       else ret tt);;
      broadcast_loop env message exclude rest
  end.

Definition broadcast (env : Env) (message : ServerMessage) (exclude : option WebSocket)
    : Handler unit :=
  s ← get; broadcast_loop env message exclude (sessions s).

(** [this.editHistory.push(action)] and the cut to the last 100. *)
Definition push_history (action : EditAction) (h : list EditAction) : list EditAction :=
  let h' := h ++ [action] in
  if decide (100 < length h') then drop (length h' - 100) h' else h'.

(** [action.userId = user.id; action.timestamp = Date.now()] *)
Definition stamp (env : Env) (user : User) (action : EditAction) : EditAction :=
  mkAction (data action) (user_id user) (Date_now env).

Definition handleEdit (env : Env) (user : User) (action : EditAction) : Handler unit :=
  let action := stamp env user action in
  modify (set_itineraryData (applyEdit (data action)));;
  s ← get;
  ctx_storage_put env (itineraryData s);;
  modify (set_editHistory (push_history action));;
  broadcast env (edit_message action (sender_of user)) None.

Definition handleCursorUpdate (env : Env) (user : User) (c : option Cursor) : Handler unit :=
  s ← get;
  match assoc_get (user_id user) (collaborators s) with
  | Some presence =>
      modify (set_collaborators
        (assoc_set (user_id user)
           (mkPresence (presence_userId presence) (presence_userName presence)
                       (presence_color presence) (Date_now env) c)))
  | None => ret tt
  end;;
  broadcast env (cursor_update (user_id user) c) None.

Definition handleTypingIndicator (env : Env) (user : User) (activityId : string)
    : Handler unit :=
  broadcast env (typing_message (user_id user) (user_name user) activityId) None.

(** [Object.values(votes).reduce(...)] *)
Definition calculateVotes (vs : obj Vote) : VoteTotals :=
  foldl (λ acc kv,
           match kv.2 with
           | up => mkTotals (S (total_up acc)) (total_down acc) (total_neutral acc)
           | down => mkTotals (total_up acc) (S (total_down acc)) (total_neutral acc)
           | neutral => mkTotals (total_up acc) (total_down acc) (S (total_neutral acc))
           end)
        (mkTotals 0 0 0) vs.

(** The loop of [handleVote] over the days: the first day holding the
    activity gets the vote recorded, in place, on the activity that [find]
    returns; the record of votes after it is returned for the broadcast.
    The activity is changed where the document holds it; that an action of
    the history may hold the same object is outside the model (see
    [State]). User ids are taken as ordinary property names: for the id
    [__proto__] the assignment [votes[user.id] = vote] creates no key. *)
Fixpoint vote_days (uid activityId : string) (v : Vote) (ds : list Day)
    : option (list Day * obj Vote) :=
  match ds with
  | [] => None
  | day :: rest =>
      match list_find (λ a, id a = activityId) (activities day) with
      | Some (i, activity) =>
          let votes' := obj_set uid v (default [] (votes activity)) in
          Some (mkDay (date day) (dayNumber day)
                      (<[i := mkActivity (id activity) (fields activity) (Some votes')]>
                         (activities day)) :: rest,
                votes')
      | None =>
          match vote_days uid activityId v rest with
          | Some (rest', votes') => Some (day :: rest', votes')
          | None => None
          end
      end
  end.

Definition handleVote (env : Env) (user : User) (activityId : string) (v : Vote)
    : Handler unit :=
  s ← get;
  match itineraryData s with
  | None => ret tt
  | Some doc =>
      match days doc with
      | None => ret tt
      | Some ds =>
          match vote_days (user_id user) activityId v ds with
          | Some (ds', votes') =>
              modify (set_itineraryData (λ _, Some (mkItinerary (meta doc) (Some ds'))));;
              broadcast env
                (vote_update activityId (user_id user) v (calculateVotes votes')) None
          | None => ret tt
          end
      end
  end.

Definition handleChat (env : Env) (user : User) (text : string) : Handler unit :=
  broadcast env (chat_message (sender_of user) text (Date_now env)) None.

Definition handleMessage (env : Env) (ws : WebSocket) (message : ClientMessage)
    : Handler unit :=
  s ← get;
  match assoc_get ws (sessions s) with
  | None => ret tt
  | Some user =>
      match message with
      | edit action => handleEdit env user action
      | cursor_move c => handleCursorUpdate env user c
      | typing activityId => handleTypingIndicator env user activityId
      | vote activityId v => handleVote env user activityId v
      | chat text => handleChat env user text
      | unknown_message => ret tt
      end
  end.

(** [webSocketMessage]: [None] is a frame that [JSON.parse] rejects. *)
Definition webSocketMessage (env : Env) (ws : WebSocket) (message : option ClientMessage)
    : Handler unit :=
  try_catch
    (match message with
     | Some m => handleMessage env ws m
     | None => throw SyntaxError
     end)
    (λ _, emit (console_error "Error handling WebSocket message")).

Definition handleDisconnect (env : Env) (ws : WebSocket) : Handler unit :=
  s ← get;
  match assoc_get ws (sessions s) with
  | Some user =>
      modify (set_sessions (assoc_delete ws));;
      modify (set_collaborators (assoc_delete (user_id user)));;
      broadcast env (user_left (user_id user)) None
  | None => ret tt
  end.

Definition colors : list string :=
  ["#3B82F6"; "#10B981"; "#F59E0B"; "#EF4444"; "#8B5CF6"; "#EC4899"; "#14B8A6"; "#F97316"].

Definition generateUserColor (env : Env) : string :=
  default "" (colors !! (Math_random env `mod` length colors)).

(** [handleSession]; [generated] is the id made up when the request names none. *)
Definition handleSession (env : Env) (ws : WebSocket)
    (userId userName userEmail : option string) (generated : string) : Handler unit :=
  let userId := if truthy userId then default "" userId else generated in
  let userName := if truthy userName then default "" userName else "Anonymous" in
  let userEmail := if truthy userEmail then default "" userEmail else "" in
  let color := generateUserColor env in
  let user := mkUser userId userName userEmail color in
  modify (set_sessions (assoc_set ws user));;
  modify (set_collaborators
            (assoc_set userId (mkPresence userId userName color (Date_now env) None)));;
  s ← get;
  send env ws (init_message (itineraryData s) user (snd <$> collaborators s));;
  broadcast env (user_joined userId userName color) (Some ws).

(** [POST .../create] *)
Definition create (env : Env) (itinerary : ItineraryData) : Handler unit :=
  modify (set_itineraryData (λ _, Some itinerary));;
  ctx_storage_put env (Some itinerary).

(** The events the object handles, one at a time. *)
Inductive Event :=
| Upgrade (ws : WebSocket) (userId userName userEmail : option string) (generated : string)
| GetState
| Create (itinerary : ItineraryData)
| Message (ws : WebSocket) (message : option ClientMessage)
| Close (ws : WebSocket).

Definition handle (env : Env) (e : Event) : Handler unit :=
  match e with
  | Upgrade ws u n m g => handleSession env ws u n m g
  | GetState => ret tt
  | Create itinerary => create env itinerary
  | Message ws m => webSocketMessage env ws m
  | Close ws => handleDisconnect env ws
  end.

(** Run a sequence of events, each in its own environment; the trace is the
    concatenation of the traces. *)
Fixpoint run (es : list (Env * Event)) (s : State) : State * list Effect :=
  match es with
  | [] => (s, [])
  | (env, e) :: rest =>
      let r := handle env e s in
      let r' := run rest (state_of r) in
      (r'.1, trace_of r ++ r'.2)
  end.

(** The order of steps that the written description of [edit] gives:
    history before the durable write. *)
Definition handleEdit_history_first (env : Env) (user : User) (action : EditAction)
    : Handler unit :=
  let action := stamp env user action in
  modify (set_itineraryData (applyEdit (data action)));;
  modify (set_editHistory (push_history action));;
  s ← get;
  ctx_storage_put env (itineraryData s);;
  broadcast env (edit_message action (sender_of user)) None.

(** *** Broadcast *)

(** Is [ws] a socket that [broadcast] tries to send to? *)
Definition targeted (env : Env) (exclude : option WebSocket) (ws : WebSocket) : bool :=
  bool_decide (Some ws ≠ exclude) && is_open env ws.

(** The effects of a broadcast over [entries], in order. *)
Definition broadcast_trace (env : Env) (message : ServerMessage)
    (exclude : option WebSocket) (entries : list (WebSocket * User)) : list Effect :=
  entries ≫= λ e,
    if targeted env exclude e.1 then
      if send_ok env e.1 then [ws_send e.1 message]
      else [console_error "Error broadcasting message"]
    else [].

(** The sessions a broadcast over [entries] leaves. *)
Definition broadcast_prune (env : Env) (exclude : option WebSocket)
    (entries : list (WebSocket * User)) (ss : list (WebSocket * User))
    : list (WebSocket * User) :=
  foldl (λ ss e, if targeted env exclude e.1 && negb (send_ok env e.1)
                 then assoc_delete e.1 ss else ss) ss entries.

(** What [handleMessage] does for a known sender. *)
Definition handleMessage_user (env : Env) (user : User) (message : ClientMessage)
    : Handler unit :=
  match message with
  | edit action => handleEdit env user action
  | cursor_move c => handleCursorUpdate env user c
  | typing activityId => handleTypingIndicator env user activityId
  | vote activityId v => handleVote env user activityId v
  | chat text => handleChat env user text
  | unknown_message => mret tt
  end.

(** An input on which the durable write fails. *)
Definition env_put_fails : Env := mkEnv 1000 0 false (λ _, true) (λ _, true).
Definition env_ok : Env := mkEnv 1000 0 true (λ _, true) (λ _, true).
Definition alice : User := mkUser "alice" "Alice" "alice@example.org" "#3B82F6".
Definition bob : User := mkUser "bob" "Bob" "bob@example.org" "#10B981".
Definition museum : Activity := mkActivity "a1" [("title", "Museum")] None.
Definition trip : ItineraryData :=
  mkItinerary [("title", "Lisbon")] (Some [mkDay "2025-03-15" 1 []; mkDay "2025-03-16" 2 []]).
Definition trip1 : State :=
  mkState [(1, alice); (2, bob)] (Some trip) [] [] (Some (Some trip)).
Definition add_museum : EditAction := mkAction (activity_add 1 museum) "" 0.

(** Applying a sequence of edits, step by step, to a document. *)
Definition edit_fold (edits : list EditData) (doc : option ItineraryData)
    : option ItineraryData :=
  foldl (λ doc d, applyEdit d doc) doc edits.

(** Handling a sequence of [edit] messages, each with its sender and in
    its own environment (clock, storage and socket behaviour). *)
Fixpoint run_edits (es : list (Env * User * EditAction)) (s : State) : State :=
  match es with
  | [] => s
  | (env, user, action) :: rest => run_edits rest (state_of (handleEdit env user action s))
  end.

Definition rename_trip : EditAction :=
  mkAction (itinerary_update (mkItineraryUpdates [("title", "Porto")] None)) "" 0.
Definition drop_museum : EditAction := mkAction (activity_delete "a1") "x" 7.

(** The activity that [handleVote] finds: the first with the id, days in order. *)
Fixpoint find_activity (activityId : string) (ds : list Day) : option Activity :=
  match ds with
  | [] => None
  | day :: rest =>
      match list_find (λ a, id a = activityId) (activities day) with
      | Some (_, a) => Some a
      | None => find_activity activityId rest
      end
  end.

(** Events that write the document to durable storage. *)
Definition persists (e : Event) : bool :=
  match e with
  | Create _ => true
  | Message _ (Some (edit _)) => true
  | _ => false
  end.

(** Handlers that leave durable storage alone. *)
Definition quiet {A} (m : Handler A) : Prop :=
  ∀ s, storage (state_of (m s)) = storage s ∧ ∀ d, storage_put d ∉ trace_of (m s).

(** [edit] messages. *)
Definition is_edit (e : Event) : bool :=
  match e with
  | Message _ (Some (edit _)) => true
  | _ => false
  end.

(** The session of [trip1] after the museum was added to day 1 and persisted. *)
Definition trip_with_museum : ItineraryData :=
  mkItinerary [("title", "Lisbon")]
              (Some [mkDay "2025-03-15" 1 [museum]; mkDay "2025-03-16" 2 []]).
Definition trip2 : State :=
  mkState [(1, alice); (2, bob)] (Some trip_with_museum) [] []
          (Some (Some trip_with_museum)).
Definition two_votes : list (Env * Event) :=
  [(env_ok, Message 1 (Some (vote "a1" up))); (env_ok, Message 2 (Some (vote "a1" down)))].

(** A document in which the id [a2] occurs twice, first in the second day. *)
Definition trip_with_duplicate : ItineraryData :=
  mkItinerary [("title", "Lisbon")]
    (Some [mkDay "2025-03-15" 1 [museum];
           mkDay "2025-03-16" 2 [mkActivity "a3" [("title", "Tram")] None;
                                 mkActivity "a2" [("title", "Castle")] None];
           mkDay "2025-03-17" 3 [mkActivity "a2" [("title", "Beach")] None]]).
Definition trip3 : State :=
  mkState [(1, alice); (2, bob)] (Some trip_with_duplicate) [] [add_museum]
          (Some (Some trip_with_duplicate)).

(** *** Definitions used to state further properties *)

(** The user that [handleSession] makes of the parameters of a request. *)
Definition session_user (env : Env) (userId userName userEmail : option string)
    (generated : string) : User :=
  mkUser (if truthy userId then default "" userId else generated)
         (if truthy userName then default "" userName else "Anonymous")
         (if truthy userEmail then default "" userEmail else "")
         (generateUserColor env).

(** Events that can change the document: [create], [edit] and [vote]. *)
Definition touches_document (e : Event) : bool :=
  match e with
  | Create _ => true
  | Message _ (Some (edit _)) => true
  | Message _ (Some (vote _ _)) => true
  | _ => false
  end.

(** *** [fetch] *)

Record Request := mkRequest {
  upgrade : option string;            (* the Upgrade header *)
  method : string;
  pathname : string;
  query_userId : option string;
  query_userName : option string;
  query_userEmail : option string;
  body_itinerary : ItineraryData      (* the [itinerary] of the JSON body *)
}.

Inductive Response :=
| SwitchingProtocols                  (* 101, with the client side of the pair *)
| StateJson (itinerary : option ItineraryData)
            (collaborators : list CollaboratorPresence) (activeUsers : nat)
| Created (itineraryId : option string)
| NotFound.                           (* 404 *)

(** [fetch]; [server] is the server side of the new socket pair and
    [generated] the id made up for a request that names no user. *)
Definition fetch (env : Env) (server : WebSocket) (generated : string) (r : Request)
    : Handler Response :=
  if bool_decide (upgrade r = Some "websocket") then
    handleSession env server (query_userId r) (query_userName r) (query_userEmail r)
                  generated;;
    mret SwitchingProtocols
  else if String.eqb (method r) "GET" && endsWith "/state" (pathname r) then
    s ← get;
    mret (StateJson (itineraryData s) (snd <$> collaborators s) (length (sessions s)))
  else if String.eqb (method r) "POST" && endsWith "/create" (pathname r) then
    create env (body_itinerary r);;
    mret (Created (assoc_get "id" (meta (body_itinerary r))))
  else mret NotFound.

Lemma broadcast_loop_spec env message exclude entries s :
  broadcast_loop env message exclude entries s
  = (set_sessions (broadcast_prune env exclude entries) s,
     broadcast_trace env message exclude entries, inr tt).
Proof.
  revert s. induction entries as [|[ws u] rest IH]; intros s.
  - by destruct s.
  - cbn [broadcast_loop]. unfold_handler. unfold broadcast_trace, broadcast_prune, send.
    cbn [foldl mbind list_bind fst]. fold (targeted env exclude ws).
    destruct (targeted env exclude ws); cbn [andb].
    + unfold_handler. destruct (send_ok env ws); cbn [negb].
      * rewrite IH. done.
      * rewrite IH. by destruct s.
    + unfold_handler. rewrite IH. done.
Qed.

Lemma broadcast_spec env message exclude s :
  broadcast env message exclude s
  = (set_sessions (broadcast_prune env exclude (sessions s)) s,
     broadcast_trace env message exclude (sessions s), inr tt).
Proof.
  unfold broadcast. unfold_handler. by rewrite broadcast_loop_spec.
Qed.

Lemma broadcast_prune_all_ok env exclude entries ss :
  (∀ ws, send_ok env ws = true) → broadcast_prune env exclude entries ss = ss.
Proof.
  intros Hok. revert ss. induction entries as [|e rest IH]; intros ss; [done|].
  unfold broadcast_prune in *. cbn. rewrite Hok, andb_false_r. apply IH.
Qed.

(** Every open session whose [send] returns gets the message. *)
Lemma broadcast_trace_reaches env message entries ws u :
  (ws, u) ∈ entries → is_open env ws = true → send_ok env ws = true →
  ws_send ws message ∈ broadcast_trace env message None entries.
Proof.
  intros Hin Hopen Hok. unfold broadcast_trace. apply list_elem_of_bind.
  exists (ws, u). split; [|done]. unfold targeted. cbn.
  rewrite Hopen, Hok, bool_decide_true by done. cbn. apply list_elem_of_singleton. done.
Qed.

(** A broadcast sends nothing but its message, and writes nothing durable. *)
Lemma broadcast_trace_only env message exclude entries ev :
  ev ∈ broadcast_trace env message exclude entries →
  (∃ ws, ev = ws_send ws message) ∨ ev = console_error "Error broadcasting message".
Proof.
  unfold broadcast_trace. intros [e [Hin _]]%list_elem_of_bind.
  destruct (targeted env exclude e.1); [|by apply elem_of_nil in Hin].
  destruct (send_ok env e.1); apply list_elem_of_singleton in Hin; eauto.
Qed.

(** *** [handleEdit] *)

Lemma handleEdit_put_ok env user action s :
  put_ok env = true →
  handleEdit env user action s
  = (mkState (broadcast_prune env None (sessions s) (sessions s))
             (applyEdit (data action) (itineraryData s))
             (collaborators s)
             (push_history (stamp env user action) (editHistory s))
             (Some (applyEdit (data action) (itineraryData s))),
     storage_put (applyEdit (data action) (itineraryData s))
       :: broadcast_trace env (edit_message (stamp env user action) (sender_of user))
            None (sessions s),
     inr tt).
Proof.
  intros Hput. unfold handleEdit, ctx_storage_put. rewrite Hput.
  unfold_handler. cbn. rewrite broadcast_spec. done.
Qed.

Lemma handleEdit_put_fails env user action s :
  put_ok env = false →
  handleEdit env user action s
  = (set_itineraryData (applyEdit (data action)) s, [], inl StorageError).
Proof.
  intros Hput. unfold handleEdit, ctx_storage_put. rewrite Hput. done.
Qed.

Lemma handleEdit_itineraryData env user action s :
  itineraryData (state_of (handleEdit env user action s))
  = applyEdit (data action) (itineraryData s).
Proof.
  destruct (put_ok env) eqn:E.
  - by rewrite handleEdit_put_ok.
  - by rewrite handleEdit_put_fails.
Qed.

Lemma handleMessage_known env ws message s user :
  assoc_get ws (sessions s) = Some user →
  handleMessage env ws message s = handleMessage_user env user message s.
Proof.
  intros Hws. unfold handleMessage. rewrite bind_get, Hws. by destruct message.
Qed.

(** The history holds at most 100 actions, the latest last. *)
Lemma push_history_bounded a h : length h ≤ 100 → length (push_history a h) ≤ 100.
Proof.
  intros Hle. unfold push_history.
  case_decide as Hc; rewrite length_app in Hc; rewrite ?length_drop, !length_app;
    cbn in *; lia.
Qed.

Lemma push_history_last a h : last (push_history a h) = Some a.
Proof.
  unfold push_history. case_decide as Hc; [|apply last_snoc].
  rewrite length_app in *. cbn in *.
  rewrite drop_app_le by lia. apply last_snoc.
Qed.

(** C5, as stated, fails: when the durable write fails, the handler has
    changed the document in memory but has not appended to the history,
    whereas with the history appended before the write the action would be
    in it. *)
Lemma handleEdit_history_first_counterexample :
  editHistory (state_of (handleEdit env_put_fails alice add_museum trip1)) = [] ∧
  editHistory (state_of (handleEdit_history_first env_put_fails alice add_museum trip1))
  = [stamp env_put_fails alice add_museum] ∧
  handleEdit env_put_fails alice add_museum trip1
  ≠ handleEdit_history_first env_put_fails alice add_museum trip1.
Proof.
  split_and!; [done..|].
  intros Heq. apply (f_equal (λ r, editHistory (state_of r))) in Heq. discriminate Heq.
Qed.

(** C5, amended. [handleEdit] stamps the action with the sender's id and
    the current time and applies it to the document in memory; then it
    writes the whole document to durable storage; if the write fails the
    handler stops there: nothing is appended to the history and nothing is
    sent. Otherwise it appends the stamped action to the history, cut to
    its last 100 entries (so a history of at most 100 actions stays so, the
    new action last), and then sends the [edit] message, with the
    stamped action and the sender's id, name and color, to every open
    session in turn, the sender's included: the durable write is the first
    effect, before any send. *)
Theorem handleEdit_steps (env : Env) (user : User) (action : EditAction) (s : State) :
  let a := stamp env user action in
  let doc' := applyEdit (data action) (itineraryData s) in
  let r := handleEdit env user action s in
  userId a = user_id user ∧ timestamp a = Date_now env ∧ data a = data action ∧
  itineraryData (state_of r) = doc' ∧
  collaborators (state_of r) = collaborators s ∧
  (if put_ok env then
     storage (state_of r) = Some doc' ∧
     editHistory (state_of r) = push_history a (editHistory s) ∧
     last (editHistory (state_of r)) = Some a ∧
     (length (editHistory s) ≤ 100 → length (editHistory (state_of r)) ≤ 100) ∧
     trace_of r = storage_put doc'
                    :: broadcast_trace env (edit_message a (sender_of user)) None (sessions s) ∧
     (∀ ws u, (ws, u) ∈ sessions s → is_open env ws = true → send_ok env ws = true →
        ws_send ws (edit_message a (sender_of user))
          ∈ broadcast_trace env (edit_message a (sender_of user)) None (sessions s)) ∧
     (∀ ws, assoc_get ws (sessions s) = Some user →
        is_open env ws = true → send_ok env ws = true →
        ws_send ws (edit_message a (sender_of user))
          ∈ trace_of (handleMessage env ws (edit action) s)) ∧
     outcome_of r = inr tt
   else
     storage (state_of r) = storage s ∧
     editHistory (state_of r) = editHistory s ∧
     sessions (state_of r) = sessions s ∧
     trace_of r = [] ∧
     outcome_of r = inl StorageError).
Proof.
  cbn zeta. split_and!; try done.
  - apply handleEdit_itineraryData.
  - destruct (put_ok env) eqn:E.
    + by rewrite handleEdit_put_ok.
    + by rewrite handleEdit_put_fails.
  - destruct (put_ok env) eqn:E.
    + rewrite handleEdit_put_ok by done. split_and!; try done.
      * apply push_history_last.
      * apply push_history_bounded.
      * intros ws u. apply broadcast_trace_reaches.
      * intros ws Hws Hopen Hsend. rewrite (handleMessage_known env ws _ s user Hws).
        cbn [handleMessage_user]. rewrite handleEdit_put_ok by done. right.
        eapply broadcast_trace_reaches; eauto using assoc_get_elem.
    + by rewrite handleEdit_put_fails.
Qed.

(** *** The edit fold *)

Lemma run_edits_itineraryData es s :
  itineraryData (run_edits es s) = edit_fold ((λ e, data e.2) <$> es) (itineraryData s).
Proof.
  revert s. induction es as [|[[env user] action] rest IH]; intros s; [done|].
  cbn [run_edits]. rewrite IH, handleEdit_itineraryData. done.
Qed.

(** C8. The document that a sequence of edits leaves is a function of the
    starting document and of the edits' types and payloads alone: two runs
    that start from equal documents and handle the same edits end with
    equal documents, whatever the senders, the stamped times, the outcome
    of the durable writes and of the sends, and the rest of the two
    states. *)
Theorem edit_fold_deterministic (es1 es2 : list (Env * User * EditAction)) (s1 s2 : State) :
  itineraryData s1 = itineraryData s2 →
  (λ e, data e.2) <$> es1 = (λ e, data e.2) <$> es2 →
  itineraryData (run_edits es1 s1) = itineraryData (run_edits es2 s2) ∧
  itineraryData (run_edits es1 s1) = edit_fold ((λ e, data e.2) <$> es1) (itineraryData s1).
Proof.
  intros Hdoc Hedits. rewrite !run_edits_itineraryData, Hdoc, Hedits. done.
Qed.

Lemma edit_fold_deterministic_witness :
  itineraryData (run_edits [(env_ok, alice, add_museum); (env_put_fails, bob, rename_trip);
                            (env_ok, alice, drop_museum)] trip1)
  = itineraryData (run_edits [(env_put_fails, bob, add_museum); (env_ok, bob, rename_trip);
                              (env_ok, bob, drop_museum)] (constructor (Some (Some trip)))) ∧
  itineraryData (run_edits [(env_ok, alice, add_museum); (env_put_fails, bob, rename_trip);
                            (env_ok, alice, drop_museum)] trip1)
  = Some (mkItinerary [("title", "Porto")]
                      (Some [mkDay "2025-03-15" 1 []; mkDay "2025-03-16" 2 []])).
Proof.
  destruct (edit_fold_deterministic
    [(env_ok, alice, add_museum); (env_put_fails, bob, rename_trip);
     (env_ok, alice, drop_museum)]
    [(env_put_fails, bob, add_museum); (env_ok, bob, rename_trip);
     (env_ok, bob, drop_museum)]
    trip1 (constructor (Some (Some trip))) eq_refl eq_refl) as [H1 H2].
  split; [exact H1|]. rewrite H2. reflexivity.
Defined.

(** *** [addActivity] *)



(** *** Votes *)

Lemma list_find_insert_same {A} (P : A → Prop) `{!∀ x, Decision (P x)} l i a a' :
  list_find P l = Some (i, a) → P a' → list_find P (<[i := a']> l) = Some (i, a').
Proof.
  intros (Hi & Ha & Hfirst)%list_find_Some Ha'. apply list_find_Some. split_and!.
  - apply list_lookup_insert_eq. by eapply lookup_lt_Some.
  - done.
  - intros j y Hj Hlt. rewrite list_lookup_insert_ne in Hj by lia. eauto.
Qed.

(** The first activity with an id, by its position: the first day that
    holds one, and the first one in that day. *)
Lemma list_find_first aid (l : list Activity) j a :
  l !! j = Some a → id a = aid →
  (∀ j' a', j' < j → l !! j' = Some a' → id a' ≠ aid) →
  list_find (λ a, id a = aid) l = Some (j, a).
Proof.
  intros Hj Hid Hfirst. apply list_find_Some. split_and!; [done..|].
  intros j' a' Hj' Hlt. by eapply Hfirst.
Qed.

Lemma list_find_none_of aid (l : list Activity) :
  (∀ a, a ∈ l → id a ≠ aid) → list_find (λ a, id a = aid) l = None.
Proof. intros Hnone. by apply list_find_None, Forall_forall. Qed.

Lemma vote_days_none uid aid v ds :
  (∀ day a, day ∈ ds → a ∈ activities day → id a ≠ aid) → vote_days uid aid v ds = None.
Proof.
  induction ds as [|d0 rest IH]; intros Hnone; [done|]. cbn.
  rewrite list_find_none_of by (intros a; apply Hnone; by left).
  rewrite IH; [done|]. intros day a Hin. apply Hnone. by right.
Qed.

Lemma vote_days_at uid aid v ds i j day a :
  ds !! i = Some day → activities day !! j = Some a → id a = aid →
  (∀ i' day' a', i' < i → ds !! i' = Some day' → a' ∈ activities day' → id a' ≠ aid) →
  (∀ j' a', j' < j → activities day !! j' = Some a' → id a' ≠ aid) →
  vote_days uid aid v ds
  = Some (<[i := mkDay (date day) (dayNumber day)
                       (<[j := mkActivity (id a) (fields a)
                                 (Some (obj_set uid v (default [] (votes a))))]>
                          (activities day))]> ds,
          obj_set uid v (default [] (votes a))).
Proof.
  revert i. induction ds as [|d0 rest IH]; intros i Hi Hj Hid Hdays Hacts; [done|].
  destruct i as [|i]; cbn in Hi.
  - injection Hi as ->. cbn. by rewrite (list_find_first _ _ _ _ Hj Hid Hacts).
  - cbn. rewrite list_find_none_of by (intros a'; apply (Hdays 0 d0); [lia|done]).
    rewrite (IH i); [done..| |done].
    intros i' day' a' Hlt. apply (Hdays (S i')). lia.
Qed.

Lemma vote_days_missing uid aid v ds :
  find_activity aid ds = None → vote_days uid aid v ds = None.
Proof.
  induction ds as [|day rest IH]; [done|]. cbn.
  destruct (list_find (λ a, id a = aid) (activities day)) as [[i a]|]; [done|].
  intros H. by rewrite IH.
Qed.

Lemma vote_days_found uid aid v ds a :
  find_activity aid ds = Some a →
  ∃ ds', vote_days uid aid v ds = Some (ds', obj_set uid v (default [] (votes a))) ∧
         find_activity aid ds'
         = Some (mkActivity (id a) (fields a) (Some (obj_set uid v (default [] (votes a))))).
Proof.
  induction ds as [|day rest IH]; [done|]. cbn.
  destruct (list_find (λ a, id a = aid) (activities day)) as [[i a0]|] eqn:Hfind.
  - intros [= ->]. eexists. split; [done|]. cbn.
    erewrite list_find_insert_same; [done..|].
    by apply list_find_Some in Hfind as (_ & Hid & _).
  - intros Hrest. destruct (IH Hrest) as (ds' & -> & Hfound).
    eexists. split; [done|]. cbn. by rewrite Hfind.
Qed.

(** [calculateVotes] counts the votes of each kind. *)
Lemma calculateVotes_counts (vs : obj Vote) :
  calculateVotes vs
  = mkTotals (length (filter (λ kv, kv.2 = up) vs))
             (length (filter (λ kv, kv.2 = down) vs))
             (length (filter (λ kv, kv.2 = neutral) vs)).
Proof.
  unfold calculateVotes.
  enough (∀ acc, foldl (λ acc kv,
           match kv.2 with
           | up => mkTotals (S (total_up acc)) (total_down acc) (total_neutral acc)
           | down => mkTotals (total_up acc) (S (total_down acc)) (total_neutral acc)
           | neutral => mkTotals (total_up acc) (total_down acc) (S (total_neutral acc))
           end) acc vs
         = mkTotals (total_up acc + length (filter (λ kv, kv.2 = up) vs))
                    (total_down acc + length (filter (λ kv, kv.2 = down) vs))
                    (total_neutral acc + length (filter (λ kv, kv.2 = neutral) vs))) as H
    by apply H.
  induction vs as [|[k v] vs IH]; intros [u d n]; cbn [foldl].
  - cbn. f_equal; lia.
  - rewrite IH, !filter_cons.
    destruct v; cbn; repeat case_decide; try done; cbn; f_equal; lia.
Qed.

Lemma handleVote_eq env user aid v s :
  handleVote env user aid v s
  = match itineraryData s with
    | Some doc =>
        match days doc with
        | Some ds =>
            match vote_days (user_id user) aid v ds with
            | Some (ds', votes') =>
                (mkState (broadcast_prune env None (sessions s) (sessions s))
                         (Some (mkItinerary (meta doc) (Some ds')))
                         (collaborators s) (editHistory s) (storage s),
                 broadcast_trace env
                   (vote_update aid (user_id user) v (calculateVotes votes')) None (sessions s),
                 inr tt)
            | None => (s, [], inr tt)
            end
        | None => (s, [], inr tt)
        end
    | None => (s, [], inr tt)
    end.
Proof.
  unfold handleVote. unfold_handler.
  destruct (itineraryData s) as [doc|]; [|done].
  destruct (days doc) as [ds|]; [|done].
  destruct (vote_days (user_id user) aid v ds) as [[ds' votes']|]; [|done].
  unfold_handler. rewrite broadcast_spec. done.
Qed.

Lemma quiet_ret {A} (a : A) : quiet (mret a).
Proof. intros s. split; [done|]. intros d. apply not_elem_of_nil. Qed.

Lemma quiet_get : quiet get.
Proof. intros s. split; [done|]. intros d. apply not_elem_of_nil. Qed.

Lemma quiet_throw {A} e : quiet (throw (A:=A) e).
Proof. intros s. split; [done|]. intros d. apply not_elem_of_nil. Qed.

Lemma quiet_modify f : (∀ s, storage (f s) = storage s) → quiet (modify f).
Proof. intros Hf s. split; [apply Hf|]. intros d. apply not_elem_of_nil. Qed.

Lemma quiet_emit ev : (∀ d, ev ≠ storage_put d) → quiet (emit ev).
Proof.
  intros Hev s. split; [done|]. intros d Hin%list_elem_of_singleton. by eapply Hev.
Qed.

Lemma quiet_bind {A B} (m : Handler A) (k : A → Handler B) :
  quiet m → (∀ a, quiet (k a)) → quiet (m ≫= k).
Proof.
  intros Hm Hk s. specialize (Hm s). unfold_handler.
  destruct (m s) as [[s1 t1] [e|a]]; [done|].
  specialize (Hk a s1). destruct (k a s1) as [[s2 t2] r]. cbn in *.
  destruct Hm as [Hs1 Ht1], Hk as [Hs2 Ht2]. split; [congruence|].
  intros d [?|?]%elem_of_app; [by eapply Ht1 | by eapply Ht2].
Qed.

Lemma quiet_try_catch {A} (m : Handler A) (h : Exception → Handler A) :
  quiet m → (∀ e, quiet (h e)) → quiet (try_catch m h).
Proof.
  intros Hm Hh s. specialize (Hm s). unfold_handler.
  destruct (m s) as [[s1 t1] [e|a]]; [|done].
  specialize (Hh e s1). destruct (h e s1) as [[s2 t2] r]. cbn in *.
  destruct Hm as [Hs1 Ht1], Hh as [Hs2 Ht2]. split; [congruence|].
  intros d [?|?]%elem_of_app; [by eapply Ht1 | by eapply Ht2].
Qed.

Lemma quiet_send env ws m : quiet (send env ws m).
Proof. unfold send. destruct (send_ok env ws); [by apply quiet_emit | apply quiet_throw]. Qed.

Lemma quiet_broadcast env message exclude : quiet (broadcast env message exclude).
Proof.
  intros s. rewrite broadcast_spec. split; [done|].
  intros d [[ws Heq]|Heq]%broadcast_trace_only; done.
Qed.

Create HintDb quiet.
#[local] Hint Resolve quiet_ret quiet_get quiet_throw quiet_modify quiet_emit quiet_bind
  quiet_try_catch quiet_send quiet_broadcast : quiet.

Lemma quiet_handleVote env user aid v : quiet (handleVote env user aid v).
Proof.
  unfold handleVote. apply quiet_bind; [apply quiet_get|]. intros s.
  destruct (itineraryData s) as [doc|]; [|apply quiet_ret].
  destruct (days doc) as [ds|]; [|apply quiet_ret].
  destruct (vote_days (user_id user) aid v ds) as [[ds' votes']|]; [|apply quiet_ret].
  auto with quiet.
Qed.

Lemma quiet_handle env e : persists e = false → quiet (handle env e).
Proof.
  destruct e as [ws u n m g| |doc|ws [msg|]|ws]; cbn [handle persists]; intros Hp.
  - unfold handleSession. auto 10 with quiet.
  - apply quiet_ret.
  - done.
  - unfold webSocketMessage. apply quiet_try_catch; [|auto with quiet].
    unfold handleMessage. apply quiet_bind; [apply quiet_get|]. intros s.
    destruct (assoc_get ws (sessions s)) as [user|]; [|apply quiet_ret].
    destruct msg as [a|c|aid|aid v|text|]; [done|..].
    + unfold handleCursorUpdate. apply quiet_bind; [apply quiet_get|]. intros s'.
      destruct (assoc_get (user_id user) (collaborators s')); auto with quiet.
    + apply quiet_broadcast.
    + apply quiet_handleVote.
    + apply quiet_broadcast.
    + apply quiet_ret.
  - unfold webSocketMessage. auto with quiet.
  - unfold handleDisconnect. apply quiet_bind; [apply quiet_get|]. intros s.
    destruct (assoc_get ws (sessions s)); auto 10 with quiet.
Qed.

Lemma run_quiet es s :
  Forall (λ e, persists e.2 = false) es →
  storage (run es s).1 = storage s ∧ ∀ d, storage_put d ∉ (run es s).2.
Proof.
  intros Hall. revert s. induction Hall as [|[env e] rest He _ IH]; intros s.
  - split; [done|]. intros d. apply not_elem_of_nil.
  - cbn [run]. destruct (quiet_handle env e He s) as [Hs Ht].
    destruct (IH (state_of (handle env e s))) as [Hs' Ht']. cbn [fst snd].
    split; [congruence|]. intros d [?|?]%elem_of_app; [by eapply Ht | by eapply Ht'].
Qed.

Lemma create_storage env itinerary s :
  storage (state_of (create env itinerary s))
  = if put_ok env then Some (Some itinerary) else storage s.
Proof. unfold create, ctx_storage_put. unfold_handler. cbn. by destruct (put_ok env). Qed.

(** Without an [edit], what is stored is what was stored before or the
    document that a [create] request supplied. *)
Lemma run_without_edit es s :
  Forall (λ e, is_edit e.2 = false) es →
  storage (run es s).1 = storage s ∨
  ∃ env itinerary, (env, Create itinerary) ∈ es ∧ storage (run es s).1 = Some (Some itinerary).
Proof.
  intros Hall. revert s. induction Hall as [|[env e] rest He _ IH]; intros s; [by left|].
  cbn [run fst].
  assert (storage (state_of (handle env e s)) = storage s ∨
          ∃ itinerary, e = Create itinerary ∧
                       storage (state_of (handle env e s)) = Some (Some itinerary)) as Hstep.
  { destruct (persists e) eqn:Hp.
    - destruct e as [| |itinerary|ws [[]|]|]; try done. cbn [handle].
      rewrite create_storage. destruct (put_ok env); [right; by exists itinerary|by left].
    - left. by apply quiet_handle. }
  destruct (IH (state_of (handle env e s))) as [Hsame|(env' & it & Hin & Hst)].
  - rewrite Hsame. destruct Hstep as [?|(it & -> & ?)]; [by left|].
    right. exists env, it. split; [by left|done].
  - right. exists env', it. split; [by right|done].
Qed.



(** *** The edits, in document order *)

Lemma deleteActivity_days_missing aid ds :
  find_activity aid ds = None → deleteActivity_days aid ds = ds.
Proof.
  induction ds as [|day rest IH]; [done|]. cbn.
  destruct (list_find _ (activities day)) as [[i a]|] eqn:E; [done|].
  intros Hnone. by rewrite IH.
Qed.

Lemma list_find_snoc_missing aid (l : list Activity) a :
  list_find (λ a, id a = aid) l = None → id a = aid →
  list_find (λ a, id a = aid) (l ++ [a]) = Some (length l, a).
Proof.
  intros Hnone Ha. induction l as [|b l IH]; cbn in *.
  - by rewrite decide_True.
  - destruct (decide (id b = aid)); [done|].
    destruct (list_find _ l) as [[j c]|] eqn:E; [done|]. by rewrite IH.
Qed.

Lemma deleteActivity_days_pushed n a ds i day :
  find_activity (id a) ds = None →
  list_find (λ d, dayNumber d = n) ds = Some (i, day) →
  deleteActivity_days (id a) (<[i := push_activity a day]> ds) = ds.
Proof.
  revert i. induction ds as [|d0 rest IH]; intros i; [done|]. cbn.
  destruct (list_find _ (activities d0)) as [[j c]|] eqn:E; [done|]. intros Hnone.
  destruct (decide (dayNumber d0 = n)) as [Hn|Hn].
  - intros [= <- <-]. cbn.
    rewrite (list_find_snoc_missing _ _ _ E eq_refl).
    replace (delete (length (activities d0)) (activities d0 ++ [a])) with (activities d0).
    + by destruct d0.
    + clear. induction (activities d0) as [|b l IH]; [done|]. cbn. by f_equal.
  - destruct (list_find _ rest) as [[j day']|] eqn:E'; [|done]. cbn.
    intros [= <- <-]. cbn. rewrite E.
    f_equal. by apply IH.
Qed.

(** *** Spreading an update twice *)

Lemma obj_spread_keeps_key {V} k (a b : list (string * V)) :
  is_Some (assoc_get k a) → is_Some (assoc_get k (obj_spread a b)).
Proof.
  revert a. induction b as [|[k1 v1] b IH]; intros a Ha; [done|].
  cbn. apply IH. by apply assoc_get_set_is_Some.
Qed.

Lemma obj_spread_has_keys {V} (a b : list (string * V)) kv :
  kv ∈ b → is_Some (assoc_get kv.1 (obj_spread a b)).
Proof.
  revert a. induction b as [|[k1 v1] b IH]; intros a Hin; [by apply elem_of_nil in Hin|].
  apply elem_of_cons in Hin as [->|Hin]; cbn.
  - apply obj_spread_keeps_key. unfold obj_set. rewrite assoc_get_set_eq. by eexists.
  - by apply IH.
Qed.

Lemma obj_spread_absorbs {V} k (v v0 : V) (x b : list (string * V)) :
  (∀ kv, kv ∈ b → is_Some (assoc_get kv.1 x)) →
  obj_set k v (obj_spread (obj_set k v0 x) b) = obj_set k v (obj_spread x b).
Proof.
  revert x v0. induction b as [|[k1 v1] b IH]; intros x v0 Hkeys; cbn.
  - apply assoc_set_set.
  - unfold obj_set in *. destruct (decide (k1 = k)) as [->|Hne].
    + by rewrite assoc_set_set.
    + rewrite (assoc_set_comm k1 v1 k v0) by (done || apply (Hkeys (k1, v1)); by left).
      apply IH. intros kv Hin. apply assoc_get_set_is_Some, Hkeys. by right.
Qed.

Lemma obj_spread_idempotent {V} (a b : list (string * V)) :
  obj_spread (obj_spread a b) b = obj_spread a b.
Proof.
  induction b as [|[k v] b IH] using rev_ind; [done|].
  unfold obj_spread in *. rewrite !foldl_app. cbn.
  fold (obj_spread a b) in *.
  fold (obj_spread (obj_set k v (obj_spread a b)) b).
  rewrite obj_spread_absorbs by (intros kv Hin; by apply obj_spread_has_keys).
  unfold obj_spread at 1. by rewrite IH.
Qed.

(** *** Voting again *)

Lemma vote_days_again uid aid v1 v2 ds ds1 vs1 :
  vote_days uid aid v1 ds = Some (ds1, vs1) →
  vote_days uid aid v2 ds1 = vote_days uid aid v2 ds.
Proof.
  revert ds1. induction ds as [|day rest IH]; intros ds1; [done|]. cbn.
  destruct (list_find _ (activities day)) as [[i a]|] eqn:E.
  - intros [= <- <-]. cbn.
    erewrite list_find_insert_same; [|exact E|by apply list_find_Some in E as (_ & ? & _)].
    simpl. unfold obj_set. by rewrite assoc_set_set, list_insert_insert_eq.
  - destruct (vote_days uid aid v1 rest) as [[rest1 vs]|] eqn:E1; [|done].
    intros [= <- <-]. cbn. rewrite E. by rewrite (IH rest1).
Qed.

Lemma calculateVotes_total (vs : list (string * Vote)) :
  total_up (calculateVotes vs) + total_down (calculateVotes vs)
  + total_neutral (calculateVotes vs) = length vs.
Proof.
  rewrite calculateVotes_counts. cbn.
  induction vs as [|[u v] vs IH]; [done|].
  rewrite !filter_cons. cbn [snd].
  destruct v; repeat case_decide; try done; cbn [length]; lia.
Qed.

(** *** Broadcasts and the sessions they prune *)

Lemma broadcast_prune_None env exclude entries ss ws :
  assoc_get ws ss = None → assoc_get ws (broadcast_prune env exclude entries ss) = None.
Proof.
  revert ss. induction entries as [|e rest IH]; intros ss Hnone; [done|].
  unfold broadcast_prune in *. cbn. apply IH.
  destruct (targeted env exclude e.1 && negb (send_ok env e.1)); [|done].
  destruct (decide (ws = e.1)) as [->|Hne]; [apply assoc_get_delete_eq|].
  by rewrite assoc_get_delete_ne.
Qed.

Lemma broadcast_prune_removes env exclude entries ss ws :
  ws ∈ entries.*1 → targeted env exclude ws = true → send_ok env ws = false →
  assoc_get ws (broadcast_prune env exclude entries ss) = None.
Proof.
  intros Hin Ht Hs. revert ss. induction entries as [|e rest IH]; intros ss.
  { by apply elem_of_nil in Hin. }
  cbn in Hin. apply elem_of_cons in Hin as [->|Hin].
  - unfold broadcast_prune. cbn. rewrite Ht, Hs. cbn.
    apply broadcast_prune_None, assoc_get_delete_eq.
  - by apply IH.
Qed.

Lemma broadcast_prune_keeps env exclude entries ss ws :
  targeted env exclude ws = false ∨ send_ok env ws = true →
  assoc_get ws (broadcast_prune env exclude entries ss) = assoc_get ws ss.
Proof.
  intros Hws. revert ss. induction entries as [|e rest IH]; intros ss; [done|].
  unfold broadcast_prune in *. cbn. rewrite IH.
  destruct (targeted env exclude e.1 && negb (send_ok env e.1)) eqn:Hc; [|done].
  apply andb_true_iff in Hc as [Ht Hs%negb_true_iff].
  apply assoc_get_delete_ne. intros ->. destruct Hws; congruence.
Qed.

Lemma broadcast_trace_send env message exclude entries ws m :
  ws_send ws m ∈ broadcast_trace env message exclude entries ↔
  m = message ∧ ws ∈ entries.*1 ∧ targeted env exclude ws = true ∧ send_ok env ws = true.
Proof.
  unfold broadcast_trace. rewrite list_elem_of_bind. split.
  - intros [[ws' u] [Hin Hentry]]. cbn in Hin.
    destruct (targeted env exclude ws') eqn:Ht; [|by apply elem_of_nil in Hin].
    destruct (send_ok env ws') eqn:Hs; apply list_elem_of_singleton in Hin; [|done].
    injection Hin as <- ->. split_and!; try done.
    apply list_elem_of_fmap. by exists (ws, u).
  - intros (-> & [[ws' u] [-> Hin]]%list_elem_of_fmap & Ht & Hs).
    exists (ws', u). split; [|done]. cbn in *. rewrite Ht, Hs. by left.
Qed.

Lemma broadcast_trace_length env message exclude entries :
  length (broadcast_trace env message exclude entries) ≤ length entries.
Proof.
  unfold broadcast_trace. induction entries as [|e rest IH]; [done|].
  cbn. rewrite length_app.
  destruct (targeted env exclude e.1); [destruct (send_ok env e.1)|]; cbn; lia.
Qed.

(** *** The handlers of presence, as equations *)

Lemma handleDisconnect_eq env ws s :
  handleDisconnect env ws s
  = match assoc_get ws (sessions s) with
    | Some user =>
        (mkState (broadcast_prune env None (assoc_delete ws (sessions s))
                                  (assoc_delete ws (sessions s)))
                 (itineraryData s)
                 (assoc_delete (user_id user) (collaborators s))
                 (editHistory s) (storage s),
         broadcast_trace env (user_left (user_id user)) None (assoc_delete ws (sessions s)),
         inr tt)
    | None => (s, [], inr tt)
    end.
Proof.
  unfold handleDisconnect. rewrite bind_get.
  destruct (assoc_get ws (sessions s)) as [user|]; [|done].
  unfold_handler. cbn. by rewrite broadcast_spec.
Qed.

Lemma handleCursorUpdate_eq env user c s :
  handleCursorUpdate env user c s
  = (mkState (broadcast_prune env None (sessions s) (sessions s))
             (itineraryData s)
             (match assoc_get (user_id user) (collaborators s) with
              | Some presence =>
                  assoc_set (user_id user)
                    (mkPresence (presence_userId presence) (presence_userName presence)
                                (presence_color presence) (Date_now env) c)
                    (collaborators s)
              | None => collaborators s
              end)
             (editHistory s) (storage s),
     broadcast_trace env (cursor_update (user_id user) c) None (sessions s),
     inr tt).
Proof.
  unfold handleCursorUpdate. rewrite bind_get.
  destruct (assoc_get (user_id user) (collaborators s)) as [presence|];
    unfold_handler; cbn; rewrite broadcast_spec; by destruct s.
Qed.

Lemma assoc_set_elem_ne {K V} `{EqDecision K} (k k' : K) (v v' : V) m :
  k' ≠ k → (k', v') ∈ m → (k', v') ∈ assoc_set k v m.
Proof.
  intros Hne. induction m as [|[k0 v0] m IH]; [by intros ?%elem_of_nil|].
  intros [Heq|Hin]%elem_of_cons; cbn.
  - injection Heq as <- <-. rewrite decide_False by done. by left.
  - destruct (decide (k0 = k)); right; [done|by apply IH].
Qed.

Lemma handleSession_ok env ws userId userName userEmail generated s :
  send_ok env ws = true →
  let user := session_user env userId userName userEmail generated in
  let ss := assoc_set ws user (sessions s) in
  let cs := assoc_set (user_id user)
              (mkPresence (user_id user) (user_name user) (user_color user)
                          (Date_now env) None) (collaborators s) in
  handleSession env ws userId userName userEmail generated s
  = (mkState (broadcast_prune env (Some ws) ss ss) (itineraryData s) cs
             (editHistory s) (storage s),
     ws_send ws (init_message (itineraryData s) user (snd <$> cs))
       :: broadcast_trace env
            (user_joined (user_id user) (user_name user) (user_color user)) (Some ws) ss,
     inr tt).
Proof.
  intros Hok. unfold handleSession, send. cbn zeta. unfold_handler. cbn.
  rewrite Hok. unfold_handler. rewrite broadcast_spec. done.
Qed.

Lemma handleSession_fails env ws userId userName userEmail generated s :
  send_ok env ws = false →
  let user := session_user env userId userName userEmail generated in
  handleSession env ws userId userName userEmail generated s
  = (mkState (assoc_set ws user (sessions s)) (itineraryData s)
             (assoc_set (user_id user)
                (mkPresence (user_id user) (user_name user) (user_color user)
                            (Date_now env) None) (collaborators s))
             (editHistory s) (storage s),
     [], inl SendError).
Proof.
  intros Hok. unfold handleSession, send. cbn zeta. unfold_handler. cbn.
  rewrite Hok. done.
Qed.

Lemma generateUserColor_palette env : generateUserColor env ∈ colors.
Proof.
  unfold generateUserColor.
  destruct (lookup_lt_is_Some_2 colors (Math_random env `mod` length colors)) as [c Hc].
  { apply Nat.mod_upper_bound. done. }
  rewrite Hc. cbn. by eapply list_elem_of_lookup_2.
Qed.

(** What [webSocketMessage] comes to: the [catch] only matters for a frame
    that does not parse and for an [edit] whose durable write fails. *)
Lemma webSocketMessage_eq env ws message s :
  webSocketMessage env ws message s
  = match message with
    | None => (s, [console_error "Error handling WebSocket message"], inr tt)
    | Some m =>
        match assoc_get ws (sessions s) with
        | None => (s, [], inr tt)
        | Some user =>
            match m with
            | edit action =>
                if put_ok env then handleEdit env user action s
                else (set_itineraryData (applyEdit (data action)) s,
                      [console_error "Error handling WebSocket message"], inr tt)
            | _ => handleMessage_user env user m s
            end
        end
    end.
Proof.
  unfold webSocketMessage. destruct message as [m|]; [|done].
  unfold try_catch.
  destruct (assoc_get ws (sessions s)) as [user|] eqn:E.
  - rewrite (handleMessage_known _ _ _ _ _ E). destruct m as [a|c|aid|aid v|text|]; cbn.
    + destruct (put_ok env) eqn:Hput.
      * by rewrite handleEdit_put_ok.
      * by rewrite handleEdit_put_fails.
    + by rewrite handleCursorUpdate_eq.
    + unfold handleTypingIndicator. by rewrite broadcast_spec.
    + rewrite handleVote_eq. destruct (itineraryData s) as [doc|]; [|done].
      destruct (days doc) as [ds|]; [|done].
      by destruct (vote_days (user_id user) aid v ds) as [[ds' votes']|].
    + unfold handleChat. by rewrite broadcast_spec.
    + done.
  - unfold handleMessage. by rewrite bind_get, E.
Qed.

Lemma handle_of_presence env e s :
  touches_document e = false →
  itineraryData (state_of (handle env e s)) = itineraryData s ∧
  editHistory (state_of (handle env e s)) = editHistory s ∧
  storage (state_of (handle env e s)) = storage s.
Proof.
  destruct e as [ws u n m g| |doc|ws [msg|]|ws]; cbn [handle touches_document]; intros Ht.
  - destruct (send_ok env ws) eqn:Hok.
    + by rewrite handleSession_ok.
    + by rewrite handleSession_fails.
  - done.
  - done.
  - rewrite webSocketMessage_eq. destruct (assoc_get ws (sessions s)) as [user|]; [|done].
    destruct msg as [a|c|aid|aid v|text|]; try done; cbn.
    + by rewrite handleCursorUpdate_eq.
    + unfold handleTypingIndicator. by rewrite broadcast_spec.
    + unfold handleChat. by rewrite broadcast_spec.
  - by rewrite webSocketMessage_eq.
  - rewrite handleDisconnect_eq. by destruct (assoc_get ws (sessions s)).
Qed.

Lemma handle_editHistory env e s :
  editHistory (state_of (handle env e s)) = editHistory s ∨
  ∃ a, editHistory (state_of (handle env e s)) = push_history a (editHistory s).
Proof.
  destruct (touches_document e) eqn:Ht.
  - destruct e as [| |doc|ws [[a|c|aid|aid v|text|]|]|]; try done; cbn [handle].
    + left. unfold create, ctx_storage_put. unfold_handler. cbn. by destruct (put_ok env).
    + rewrite webSocketMessage_eq. destruct (assoc_get ws (sessions s)) as [user|]; [|by left].
      destruct (put_ok env) eqn:Hput; [|by left].
      rewrite handleEdit_put_ok by done. right. by eexists.
    + left. rewrite webSocketMessage_eq.
      destruct (assoc_get ws (sessions s)) as [user|]; [|done].
      cbn. rewrite handleVote_eq. destruct (itineraryData s) as [doc|]; [|done].
      destruct (days doc) as [ds|]; [|done].
      by destruct (vote_days (user_id user) aid v ds) as [[ds' votes']|].
  - left. by apply handle_of_presence.
Qed.

Lemma deleteActivity_days_none aid ds :
  (∀ day a, day ∈ ds → a ∈ activities day → id a ≠ aid) → deleteActivity_days aid ds = ds.
Proof.
  induction ds as [|d0 rest IH]; intros Hnone; [done|]. cbn.
  rewrite list_find_none_of by (intros a; apply Hnone; by left).
  f_equal. apply IH. intros day a Hin. apply Hnone. by right.
Qed.

Lemma deleteActivity_days_at aid ds i j day a :
  ds !! i = Some day → activities day !! j = Some a → id a = aid →
  (∀ i' day' a', i' < i → ds !! i' = Some day' → a' ∈ activities day' → id a' ≠ aid) →
  (∀ j' a', j' < j → activities day !! j' = Some a' → id a' ≠ aid) →
  deleteActivity_days aid ds
  = <[i := mkDay (date day) (dayNumber day) (delete j (activities day))]> ds.
Proof.
  revert i. induction ds as [|d0 rest IH]; intros i Hi Hj Hid Hdays Hacts; [done|].
  destruct i as [|i]; cbn in Hi.
  - injection Hi as ->. cbn. by rewrite (list_find_first _ _ _ _ Hj Hid Hacts).
  - cbn. rewrite list_find_none_of by (intros a'; apply (Hdays 0 d0); [lia|done]).
    f_equal. apply IH; [done..| |done].
    intros i' day' a' Hlt. apply (Hdays (S i')). lia.
Qed.

Lemma updateActivity_days_none aid u ds :
  (∀ day a, day ∈ ds → a ∈ activities day → id a ≠ aid) →
  updateActivity_days aid u ds = ds.
Proof.
  induction ds as [|d0 rest IH]; intros Hnone; [done|]. cbn.
  rewrite list_find_none_of by (intros a; apply Hnone; by left).
  f_equal. apply IH. intros day a Hin. apply Hnone. by right.
Qed.

Lemma updateActivity_days_at aid u ds i j day a :
  ds !! i = Some day → activities day !! j = Some a → id a = aid →
  (∀ i' day' a', i' < i → ds !! i' = Some day' → a' ∈ activities day' → id a' ≠ aid) →
  (∀ j' a', j' < j → activities day !! j' = Some a' → id a' ≠ aid) →
  updateActivity_days aid u ds
  = <[i := mkDay (date day) (dayNumber day)
                 (<[j := spread_activity a u]> (activities day))]> ds.
Proof.
  revert i. induction ds as [|d0 rest IH]; intros i Hi Hj Hid Hdays Hacts; [done|].
  destruct i as [|i]; cbn in Hi.
  - injection Hi as ->. cbn. by rewrite (list_find_first _ _ _ _ Hj Hid Hacts).
  - cbn. rewrite list_find_none_of by (intros a'; apply (Hdays 0 d0); [lia|done]).
    f_equal. apply IH; [done..| |done].
    intros i' day' a' Hlt. apply (Hdays (S i')). lia.
Qed.

(** X6. [deleteActivity] changes the document at one place: in the first day
    that holds an activity with the given id, the first such activity of
    that day is spliced out of the day's activities. Every other day, the
    date and number of that day and its other activities, in their order,
    are as before: a later activity with the same id stays, and a day left
    without activities stays. With a null document, a document without
    days, or no activity with the id, the document is unchanged. *)
Theorem deleteActivity_first_in_document_order (activityId : string) :
  deleteActivity activityId None = None ∧
  (∀ d, days d = None → deleteActivity activityId (Some d) = Some d) ∧
  (∀ d ds, days d = Some ds →
     (∀ day a, day ∈ ds → a ∈ activities day → id a ≠ activityId) →
     deleteActivity activityId (Some d) = Some d) ∧
  (∀ d ds i j day a, days d = Some ds →
     ds !! i = Some day → activities day !! j = Some a → id a = activityId →
     (∀ i' day' a', i' < i → ds !! i' = Some day' → a' ∈ activities day' →
                    id a' ≠ activityId) →
     (∀ j' a', j' < j → activities day !! j' = Some a' → id a' ≠ activityId) →
     deleteActivity activityId (Some d)
     = Some (mkItinerary (meta d)
               (Some (<[i := mkDay (date day) (dayNumber day) (delete j (activities day))]>
                        ds)))).
Proof.
  split; [done|]. split_and!.
  - intros d Hd. unfold deleteActivity. by rewrite Hd.
  - intros d ds Hds Hnone. unfold deleteActivity.
    rewrite Hds, deleteActivity_days_none by done. destruct d; cbn in *. by subst.
  - intros d ds i j day a Hds Hi Hj Hid Hdays Hacts. unfold deleteActivity.
    by rewrite Hds, (deleteActivity_days_at _ _ _ _ _ _ Hi Hj Hid Hdays Hacts).
Qed.

Lemma deleteActivity_first_in_document_order_witness :
  deleteActivity "a2" (Some trip_with_duplicate)
  = Some (mkItinerary [("title", "Lisbon")]
            (Some [mkDay "2025-03-15" 1 [museum];
                   mkDay "2025-03-16" 2 [mkActivity "a3" [("title", "Tram")] None];
                   mkDay "2025-03-17" 3 [mkActivity "a2" [("title", "Beach")] None]])) ∧
  deleteActivity "zz" (Some trip_with_museum) = Some trip_with_museum.
Proof.
  split.
  - destruct (deleteActivity_first_in_document_order "a2") as (_ & _ & _ & H).
    refine (H trip_with_duplicate _ 1 1 _ _ eq_refl eq_refl eq_refl eq_refl _ _).
    + intros [|i'] day' a' Hlt Hd Hin; [|lia]. cbn in Hd. injection Hd as <-.
      apply list_elem_of_singleton in Hin as ->. done.
    + intros [|j'] a' Hlt Ha; [|lia]. cbn in Ha. by injection Ha as <-.
  - destruct (deleteActivity_first_in_document_order "zz") as (_ & _ & H & _).
    apply (H trip_with_museum _ eq_refl). intros day a Hday Ha.
    repeat (apply elem_of_cons in Hday as [->|Hday]);
      [| |by apply elem_of_nil in Hday]; cbn in Ha.
    + apply list_elem_of_singleton in Ha as ->. done.
    + by apply elem_of_nil in Ha.
Defined.

(** X7. [updateActivity] changes the document at one place: in the first day
    that holds an activity with the given id, the first such activity of
    that day is replaced, at its position, by the spread of the activity
    and the updates. Every other day, the date and number of that day and
    its other activities are as before. With a null document, a document
    without days, or no activity with the id, the document is unchanged. *)
Theorem updateActivity_first_in_document_order (activityId : string)
    (updates : ActivityUpdates) :
  updateActivity activityId updates None = None ∧
  (∀ d, days d = None → updateActivity activityId updates (Some d) = Some d) ∧
  (∀ d ds, days d = Some ds →
     (∀ day a, day ∈ ds → a ∈ activities day → id a ≠ activityId) →
     updateActivity activityId updates (Some d) = Some d) ∧
  (∀ d ds i j day a, days d = Some ds →
     ds !! i = Some day → activities day !! j = Some a → id a = activityId →
     (∀ i' day' a', i' < i → ds !! i' = Some day' → a' ∈ activities day' →
                    id a' ≠ activityId) →
     (∀ j' a', j' < j → activities day !! j' = Some a' → id a' ≠ activityId) →
     updateActivity activityId updates (Some d)
     = Some (mkItinerary (meta d)
               (Some (<[i := mkDay (date day) (dayNumber day)
                                   (<[j := mkActivity
                                             (default (id a) (upd_id updates))
                                             (obj_spread (fields a) (upd_fields updates))
                                             (match upd_votes updates with
                                              | Some v => Some v
                                              | None => votes a
                                              end)]>
                                      (activities day))]> ds)))).
Proof.
  split; [done|]. split_and!.
  - intros d Hd. unfold updateActivity. by rewrite Hd.
  - intros d ds Hds Hnone. unfold updateActivity.
    rewrite Hds, updateActivity_days_none by done. destruct d; cbn in *. by subst.
  - intros d ds i j day a Hds Hi Hj Hid Hdays Hacts. unfold updateActivity.
    by rewrite Hds, (updateActivity_days_at _ _ _ _ _ _ _ Hi Hj Hid Hdays Hacts).
Qed.

Lemma updateActivity_first_in_document_order_witness :
  updateActivity "a2" (mkActivityUpdates None [("title", "Fort")] None)
                 (Some trip_with_duplicate)
  = Some (mkItinerary [("title", "Lisbon")]
            (Some [mkDay "2025-03-15" 1 [museum];
                   mkDay "2025-03-16" 2 [mkActivity "a3" [("title", "Tram")] None;
                                         mkActivity "a2" [("title", "Fort")] None];
                   mkDay "2025-03-17" 3 [mkActivity "a2" [("title", "Beach")] None]])) ∧
  updateActivity "zz" (mkActivityUpdates None [("title", "Castle")] None)
                 (Some trip_with_museum)
  = Some trip_with_museum.
Proof.
  split.
  - destruct (updateActivity_first_in_document_order "a2"
                (mkActivityUpdates None [("title", "Fort")] None)) as (_ & _ & _ & H).
    refine (H trip_with_duplicate _ 1 1 _ _ eq_refl eq_refl eq_refl eq_refl _ _).
    + intros [|i'] day' a' Hlt Hd Hin; [|lia]. cbn in Hd. injection Hd as <-.
      apply list_elem_of_singleton in Hin as ->. done.
    + intros [|j'] a' Hlt Ha; [|lia]. cbn in Ha. by injection Ha as <-.
  - destruct (updateActivity_first_in_document_order "zz"
                (mkActivityUpdates None [("title", "Castle")] None)) as (_ & _ & H & _).
    apply (H trip_with_museum _ eq_refl). intros day a Hday Ha.
    repeat (apply elem_of_cons in Hday as [->|Hday]);
      [| |by apply elem_of_nil in Hday]; cbn in Ha.
    + apply list_elem_of_singleton in Ha as ->. done.
    + by apply elem_of_nil in Ha.
Defined.

(** X8. Deleting an activity just added gives back the document, when no
    activity of the document had the id of the new one; this holds also
    when the addition did nothing (no document, no [days], no such day). *)
Theorem delete_undoes_add (n : Z) (a : Activity) (doc : option ItineraryData) :
  (∀ d ds, doc = Some d → days d = Some ds → find_activity (id a) ds = None) →
  deleteActivity (id a) (addActivity n a doc) = doc.
Proof.
  intros Hfresh. destruct doc as [[m [ds|]]|]; [|done..].
  specialize (Hfresh _ ds eq_refl eq_refl). unfold addActivity. cbn [days meta].
  destruct (list_find _ ds) as [[i day]|] eqn:E; cbn.
  - by rewrite (deleteActivity_days_pushed n a ds i day).
  - by rewrite deleteActivity_days_missing.
Qed.

Lemma delete_undoes_add_witness :
  deleteActivity "a1" (addActivity 2 museum (Some trip)) = Some trip.
Proof.
  apply (delete_undoes_add 2 museum (Some trip)).
  intros d ds [= <-] [= <-]. by vm_compute.
Defined.

(** X9. An [itinerary-update] is idempotent: applying the same update a second
    time changes nothing more. *)
Theorem itinerary_update_idempotent (u : ItineraryUpdates) (doc : option ItineraryData) :
  updateItinerary u (updateItinerary u doc) = updateItinerary u doc ∧
  applyEdit (itinerary_update u) (applyEdit (itinerary_update u) doc)
  = applyEdit (itinerary_update u) doc.
Proof.
  assert (updateItinerary u (updateItinerary u doc) = updateItinerary u doc) as H; [|done].
  destruct doc as [d|]; [|done]. cbn. unfold spread_itinerary. cbn.
  rewrite obj_spread_idempotent. by destruct (upd_days u).
Qed.


(** X11. A broadcast never throws and changes nothing but the sessions. It
    sends its message, and nothing else, to exactly the registered sockets
    that are not excluded, are open and accept the send, whatever happens
    with the other sockets; the sockets whose send throws, and only they,
    lose their session. *)
Theorem broadcast_isolates_failures (env : Env) (message : ServerMessage)
    (exclude : option WebSocket) (s : State) :
  let r := broadcast env message exclude s in
  outcome_of r = inr tt ∧
  itineraryData (state_of r) = itineraryData s ∧
  collaborators (state_of r) = collaborators s ∧
  editHistory (state_of r) = editHistory s ∧
  storage (state_of r) = storage s ∧
  length (trace_of r) ≤ length (sessions s) ∧
  (∀ ws m, ws_send ws m ∈ trace_of r ↔
     m = message ∧ ws ∈ (sessions s).*1 ∧ Some ws ≠ exclude ∧
     is_open env ws = true ∧ send_ok env ws = true) ∧
  (∀ ws, assoc_get ws (sessions (state_of r))
         = if bool_decide (Some ws ≠ exclude) && is_open env ws && negb (send_ok env ws)
           then None else assoc_get ws (sessions s)).
Proof.
  cbn zeta. rewrite broadcast_spec. cbn. split_and!; try done.
  - apply broadcast_trace_length.
  - intros ws m. rewrite broadcast_trace_send. unfold targeted.
    rewrite andb_true_iff, bool_decide_eq_true. tauto.
  - intros ws. fold (targeted env exclude ws).
    destruct (targeted env exclude ws) eqn:Ht; [destruct (send_ok env ws) eqn:Hs|]; cbn.
    + apply broadcast_prune_keeps. by right.
    + destruct (decide (ws ∈ (sessions s).*1)) as [Hin|Hnin].
      * by apply broadcast_prune_removes.
      * by apply broadcast_prune_None, assoc_get_None.
    + apply broadcast_prune_keeps. by left.
Qed.

(** X12. A socket whose send threw during a broadcast has lost its session but
    not its presence entry: from then on every message it sends is dropped
    without any effect, and when it closes nothing is removed and nobody is
    told, so its user stays among the collaborators. *)
Theorem pruned_socket_is_ignored (env : Env) (message : ServerMessage)
    (exclude : option WebSocket) (ws : WebSocket) (s : State) :
  Some ws ≠ exclude → is_open env ws = true → send_ok env ws = false →
  let s' := state_of (broadcast env message exclude s) in
  assoc_get ws (sessions s') = None ∧
  collaborators s' = collaborators s ∧
  (∀ env' m, webSocketMessage env' ws (Some m) s' = (s', [], inr tt)) ∧
  (∀ env', handleDisconnect env' ws s' = (s', [], inr tt)).
Proof.
  intros Hex Hopen Hsend s'.
  assert (assoc_get ws (sessions s') = None) as Hnone.
  { unfold s'. rewrite broadcast_spec. cbn.
    assert (targeted env exclude ws = true) as Ht.
    { unfold targeted. by rewrite Hopen, bool_decide_true. }
    destruct (decide (ws ∈ (sessions s).*1)) as [Hin|Hnin].
    - by apply broadcast_prune_removes.
    - by apply broadcast_prune_None, assoc_get_None. }
  split_and!; [done| |..].
  - unfold s'. by rewrite broadcast_spec.
  - intros env' m. by rewrite webSocketMessage_eq, Hnone.
  - intros env'. by rewrite handleDisconnect_eq, Hnone.
Qed.

Lemma pruned_socket_is_ignored_witness :
  let env := mkEnv 1000 0 true (λ _, true) (λ ws, negb (ws =? 2)) in
  let s' := state_of (broadcast env (user_left "x") None trip1) in
  sessions s' = [(1, alice)] ∧
  webSocketMessage env_ok 2 (Some (chat "hello")) s' = (s', [], inr tt).
Proof.
  intros env s'.
  destruct (pruned_socket_is_ignored env (user_left "x") None 2 trip1
              ltac:(done) eq_refl eq_refl) as (_ & _ & H & _).
  split; [by vm_compute|]. apply H.
Defined.

(** X13. [webSocketMessage] never throws. A frame that does not parse is logged
    and changes nothing. An [edit] whose durable write fails is logged too:
    the document in memory keeps the edit, nothing is stored, the history is
    not extended and no socket, the sender's included, is sent anything. *)
Theorem webSocketMessage_never_throws (env : Env) (ws : WebSocket)
    (message : option ClientMessage) (s : State) :
  outcome_of (webSocketMessage env ws message s) = inr tt ∧
  (message = None →
   webSocketMessage env ws message s
   = (s, [console_error "Error handling WebSocket message"], inr tt)) ∧
  (∀ user action,
     message = Some (edit action) → assoc_get ws (sessions s) = Some user →
     put_ok env = false →
     webSocketMessage env ws message s
     = (set_itineraryData (applyEdit (data action)) s,
        [console_error "Error handling WebSocket message"], inr tt)).
Proof.
  rewrite webSocketMessage_eq. split_and!.
  - destruct message as [m|]; [|done].
    destruct (assoc_get ws (sessions s)) as [user|]; [|done].
    destruct m as [a|c|aid|aid v|text|]; cbn.
    + destruct (put_ok env) eqn:Hput; [|done]. by rewrite handleEdit_put_ok.
    + by rewrite handleCursorUpdate_eq.
    + unfold handleTypingIndicator. by rewrite broadcast_spec.
    + rewrite handleVote_eq. destruct (itineraryData s) as [doc|]; [|done].
      destruct (days doc) as [ds|]; [|done].
      by destruct (vote_days (user_id user) aid v ds) as [[ds' votes']|].
    + unfold handleChat. by rewrite broadcast_spec.
    + done.
  - by intros ->.
  - intros user action -> -> ->. done.
Qed.

(** X14. [handleSession] registers the socket under a user made of the
    parameters of the request (a generated id, the name Anonymous and an
    empty e-mail address stand in for missing ones, the color is one of the
    eight of the palette) and records the user's presence with the current
    time and no cursor. The socket is first sent the [init] message, with
    the document and the collaborators, the new one included, and is sent
    nothing else; the other open sockets are sent [user-joined]. When the
    [init] send throws, the handler throws with the session and the
    presence already registered, and nobody is told. *)
Theorem handleSession_registers (env : Env) (ws : WebSocket)
    (userId userName userEmail : option string) (generated : string) (s : State) :
  let user := session_user env userId userName userEmail generated in
  let presence := mkPresence (user_id user) (user_name user) (user_color user)
                             (Date_now env) None in
  let joined := user_joined (user_id user) (user_name user) (user_color user) in
  let r := handleSession env ws userId userName userEmail generated s in
  user_color user ∈ colors ∧
  assoc_get ws (sessions (state_of r)) = Some user ∧
  assoc_get (user_id user) (collaborators (state_of r)) = Some presence ∧
  itineraryData (state_of r) = itineraryData s ∧
  storage (state_of r) = storage s ∧
  (if send_ok env ws then
     (∃ rest,
        trace_of r
        = ws_send ws (init_message (itineraryData s) user
                                   (snd <$> collaborators (state_of r))) :: rest ∧
        (∀ m, ws_send ws m ∉ rest) ∧
        (∀ ws' m, ws_send ws' m ∈ rest → m = joined) ∧
        (∀ ws' u, ws' ≠ ws → (ws', u) ∈ sessions s →
           is_open env ws' = true → send_ok env ws' = true →
           ws_send ws' joined ∈ rest)) ∧
     outcome_of r = inr tt
   else trace_of r = [] ∧ outcome_of r = inl SendError).
Proof.
  cbn zeta. split; [apply generateUserColor_palette|].
  destruct (send_ok env ws) eqn:Hok.
  - rewrite handleSession_ok by done. cbn. split_and!; try done.
    + rewrite broadcast_prune_keeps, assoc_get_set_eq; [done|]. left.
      unfold targeted. rewrite bool_decide_false; [done|]. by intros Hn.
    + apply assoc_get_set_eq.
    + eexists. split; [done|]. split_and!.
      * intros m (_ & _ & Ht & _)%broadcast_trace_send. unfold targeted in Ht.
        rewrite bool_decide_false in Ht; [done|]. by intros Hn.
      * by intros ws' m (-> & _)%broadcast_trace_send.
      * intros ws' u Hne Hin Hopen Hsend. apply broadcast_trace_send.
        split_and!; [done| | |done].
        -- apply list_elem_of_fmap. exists (ws', u). split; [done|].
           by apply assoc_set_elem_ne.
        -- unfold targeted. rewrite Hopen, bool_decide_true; [done|]. congruence.
  - rewrite handleSession_fails by done. cbn. split_and!; try done; apply assoc_get_set_eq.
Qed.

(** X15. [handleDisconnect] of a registered socket removes its session and the
    presence entry of its user and tells the remaining open sockets that
    the user left; nothing is sent to the closed socket, and the document
    is not touched. For a socket without a session it does nothing. *)
Theorem handleDisconnect_unregisters (env : Env) (ws : WebSocket) (s : State) :
  let r := handleDisconnect env ws s in
  outcome_of r = inr tt ∧
  itineraryData (state_of r) = itineraryData s ∧
  storage (state_of r) = storage s ∧
  (∀ m, ws_send ws m ∉ trace_of r) ∧
  (assoc_get ws (sessions s) = None → r = (s, [], inr tt)) ∧
  (∀ user, assoc_get ws (sessions s) = Some user →
     assoc_get ws (sessions (state_of r)) = None ∧
     assoc_get (user_id user) (collaborators (state_of r)) = None ∧
     (∀ uid, uid ≠ user_id user →
        assoc_get uid (collaborators (state_of r)) = assoc_get uid (collaborators s)) ∧
     (∀ ws' m, ws_send ws' m ∈ trace_of r → m = user_left (user_id user)) ∧
     (∀ ws' u, ws' ≠ ws → (ws', u) ∈ sessions s →
        is_open env ws' = true → send_ok env ws' = true →
        ws_send ws' (user_left (user_id user)) ∈ trace_of r)).
Proof.
  cbn zeta. rewrite handleDisconnect_eq.
  destruct (assoc_get ws (sessions s)) as [user|] eqn:E; cbn.
  - split_and!; try done.
    + intros m (_ & Hin & _)%broadcast_trace_send.
      by apply (assoc_get_None ws (assoc_delete ws (sessions s))) in Hin;
        [|apply assoc_get_delete_eq].
    + intros user' [= <-]. split_and!.
      * apply broadcast_prune_None, assoc_get_delete_eq.
      * apply assoc_get_delete_eq.
      * intros uid Hne. by apply assoc_get_delete_ne.
      * by intros ws' m (-> & _)%broadcast_trace_send.
      * intros ws' u Hne Hin Hopen Hsend. apply broadcast_trace_send.
        split_and!; [done| |unfold targeted; by rewrite Hopen, bool_decide_true|done].
        apply list_elem_of_fmap. exists (ws', u). split; [done|].
        unfold assoc_delete. by apply list_elem_of_filter.
  - split_and!; try done. intros m Hin. by apply elem_of_nil in Hin.
Qed.

(** X16. Presence is keyed by user id, sessions by socket: when a user is
    connected through two sockets and one of them closes, the user is
    removed from the collaborators although the other socket keeps its
    session. *)
Theorem presence_is_keyed_by_user (env : Env) (ws1 ws2 : WebSocket) (u1 u2 : User)
    (s : State) :
  ws1 ≠ ws2 →
  assoc_get ws1 (sessions s) = Some u1 → assoc_get ws2 (sessions s) = Some u2 →
  user_id u1 = user_id u2 →
  is_open env ws2 = false ∨ send_ok env ws2 = true →
  let s' := state_of (handleDisconnect env ws1 s) in
  assoc_get ws2 (sessions s') = Some u2 ∧
  assoc_get (user_id u2) (collaborators s') = None.
Proof.
  intros Hne H1 H2 Hid Hws2 s'. unfold s'. rewrite handleDisconnect_eq, H1. cbn. split.
  - rewrite broadcast_prune_keeps.
    + by rewrite assoc_get_delete_ne.
    + unfold targeted. destruct Hws2 as [->| ->]; [left|by right]. apply andb_false_r.
  - rewrite <-Hid. apply assoc_get_delete_eq.
Qed.

Lemma presence_is_keyed_by_user_witness :
  let s := mkState [(1, alice); (2, alice)] (Some trip)
                   [("alice", mkPresence "alice" "Alice" "#3B82F6" 5 None)] [] None in
  let s' := state_of (handleDisconnect env_ok 1 s) in
  assoc_get 2 (sessions s') = Some alice ∧ collaborators s' = [].
Proof.
  intros s s'.
  destruct (presence_is_keyed_by_user env_ok 1 2 alice alice s
              ltac:(done) eq_refl eq_refl eq_refl (or_intror eq_refl)) as [H _].
  split; [exact H|by vm_compute].
Defined.

(** X17. After an [edit] or a [create] whose durable write succeeds, an object
    built anew from storage starts with exactly the document that was in
    memory, and with no sessions, no collaborators and an empty history. *)
Theorem restart_restores_persisted_document (env : Env) (s : State) :
  put_ok env = true →
  (∀ user action,
     let s' := state_of (handleEdit env user action s) in
     constructor (storage s') = mkState [] (itineraryData s') [] [] (storage s')) ∧
  (∀ itinerary,
     let s' := state_of (create env itinerary s) in
     itineraryData s' = Some itinerary ∧
     constructor (storage s') = mkState [] (Some itinerary) [] [] (storage s')).
Proof.
  intros Hput. split.
  - intros user action. cbn zeta. rewrite handleEdit_put_ok by done. cbn.
    unfold constructor. by destruct (applyEdit _ _).
  - intros itinerary. unfold create, ctx_storage_put. rewrite Hput. done.
Qed.

Lemma restart_restores_persisted_document_witness :
  itineraryData (constructor (storage (state_of (handleEdit env_ok alice add_museum trip1))))
  = Some trip_with_museum.
Proof.
  destruct (restart_restores_persisted_document env_ok trip1 eq_refl) as [H _].
  rewrite (H alice add_museum). by vm_compute.
Defined.

(** X18. The edit history never holds more than 100 actions, whatever events
    the object handles from its construction on: no event takes a history
    of at most 100 actions beyond 100. *)
Theorem editHistory_bounded (es : list (Env * Event)) :
  (∀ s, length (editHistory s) ≤ 100 → length (editHistory (run es s).1) ≤ 100) ∧
  (∀ stored, length (editHistory (run es (constructor stored)).1) ≤ 100).
Proof.
  assert (∀ s, length (editHistory s) ≤ 100 → length (editHistory (run es s).1) ≤ 100) as H.
  { induction es as [|[env e] rest IH]; intros s Hs; [done|].
    cbn [run fst]. apply IH.
    destruct (handle_editHistory env e s) as [->|[a ->]]; [done|].
    by apply push_history_bounded. }
  split; [done|]. intros stored. apply H. cbn. lia.
Qed.

End CollaborativeItinerary.

(** ** Chat *)

Module Chat.

(** *** The D1 database *)

Record MessageRow := mkMessageRow {
  conversation_id : string;
  row_role : string;
  content : string;
  created_at : Z
}.

Record ConversationRow := mkConversationRow {
  conv_id : string;
  conv_user_id : string;
  title : option string
}.

Record SessionRow := mkSessionRow {
  token : string;
  session_user_id : string;
  expires_at : Z;
  session_created_at : Z
}.

Record UserRow := mkUserRow { user_id : string; email : string; name : string }.

Record D1 := mkD1 {
  chat_messages : list MessageRow;
  chat_conversations : list ConversationRow;
  session : list SessionRow;
  user : list UserRow
}.

(** [interface AuthUser] *)
Record AuthUser := mkAuthUser { userId : string; auth_email : string; auth_name : string }.

(** Stable insertion by [created_at], for [ORDER BY created_at ASC]: rows
    with the same [created_at] stay in table order, as SQLite returns them. *)
Fixpoint insert_by_created_at (r : MessageRow) (rows : list MessageRow) : list MessageRow :=
  match rows with
  | [] => [r]
  | r' :: rows' =>
      if (created_at r <=? created_at r')%Z then r :: r' :: rows'
      else r' :: insert_by_created_at r rows'
  end.

Definition order_by_created_at (rows : list MessageRow) : list MessageRow :=
  foldr insert_by_created_at [] rows.

(** [SELECT content FROM chat_messages WHERE conversation_id = ? ORDER BY created_at ASC] *)
Definition select_messages (cid : string) (db : D1) : list MessageRow :=
  order_by_created_at (filter (λ r, conversation_id r = cid) (chat_messages db)).

(** The rows of a conversation, in table order. *)
Definition rows_of (cid : string) (db : D1) : list MessageRow :=
  filter (λ r, conversation_id r = cid) (chat_messages db).

(** [DELETE FROM chat_messages WHERE conversation_id = ?] *)
Definition delete_messages (cid : string) (db : D1) : D1 :=
  mkD1 (filter (λ r, conversation_id r ≠ cid) (chat_messages db))
       (chat_conversations db) (session db) (user db).

(** [INSERT INTO chat_messages (conversation_id, role, content, created_at) VALUES ...] *)
Definition insert_message (r : MessageRow) (db : D1) : D1 :=
  mkD1 (chat_messages db ++ [r]) (chat_conversations db) (session db) (user db).

(** [session s JOIN user u ON s.user_id = u.id] *)
Definition session_join_user (db : D1) : list (SessionRow * UserRow) :=
  s ← session db; u ← filter (λ u, user_id u = session_user_id s) (user db); [(s, u)].

(** The query of [validateToken]: [WHERE s.token = ? AND s.expires_at > ?], first row. *)
Definition select_session_by_token (tok : string) (now : Z) (db : D1)
    : option (SessionRow * UserRow) :=
  head (filter (λ su, token su.1 = tok ∧ (now < expires_at su.1)%Z) (session_join_user db)).

(** [ORDER BY s.created_at DESC LIMIT 1]: a row created latest, the first
    of them in join order. *)
Definition latest (rows : list (SessionRow * UserRow)) : option (SessionRow * UserRow) :=
  foldl (λ best su,
           match best with
           | None => Some su
           | Some b =>
               if (session_created_at b.1 <? session_created_at su.1)%Z
               then Some su else Some b
           end) None rows.

(** [WHERE s.user_id = ? AND s.expires_at > ? ORDER BY s.created_at DESC LIMIT 1] *)
Definition select_valid_session (uid : string) (now : Z) (db : D1)
    : option (SessionRow * UserRow) :=
  latest (filter (λ su, session_user_id su.1 = uid ∧ (now < expires_at su.1)%Z)
                 (session_join_user db)).

(** [SELECT ... FROM chat_conversations WHERE id = ?], first row. *)
Definition select_conversation (cid : string) (db : D1) : option ConversationRow :=
  head (filter (λ c, conv_id c = cid) (chat_conversations db)).

(** [INSERT INTO chat_conversations (id, user_id, title) VALUES (?, ?, ?)] *)
Definition insert_conversation (c : ConversationRow) (db : D1) : D1 :=
  mkD1 (chat_messages db) (chat_conversations db ++ [c]) (session db) (user db).

(** The statements sent to D1, as the trace records them. *)
Inductive Statement :=
| SelectMessages (cid : string)
| DeleteMessages (cid : string)
| InsertMessage (cid role content : string)
| SelectSessionByToken (tok : string)
| SelectValidSession (uid : string)
| SelectConversationUser (cid : string)
| SelectConversationId (cid : string)
| SelectConversationTitle (cid : string)
| SelectConversationsOf (uid : string)
| InsertConversation (cid uid title : string).

Inductive Effect :=
| d1 (st : Statement)
| console_error (what : string)
| notify (uid : string)                        (* POST /notify to the user's NotificationManager *)
| background_title (cid uid : string).         (* generateConversationTitle, not awaited *)

Inductive Exception :=
| D1Error
| SyntaxError
| NoConversationId                   (* "No conversationId available" *)
| Unauthorized_NoValidSession        (* "Unauthorized: No valid session found" *)
| Unauthorized_SessionExpired.       (* "Unauthorized: Session expired or not found" *)

Definition unauthorized (e : Exception) : bool :=
  match e with
  | Unauthorized_NoValidSession | Unauthorized_SessionExpired => true
  | _ => false
  end.

(** What [requireAuth] returns: the user and the token, or a 401 response. *)
Inductive AuthResult :=
| Authenticated (user : AuthUser) (token : string)
| NoTokenProvided     (* 401 "No token provided" *)
| InvalidToken.       (* 401 "Invalid token" *)

(** What the platform decides: the clock, and which of the D1 statements
    the object issues fail, counted from the object's creation. *)
Record Env := mkEnv {
  Date_now : Z;
  datetime_now : nat → Z;
  d1_fails : nat → bool
}.

(** The messages of the AI SDK and their JSON form. *)
Class Json := {
  Message : Type;
  role : Message → string;
  JSON_stringify : Message → string;
  JSON_parse : string → option Message   (* [None]: a [SyntaxError] *)
}.

Section Chat.
Context `{json : Json}.

Record State := mkState {
  messages : list Message;              (* this.messages *)
  storage : gmap string string;         (* this.ctx.storage *)
  db : D1;                              (* this.env.DB *)
  d1_count : nat                        (* statements issued so far *)
}.

Abbreviation Handler := (M State Effect Exception).

Definition set_messages (ms : list Message) (s : State) : State :=
  mkState ms (storage s) (db s) (d1_count s).
Definition set_db (f : D1 → D1) (s : State) : State :=
  mkState (messages s) (storage s) (f (db s)) (d1_count s).

(** [await this.ctx.storage.put(key, value)] *)
Definition storage_put (key value : string) : Handler unit :=
  modify (λ s, mkState (messages s) (<[key := value]> (storage s)) (db s) (d1_count s)).

(** One statement: it is counted and recorded, then fails or runs. *)
Definition d1_run {A} (env : Env) (st : Statement) (f : nat → D1 → D1 * A) : Handler A :=
  s ← get;
  modify (λ s, mkState (messages s) (storage s) (db s) (S (d1_count s)));;
  emit (d1 st);;
  if d1_fails env (d1_count s) then throw D1Error
  else modify (set_db (λ d, (f (d1_count s) d).1));; mret (f (d1_count s) (db s)).2.

Definition d1_query {A} (env : Env) (st : Statement) (q : D1 → A) : Handler A :=
  d1_run env st (λ _ d, (d, q d)).

Definition d1_update (env : Env) (st : Statement) (u : nat → D1 → D1) : Handler unit :=
  d1_run env st (λ k d, (u k d, tt)).

(** [validateToken(db, token)] of the auth middleware. *)
Definition validateToken (env : Env) (tok : string) : Handler (option AuthUser) :=
  row ← d1_query env (SelectSessionByToken tok) (select_session_by_token tok (Date_now env));
  mret (match row with
        | Some (_, u) => Some (mkAuthUser (user_id u) (email u) (name u))
        | None => None
        end).

Record Request := mkRequest {
  query_token : option string;            (* ?token= *)
  query_conversationId : option string;   (* ?conversationId= *)
  authorization : option string;          (* the Authorization header *)
  query_pk : option string;               (* ?_pk= *)
  pathname : string
}.

(** The token of a request: the [token] parameter, else a Bearer header,
    else the [_pk] parameter. *)
Definition request_token (r : Request) : option string :=
  if truthy (query_token r) then query_token r
  else
    match authorization r with
    | Some h =>
        if String.prefix "Bearer " h then Some (String.substring 7 (String.length h - 7) h)
        else if truthy (query_pk r) then query_pk r else None
    | None => if truthy (query_pk r) then query_pk r else None
    end.

(** [s.includes(sub)] *)
Definition includes (sub s : string) : bool :=
  match String.index 0 sub s with Some _ => true | None => false end.

Inductive Response :=
| EmptyArray     (* 200 with the JSON [[]] *)
| Super.         (* handed on to [super.onRequest] *)

(** [needsReload] of [onRequest]. *)
Definition needsReload (conversationId : string) (storedConversationId : option string)
    (ms : list Message) : bool :=
  negb (truthy storedConversationId)
  || negb (bool_decide (Some conversationId = storedConversationId))
  || (length ms =? 0).

(** The [try] block that loads the log of a conversation. *)
Definition load_messages (env : Env) (conversationId : string) : Handler unit :=
  results ← d1_query env (SelectMessages conversationId) (select_messages conversationId);
  if (0 <? length results) then
    match mapM JSON_parse (content <$> results) with
    | Some ms => modify (set_messages ms)
    | None => throw SyntaxError
    end
  else mret tt.

(** [onRequest], lines 71-109: rebind the object to the requested
    conversation and reload its log when needed. *)
Definition bind_conversation (env : Env) (conversationId : option string) : Handler unit :=
  s ← get;
  let storedConversationId := storage s !! "conversationId" in
  if truthy conversationId then
    if needsReload (default "" conversationId) storedConversationId (messages s) then
      modify (set_messages []);;
      try_catch (load_messages env (default "" conversationId))
                (λ _, emit (console_error "Error loading messages from DB"))
    else mret tt
  else mret tt.

(** Lines 111-115. *)
Definition save_conversationId (conversationId : option string) : Handler unit :=
  if truthy conversationId then storage_put "conversationId" (default "" conversationId)
  else mret tt.

(** Lines 117-132. *)
Definition save_token (env : Env) (tok : option string) : Handler unit :=
  if truthy tok then
    storage_put "userToken" (default "" tok);;
    u ← validateToken env (default "" tok);
    match u with
    | Some u => storage_put "userId" (userId u)
    | None => emit (console_error "Token validation failed in onRequest")
    end
  else mret tt.

(** Lines 134-145. *)
Definition respond (request : Request) : Handler Response :=
  s ← get;
  if includes "/get-messages" (pathname request) && (length (messages s) =? 0)
  then mret EmptyArray
  else mret Super.

Definition onRequest (env : Env) (request : Request) : Handler Response :=
  bind_conversation env (query_conversationId request);;
  save_conversationId (query_conversationId request);;
  save_token env (request_token request);;
  respond request.

(** [notifyConversationUpdate]: the list of the user's conversations is
    read and posted to the user's NotificationManager. The URL of the
    request is [https://internal/notify], without a query, so the object
    answers 400 with the text [Missing userId] (lines 23-27 of
    notification-manager.ts), and [await response.json()] rejects on that
    text. Whatever is thrown is caught and logged: the [catch] block runs
    in every call. *)
Definition notifyConversationUpdate (env : Env) (uid : string) : Handler unit :=
  try_catch
    (d1_query env (SelectConversationsOf uid) (λ _, tt);;
     emit (notify uid);;
     throw SyntaxError)
    (λ _, emit (console_error "notifyConversationUpdate")).

(** What [onChatMessage] has settled when it starts the stream; the
    [wrappedOnFinish] closure captures [conversationId] and [userId]. *)
Record Turn := mkTurn {
  turn_conversationId : string;
  turn_userId : string;
  turn_user : AuthUser
}.

(** [onChatMessage], lines 253-262: no stored user id, so the stored token
    is validated. *)
Definition from_stored_token (env : Env) (userId0 storedToken : option string)
    : Handler (option string) :=
  if negb (truthy userId0) && truthy storedToken then
    u ← validateToken env (default "" storedToken);
    match u with
    | Some u => storage_put "userId" (userId u);; mret (Some (userId u))
    | None => mret userId0
    end
  else mret userId0.

(** Lines 264-279: still no user id, so the owner of the conversation
    record is taken. *)
Definition from_conversation (env : Env) (cid : string) (userId1 : option string)
    : Handler string :=
  if negb (truthy userId1) then
    conversation ← d1_query env (SelectConversationUser cid) (select_conversation cid);
    match conversation with
    | Some c =>
        if truthy (Some (conv_user_id c)) then
          storage_put "userId" (conv_user_id c);; mret (conv_user_id c)
        else throw Unauthorized_NoValidSession
    | None => throw Unauthorized_NoValidSession
    end
  else mret (default "" userId1).

(** Lines 281-289: the user must have a session that has not expired. *)
Definition valid_session (env : Env) (uid : string) : Handler (SessionRow * UserRow) :=
  validSession ← d1_query env (SelectValidSession uid)
                   (select_valid_session uid (Date_now env));
  match validSession with
  | None => throw Unauthorized_SessionExpired
  | Some su => mret su
  end.

(** Lines 306-320: the header record of the conversation. *)
Definition ensure_conversation (env : Env) (cid : string) (user : AuthUser) (uid : string)
    : Handler unit :=
  existingConv ← d1_query env (SelectConversationId cid) (select_conversation cid);
  match existingConv with
  | Some _ => mret tt
  | None =>
      d1_update env (InsertConversation cid (userId user) "New conversation")
        (λ _, insert_conversation
                (mkConversationRow cid (userId user) (Some "New conversation")));;
      notifyConversationUpdate env uid
  end.

(** [onChatMessage] up to the creation of the stream. *)
Definition onChatMessage (env : Env) : Handler Turn :=
  s ← get;
  let storedToken := storage s !! "userToken" in
  let userId0 := storage s !! "userId" in
  let conversationId := storage s !! "conversationId" in
  if negb (truthy conversationId) then throw NoConversationId
  else
    let cid := default "" conversationId in
    userId1 ← from_stored_token env userId0 storedToken;
    userId2 ← from_conversation env cid userId1;
    su ← valid_session env userId2;
    let user := mkAuthUser (user_id su.2) (email su.2) (name su.2) in
    (if bool_decide (storedToken = Some (token su.1)) then mret tt
     else storage_put "userToken" (token su.1));;
    ensure_conversation env cid user userId2;;
    mret (mkTurn cid userId2 user).

(** The [for (const message of this.messages)] of [wrappedOnFinish]. *)
Fixpoint insert_loop (env : Env) (conversationId : string) (ms : list Message)
    : Handler unit :=
  match ms with
  | [] => mret tt
  | message :: rest =>
      d1_update env
        (InsertMessage conversationId (role message) (JSON_stringify message))
        (λ k, insert_message
                (mkMessageRow conversationId (role message) (JSON_stringify message)
                              (datetime_now env k)));;
      insert_loop env conversationId rest
  end.

(** The [try] block of [wrappedOnFinish] that saves the log. *)
Definition save_messages (env : Env) (conversationId : string) : Handler unit :=
  try_catch
    (d1_update env (DeleteMessages conversationId) (λ _, delete_messages conversationId);;
     s ← get;
     insert_loop env conversationId (messages s))
    (λ _, emit (console_error "Error saving messages")).

(** Lines 446-471: after the third or fourth user message, a title is
    generated in the background if the header still has the placeholder. *)
Definition title_check (env : Env) (conversationId userId : string) : Handler unit :=
  s ← get;
  let userMessageCount := length (filter (λ m, role m = "user") (messages s)) in
  if (3 <=? userMessageCount) && (userMessageCount <=? 4) then
    conv ← d1_query env (SelectConversationTitle conversationId)
             (select_conversation conversationId);
    match conv with
    | Some c =>
        if bool_decide (title c = Some "New conversation") then
          if truthy (Some userId) then emit (background_title conversationId userId)
          else mret tt
        else mret tt
    | None => mret tt
    end
  else mret tt.

(** [wrappedOnFinish], with the [conversationId] and [userId] that
    [onChatMessage] captured; [onFinish] is the callback of the agent
    library that it wraps. *)
Definition wrappedOnFinish (env : Env) (onFinish : Handler unit)
    (conversationId userId : string) : Handler unit :=
  onFinish;;
  save_messages env conversationId;;
  title_check env conversationId userId.

(** *** Definitions used to state the properties *)

(** The rows that the loop inserts, the first by statement number [k]. *)
Fixpoint new_rows (env : Env) (cid : string) (k : nat) (ms : list Message)
    : list MessageRow :=
  match ms with
  | [] => []
  | m :: rest =>
      mkMessageRow cid (role m) (JSON_stringify m) (datetime_now env k)
        :: new_rows env cid (S k) rest
  end.

Definition append_rows (rows : list MessageRow) (d : D1) : D1 :=
  mkD1 (chat_messages d ++ rows) (chat_conversations d) (session d) (user d).

Definition load_error : Effect := console_error "Error loading messages from DB".

(** The messages that a successful load leaves in memory. *)
Definition loaded (cid : string) (d : D1) : option (list Message) :=
  mapM JSON_parse (content <$> select_messages cid d).

Definition token_user (env : Env) (tok : string) (d : D1) : option AuthUser :=
  match select_session_by_token tok (Date_now env) d with
  | Some (_, u) => Some (mkAuthUser (user_id u) (email u) (name u))
  | None => None
  end.

Definition by_created_at (r1 r2 : MessageRow) : Prop := (created_at r1 ≤ created_at r2)%Z.

(** The user id that [onChatMessage] settles on: the stored one (which
    [onRequest] records when the request's token is valid), else the user
    of the stored token, else the owner of the conversation record. *)
Definition resolved (stored storedToken : option string) (token_owner : option AuthUser)
    (conversation : option ConversationRow) : option string :=
  if truthy stored then stored
  else
    let from_token := if truthy storedToken then userId <$> token_owner else None in
    if truthy from_token then from_token
    else
      match conversation with
      | Some c => if truthy (Some (conv_user_id c)) then Some (conv_user_id c) else None
      | None => None
      end.

Definition resolve_userId (env : Env) (cid : string) (s : State) : option string :=
  resolved (storage s !! "userId") (storage s !! "userToken")
           (token_user env (default "" (storage s !! "userToken")) (db s))
           (select_conversation cid (db s)).

(** A new instance of the object over the same storage and database: the
    constructor clears the log. *)
Definition constructor (s : State) : State := set_messages [] s.

(** The token that [requireAuth] takes from a request: the Authorization
    header without its first [Bearer ], else the [token] parameter. *)
Definition requireAuth_token (request : Request) : option string :=
  let token := String_remove_first "Bearer " <$> authorization request in
  if truthy token then token
  else if truthy (query_token request) then query_token request else None.

(** [requireAuth(request, env)] of the auth middleware. *)
Definition requireAuth (env : Env) (request : Request) : Handler AuthResult :=
  let token := requireAuth_token request in
  if negb (truthy token) then mret NoTokenProvided
  else
    user ← validateToken env (default "" token);
    match user with
    | Some user => mret (Authenticated user (default "" token))
    | None => mret InvalidToken
    end.

(** Handlers that leave the database and the log as they are. *)
Definition reads {A} (m : Handler A) : Prop :=
  ∀ s, db (state_of (m s)) = db s ∧ messages (state_of (m s)) = messages s.

(** Handlers that leave the log as it is, and the database too when they throw. *)
Definition careful {A} (m : Handler A) : Prop :=
  ∀ s, messages (state_of (m s)) = messages s ∧
       ∀ e, outcome_of (m s) = inl e → db (state_of (m s)) = db s.

(** The number of user messages in the log. *)
Definition userMessageCount (s : State) : nat :=
  length (filter (λ m, role m = "user") (messages s)).

(** What a handler that returns has made of a database [d0]. *)
Definition returns_with {A} (m : Handler A) (d0 : D1) (Q : A → D1 → Prop) : Prop :=
  ∀ s, db s = d0 → ∀ a, outcome_of (m s) = inr a → Q a (db (state_of (m s))).

(** The header that [onChatMessage] creates for a conversation. *)
Definition new_conversation (cid uid : string) : ConversationRow :=
  mkConversationRow cid uid (Some "New conversation").

End Chat.

Abbreviation Handler := (M State Effect Exception).

(** *** A small instance *)

(** Messages as a role and a text, serialized as [role:text]. *)
Definition SimpleMessage : Type := string * string.
Definition simple_role (m : SimpleMessage) : string := m.1.
Definition simple_stringify (m : SimpleMessage) : string := m.1 +:+ ":" +:+ m.2.
Definition simple_parse (s : string) : option SimpleMessage :=
  match String.index 0 ":" s with
  | Some i => Some (String.substring 0 i s, String.substring (S i) (String.length s - S i) s)
  | None => None
  end.
Definition simple_json : Json :=
  Build_Json SimpleMessage simple_role simple_stringify simple_parse.

Definition a_db : D1 :=
  mkD1 [mkMessageRow "c1" "user" "user:hello" 10;
        mkMessageRow "c2" "user" "user:other" 11;
        mkMessageRow "c1" "assistant" "assistant:hi" 12]
       [mkConversationRow "c1" "u1" (Some "New conversation")]
       [mkSessionRow "t1" "u1" 5000 1]
       [mkUserRow "u1" "ann@example.org" "Ann"].

Definition env_ok : Env := mkEnv 1000 (λ k, Z.of_nat k) (λ _, false).
Definition env_d1_down : Env := mkEnv 1000 (λ k, Z.of_nat k) (λ _, true).
Definition env_late : Env := mkEnv 6000 (λ k, Z.of_nat k) (λ _, false).

(** A new object, nothing bound. *)
Definition fresh : State (json := simple_json) :=
  mkState (json := simple_json) [] ∅ a_db 0.

(** An object bound to [c1] for user [u1], one turn ahead of the database. *)
Definition bound_c1 : State (json := simple_json) :=
  mkState (json := simple_json)
          [("user", "hello"); ("assistant", "hi"); ("user", "thanks")]
          (<["conversationId" := "c1"]> (<["userId" := "u1"]> ∅)) a_db 0.

(** An object bound to a conversation that has no record and no user. *)
Definition unknown_c9 : State (json := simple_json) :=
  mkState (json := simple_json) [] (<["conversationId" := "c9"]> ∅) a_db 0.

Definition get_messages_c1 : Request :=
  mkRequest None (Some "c1") None None "/agents/chat/c1/get-messages".
Definition chat_c9_with_token : Request :=
  mkRequest (Some "t1") (Some "c9") None None "/agents/chat/c9".

(** Messages as a flag (is it the user's) and a text, serialized with a
    one-letter tag; parsing inverts serializing. *)
Definition tagged_json : Json :=
  Build_Json (bool * string)
    (λ m, if m.1 then "user" else "assistant")
    (λ m, (if m.1 then "u" else "a") +:+ m.2)
    (λ s, match s with
          | String "u"%char t => Some (true, t)
          | String "a"%char t => Some (false, t)
          | _ => None
          end).

Definition tagged_c1 : State (json := tagged_json) :=
  mkState (json := tagged_json) [(true, "hello"); (false, "hi")]
          (<["conversationId" := "c1"]> (<["userId" := "u1"]> ∅)) a_db 0.

(** An object bound to a conversation without a header, for user [u1]. *)
Definition bound_c9 : State (json := simple_json) :=
  mkState (json := simple_json) []
          (<["conversationId" := "c9"]> (<["userId" := "u1"]> ∅)) a_db 0.

(** D1 fails at its third statement. *)
Definition env_third_fails : Env := mkEnv 1000 (λ k, Z.of_nat k) (λ k, k =? 2).

Section ChatFacts.
Context `{json : Json}.

(** *** D1 statements *)

Lemma d1_run_ok {A} env st (f : nat → D1 → D1 * A) s :
  d1_fails env (d1_count s) = false →
  d1_run env st f s
  = (mkState (messages s) (storage s) (f (d1_count s) (db s)).1 (S (d1_count s)),
     [d1 st], inr (f (d1_count s) (db s)).2).
Proof. intros Hok. unfold d1_run. unfold_handler. cbn. by rewrite Hok. Qed.

Lemma d1_run_fails {A} env st (f : nat → D1 → D1 * A) s :
  d1_fails env (d1_count s) = true →
  d1_run env st f s
  = (mkState (messages s) (storage s) (db s) (S (d1_count s)), [d1 st], inl D1Error).
Proof. intros Hko. unfold d1_run. unfold_handler. cbn. by rewrite Hko. Qed.

Lemma d1_query_ok {A} env st (q : D1 → A) s :
  d1_fails env (d1_count s) = false →
  d1_query env st q s
  = (mkState (messages s) (storage s) (db s) (S (d1_count s)), [d1 st], inr (q (db s))).
Proof. intros Hok. unfold d1_query. by rewrite d1_run_ok. Qed.

(** A query never changes the database, whether it fails or not. *)
Lemma d1_query_frame {A} env st (q : D1 → A) s :
  db (state_of (d1_query env st q s)) = db s ∧
  messages (state_of (d1_query env st q s)) = messages s ∧
  storage (state_of (d1_query env st q s)) = storage s ∧
  d1_count (state_of (d1_query env st q s)) = S (d1_count s) ∧
  trace_of (d1_query env st q s) = [d1 st].
Proof.
  unfold d1_query. destruct (d1_fails env (d1_count s)) eqn:E.
  - by rewrite d1_run_fails.
  - by rewrite d1_run_ok.
Qed.

(** *** Saving the log at the end of a turn *)

Lemma insert_loop_ok env cid ms s :
  (∀ i, i < length ms → d1_fails env (d1_count s + i) = false) →
  insert_loop env cid ms s
  = (mkState (messages s) (storage s)
             (append_rows (new_rows env cid (d1_count s) ms) (db s))
             (d1_count s + length ms),
     (λ m, d1 (InsertMessage cid (role m) (JSON_stringify m))) <$> ms,
     inr tt).
Proof.
  revert s. induction ms as [|m rest IH]; intros s Hok.
  - cbn. unfold append_rows. rewrite app_nil_r, Nat.add_0_r. by destruct s as [? ? [] ?].
  - cbn [insert_loop]. unfold_handler. unfold d1_update.
    rewrite d1_run_ok by (rewrite <- (Nat.add_0_r (d1_count s)); apply Hok; cbn; lia).
    cbn [fst snd]. rewrite IH.
    + cbn. unfold append_rows, insert_message. cbn.
      rewrite <- app_assoc, Nat.add_succ_r. done.
    + intros i Hi. cbn. rewrite <- Nat.add_succ_r. apply Hok. cbn. lia.
Qed.

Lemma new_rows_conversation env cid k ms :
  Forall (λ r, conversation_id r = cid) (new_rows env cid k ms).
Proof. revert k. induction ms; intros k; cbn; constructor; auto. Qed.

Lemma new_rows_contents env cid k ms :
  (λ r, (row_role r, content r)) <$> new_rows env cid k ms
  = (λ m, (role m, JSON_stringify m)) <$> ms.
Proof. revert k. induction ms as [|m ms IH]; intros k; cbn; [done|]. by rewrite IH. Qed.

Lemma filter_all {A} (P : A → Prop) `{!∀ x, Decision (P x)} l :
  Forall P l → filter P l = l.
Proof.
  induction 1 as [|x l Hx _ IH]; [done|]. by rewrite filter_cons_True, IH.
Qed.

Lemma filter_none {A} (P : A → Prop) `{!∀ x, Decision (P x)} l :
  Forall (λ x, ¬ P x) l → filter P l = [].
Proof.
  induction 1 as [|x l Hx _ IH]; [done|]. by rewrite filter_cons_False.
Qed.

Lemma rows_of_rewritten cid d rows :
  Forall (λ r, conversation_id r = cid) rows →
  rows_of cid (append_rows rows (delete_messages cid d)) = rows.
Proof.
  intros Hrows. unfold rows_of, append_rows, delete_messages. cbn.
  rewrite filter_app, (filter_all _ rows) by done.
  rewrite filter_none; [done|].
  apply Forall_forall. intros r [Hne _]%list_elem_of_filter. done.
Qed.

Lemma rows_of_other cid c d rows :
  c ≠ cid → Forall (λ r, conversation_id r = cid) rows →
  rows_of c (append_rows rows (delete_messages cid d)) = rows_of c d.
Proof.
  intros Hne Hrows. unfold rows_of, append_rows, delete_messages. cbn.
  rewrite filter_app, (filter_none _ rows), app_nil_r.
  - rewrite list_filter_filter. apply list_filter_iff. intros r.
    split; [by intros [? _]|]. intros Hc. split; [done|]. by rewrite Hc.
  - eapply Forall_impl; [done|]. cbn. intros r -> Heq. by apply Hne.
Qed.

Lemma save_messages_ok env cid s :
  (∀ i, i ≤ length (messages s) → d1_fails env (d1_count s + i) = false) →
  save_messages env cid s
  = (mkState (messages s) (storage s)
             (append_rows (new_rows env cid (S (d1_count s)) (messages s))
                          (delete_messages cid (db s)))
             (S (d1_count s) + length (messages s)),
     d1 (DeleteMessages cid)
       :: ((λ m, d1 (InsertMessage cid (role m) (JSON_stringify m))) <$> messages s),
     inr tt).
Proof.
  intros Hok. unfold save_messages. unfold_handler. unfold d1_update.
  rewrite d1_run_ok by (rewrite <- (Nat.add_0_r (d1_count s)); apply Hok; lia).
  cbn [fst snd]. rewrite insert_loop_ok; [done|].
  intros i Hi. cbn in *. rewrite <- Nat.add_succ_r. apply Hok. lia.
Qed.

Lemma title_check_frame env cid uid s :
  db (state_of (title_check env cid uid s)) = db s ∧
  messages (state_of (title_check env cid uid s)) = messages s.
Proof.
  unfold title_check. unfold_handler. cbn.
  destruct (_ && _); [|done].
  destruct (d1_query_frame env (SelectConversationTitle cid) (select_conversation cid) s)
    as (Hd & Hm & _).
  unfold_handler.
  destruct (d1_query env _ _ s) as [[s3 t3] [e|[c|]]]; cbn in *; try done.
  repeat case_match; by simplify_eq/=.
Qed.


Lemma insert_loop_fails env cid ms s j :
  j < length ms →
  (∀ i, i < j → d1_fails env (d1_count s + i) = false) →
  d1_fails env (d1_count s + j) = true →
  insert_loop env cid ms s
  = (mkState (messages s) (storage s)
             (append_rows (new_rows env cid (d1_count s) (take j ms)) (db s))
             (S (d1_count s + j)),
     (λ m, d1 (InsertMessage cid (role m) (JSON_stringify m))) <$> take (S j) ms,
     inl D1Error).
Proof.
  revert s j. induction ms as [|m rest IH]; intros s j Hj Hok Hfail; [cbn in Hj; lia|].
  cbn [insert_loop]. unfold d1_update. destruct j as [|j].
  - rewrite Nat.add_0_r in Hfail. erewrite bind_throw; [|by apply d1_run_fails].
    cbn. unfold append_rows. rewrite app_nil_r, Nat.add_0_r. by destruct s as [? ? [] ?].
  - erewrite bind_ok;
      [|apply d1_run_ok; rewrite <-(Nat.add_0_r (d1_count s)); apply Hok; lia].
    cbn [fst snd]. rewrite (IH _ j).
    + cbn. unfold append_rows, insert_message. cbn.
      rewrite <-app_assoc, Nat.add_succ_r. done.
    + cbn in Hj. lia.
    + intros i Hi. cbn. rewrite <-Nat.add_succ_r. apply Hok. lia.
    + cbn. by rewrite <-Nat.add_succ_r.
Qed.

Lemma save_messages_delete_fails env cid s :
  d1_fails env (d1_count s) = true →
  save_messages env cid s
  = (mkState (messages s) (storage s) (db s) (S (d1_count s)),
     [d1 (DeleteMessages cid); console_error "Error saving messages"], inr tt).
Proof.
  intros Hf. unfold save_messages, d1_update.
  erewrite try_catch_throw; [|eapply bind_throw; by apply d1_run_fails]. done.
Qed.

Lemma save_messages_insert_fails env cid s j :
  j < length (messages s) →
  (∀ i, i ≤ j → d1_fails env (d1_count s + i) = false) →
  d1_fails env (d1_count s + S j) = true →
  save_messages env cid s
  = (mkState (messages s) (storage s)
             (append_rows (new_rows env cid (S (d1_count s)) (take j (messages s)))
                          (delete_messages cid (db s)))
             (S (S (d1_count s + j))),
     d1 (DeleteMessages cid)
       :: ((λ m, d1 (InsertMessage cid (role m) (JSON_stringify m)))
             <$> take (S j) (messages s))
       ++ [console_error "Error saving messages"],
     inr tt).
Proof.
  intros Hj Hok Hfail. unfold save_messages, d1_update.
  erewrite try_catch_throw.
  2: { eapply bind_step;
         [apply d1_run_ok; rewrite <-(Nat.add_0_r (d1_count s)); apply Hok; lia|].
       cbn [fst snd]. rewrite bind_get. apply (insert_loop_fails _ _ _ _ j).
       - done.
       - intros i Hi. cbn. rewrite <-Nat.add_succ_r. apply Hok. lia.
       - cbn. by rewrite <-Nat.add_succ_r. }
  unfold_handler. cbn. done.
Qed.


Lemma title_check_eq env cid uid s :
  title_check env cid uid s
  = if (3 <=? userMessageCount s) && (userMessageCount s <=? 4) then
      if d1_fails env (d1_count s) then
        (mkState (messages s) (storage s) (db s) (S (d1_count s)),
         [d1 (SelectConversationTitle cid)], inl D1Error)
      else
        (mkState (messages s) (storage s) (db s) (S (d1_count s)),
         d1 (SelectConversationTitle cid)
           :: match select_conversation cid (db s) with
              | Some c =>
                  if bool_decide (title c = Some "New conversation") && truthy (Some uid)
                  then [background_title cid uid] else []
              | None => []
              end,
         inr tt)
    else (s, [], inr tt).
Proof.
  unfold title_check. rewrite bind_get. fold (userMessageCount s).
  destruct (_ && _); [|done].
  destruct (d1_fails env (d1_count s)) eqn:E.
  - erewrite bind_throw; [done|]. unfold d1_query. by apply d1_run_fails.
  - erewrite bind_ok; [|by apply d1_query_ok].
    destruct (select_conversation cid (db s)) as [c|]; [|done].
    destruct (bool_decide _); [|done]. by destruct (truthy (Some uid)).
Qed.

(** The first statement that fails, if one does. *)
Lemma first_failure (fails : nat → bool) n :
  (∀ i, i ≤ n → fails i = false) ∨
  ∃ j, j ≤ n ∧ fails j = true ∧ ∀ i, i < j → fails i = false.
Proof.
  induction n as [|n [IH|(j & Hj & Hf & Hlt)]].
  - destruct (fails 0) eqn:E.
    + right. exists 0. split_and!; [done..|]. intros i Hi. lia.
    + left. intros i Hi. by replace i with 0 by lia.
  - destruct (fails (S n)) eqn:E.
    + right. exists (S n). split_and!; [done..|]. intros i Hi. apply IH. lia.
    + left. intros i Hi. destruct (decide (i = S n)) as [->|]; [done|]. apply IH. lia.
  - right. exists j. split_and!; [lia|done..].
Qed.

(** Saving never throws, never touches the log, and never touches the rows
    of another conversation. *)
Lemma save_messages_returns env cid s :
  ∃ s2 t2, save_messages env cid s = (s2, t2, inr tt) ∧ messages s2 = messages s ∧
           ∀ c, c ≠ cid → rows_of c (db s2) = rows_of c (db s).
Proof.
  destruct (first_failure (λ i, d1_fails env (d1_count s + i)) (length (messages s)))
    as [Hok|([|j] & Hj & Hf & Hlt)].
  - eexists _, _. split; [by apply save_messages_ok|]. split; [done|].
    intros c Hne. cbn. apply rows_of_other; [done|apply new_rows_conversation].
  - rewrite Nat.add_0_r in Hf. eexists _, _.
    split; [by apply save_messages_delete_fails|done].
  - eexists _, _. split.
    + apply (save_messages_insert_fails _ _ _ j); [lia| |done].
      intros i Hi. apply Hlt. lia.
    + split; [done|]. intros c Hne. cbn.
      apply rows_of_other; [done|apply new_rows_conversation].
Qed.

(** After the save, the title check alone decides how the callback ends. *)
Lemma wrappedOnFinish_after_save env onFinish cid uid s s1 t1 s2 t2 :
  onFinish s = (s1, t1, inr tt) →
  save_messages env cid s1 = (s2, t2, inr tt) →
  messages s2 = messages s1 →
  db (state_of (wrappedOnFinish env onFinish cid uid s)) = db s2 ∧
  messages (state_of (wrappedOnFinish env onFinish cid uid s)) = messages s1 ∧
  (outcome_of (wrappedOnFinish env onFinish cid uid s) = inr tt ∨
   outcome_of (wrappedOnFinish env onFinish cid uid s) = inl D1Error
   ∧ 3 ≤ userMessageCount s1 ≤ 4) ∧
  ∃ rest,
    trace_of (wrappedOnFinish env onFinish cid uid s) = t1 ++ t2 ++ rest ∧
    ∀ ev, ev ∈ rest → ev = d1 (SelectConversationTitle cid) ∨ ev = background_title cid uid.
Proof.
  intros Hfin Hsave Hms. unfold wrappedOnFinish.
  rewrite (bind_ok _ _ _ _ _ _ Hfin), (bind_ok _ _ _ _ _ _ Hsave), title_check_eq.
  assert (userMessageCount s2 = userMessageCount s1) as ->
    by (unfold userMessageCount; by rewrite Hms).
  destruct (3 <=? userMessageCount s1) eqn:H3; cbn [andb];
    [destruct (userMessageCount s1 <=? 4) eqn:H4|].
  - apply Nat.leb_le in H3, H4. destruct (d1_fails env (d1_count s2)).
    + split_and!; [done..|right; by split|]. eexists. split; [done|].
      intros ev Hin%list_elem_of_singleton. by left.
    + split_and!; [done..|by left|]. eexists. split; [done|].
      intros ev [->|Hin]%elem_of_cons; [by left|]. right.
      destruct (select_conversation cid (db s2)) as [c|]; [|by apply elem_of_nil in Hin].
      destruct (_ && _); [|by apply elem_of_nil in Hin].
      by apply list_elem_of_singleton in Hin.
  - split_and!; [by destruct s2..|by left|]. exists []. split; [done|].
    intros ev Hin. by apply elem_of_nil in Hin.
  - split_and!; [by destruct s2..|by left|]. exists []. split; [done|].
    intros ev Hin. by apply elem_of_nil in Hin.
Qed.

(** The database and the trace that a clean [wrappedOnFinish] leaves. *)
Lemma wrappedOnFinish_saved env onFinish cid uid s s1 t1 :
  onFinish s = (s1, t1, inr tt) →
  (∀ i, i ≤ length (messages s1) → d1_fails env (d1_count s1 + i) = false) →
  db (state_of (wrappedOnFinish env onFinish cid uid s))
  = append_rows (new_rows env cid (S (d1_count s1)) (messages s1))
                (delete_messages cid (db s1)) ∧
  messages (state_of (wrappedOnFinish env onFinish cid uid s)) = messages s1 ∧
  (∃ rest,
     trace_of (wrappedOnFinish env onFinish cid uid s)
     = t1 ++ d1 (DeleteMessages cid)
          :: ((λ m, d1 (InsertMessage cid (role m) (JSON_stringify m))) <$> messages s1)
          ++ rest).
Proof.
  intros Hfin Hok. unfold wrappedOnFinish.
  rewrite (bind_ok _ _ _ _ _ _ Hfin).
  rewrite (bind_ok _ _ _ _ _ _ (save_messages_ok _ _ _ Hok)).
  set (s2 := mkState _ _ _ _).
  destruct (title_check_frame env cid uid s2) as [Hdb Hms].
  destruct (title_check env cid uid s2) as [[s3 t3] r3].
  unfold_handler. cbn in *. rewrite Hdb. split_and!; [done..|]. by exists t3.
Qed.

(** C1, amended. When the wrapped [onFinish] has returned, [wrappedOnFinish]
    sends the [DELETE] of the conversation's rows and then one [INSERT] per
    message of the in-memory log, in the order of the log, and stops at the
    first of these statements that D1 rejects: the error is caught and
    logged, not thrown, and the callback goes on to the title check, so the
    turn completes (only the [SELECT] of the title check, which runs when
    the log has three or four user messages, can still throw). The rows of
    the bound conversation are afterwards
    - exactly one row per message of the log, in the order of the log,
      each with the message's role and JSON text, when D1 executes the
      [DELETE] and every [INSERT];
    - the rows stored before, when D1 rejects the [DELETE];
    - rows for the first [j] messages of the log and no others, when D1
      executes the [DELETE] and [j] [INSERT]s and rejects the next.
    In every case the in-memory log and the rows of every other
    conversation are unchanged. *)
Theorem wrappedOnFinish_rewrites_log (env : Env) (onFinish : Handler unit)
    (conversationId userId : string) (s s1 : State) (t1 : list Effect) :
  onFinish s = (s1, t1, inr tt) →
  let r := wrappedOnFinish env onFinish conversationId userId s in
  let stored d := (λ row, (row_role row, content row)) <$> rows_of conversationId d in
  let logged ms := (λ m : Message, (role m, JSON_stringify m)) <$> ms in
  let inserts ms :=
    (λ m : Message, d1 (InsertMessage conversationId (role m) (JSON_stringify m))) <$> ms in
  let title_only (rest : list Effect) :=
    ∀ ev, ev ∈ rest → ev = d1 (SelectConversationTitle conversationId)
                     ∨ ev = background_title conversationId userId in
  messages (state_of r) = messages s1 ∧
  (∀ c, c ≠ conversationId → rows_of c (db (state_of r)) = rows_of c (db s1)) ∧
  (outcome_of r = inr tt ∨ outcome_of r = inl D1Error ∧ 3 ≤ userMessageCount s1 ≤ 4) ∧
  ((∀ i, i ≤ length (messages s1) → d1_fails env (d1_count s1 + i) = false) →
   stored (db (state_of r)) = logged (messages s1) ∧
   ∃ rest, title_only rest ∧
     trace_of r = t1 ++ (d1 (DeleteMessages conversationId) :: inserts (messages s1)) ++ rest) ∧
  (d1_fails env (d1_count s1) = true →
   rows_of conversationId (db (state_of r)) = rows_of conversationId (db s1) ∧
   ∃ rest, title_only rest ∧
     trace_of r = t1 ++ [d1 (DeleteMessages conversationId);
                         console_error "Error saving messages"] ++ rest) ∧
  (∀ j, j < length (messages s1) →
     (∀ i, i ≤ j → d1_fails env (d1_count s1 + i) = false) →
     d1_fails env (d1_count s1 + S j) = true →
     stored (db (state_of r)) = logged (take j (messages s1)) ∧
     ∃ rest, title_only rest ∧
       trace_of r = t1 ++ (d1 (DeleteMessages conversationId)
                             :: inserts (take (S j) (messages s1))
                             ++ [console_error "Error saving messages"]) ++ rest).
Proof.
  intros Hfin. cbn zeta.
  destruct (save_messages_returns env conversationId s1) as (s2 & t2 & Hsave & Hms & Hother).
  destruct (wrappedOnFinish_after_save env onFinish conversationId userId s s1 t1 s2 t2
              Hfin Hsave Hms) as (Hdb & Hm & Hout & _).
  split_and!; [done|by rewrite Hdb|done|..].
  - intros Hok. pose proof (save_messages_ok env conversationId s1 Hok) as Hs.
    destruct (wrappedOnFinish_after_save env onFinish conversationId userId s s1 t1 _ _
                Hfin Hs eq_refl) as (-> & _ & _ & rest & -> & Hrest).
    split; [|by exists rest]. cbn [db].
    rewrite rows_of_rewritten by apply new_rows_conversation. apply new_rows_contents.
  - intros Hfail.
    pose proof (save_messages_delete_fails env conversationId s1 Hfail) as Hs.
    destruct (wrappedOnFinish_after_save env onFinish conversationId userId s s1 t1 _ _
                Hfin Hs eq_refl) as (-> & _ & _ & rest & -> & Hrest).
    split; [done|by exists rest].
  - intros j Hj Hok Hfail.
    pose proof (save_messages_insert_fails env conversationId s1 j Hj Hok Hfail) as Hs.
    destruct (wrappedOnFinish_after_save env onFinish conversationId userId s s1 t1 _ _
                Hfin Hs eq_refl) as (-> & _ & _ & rest & -> & Hrest).
    split; [|by exists rest]. cbn [db].
    rewrite rows_of_rewritten by apply new_rows_conversation. apply new_rows_contents.
Qed.

(** *** Binding a request to its conversation *)

Lemma truthy_Some (x : string) : truthy (Some x) = true ↔ x ≠ "".
Proof.
  cbn. destruct (String.eqb_spec x ""); cbn; split; done.
Qed.

Lemma needsReload_iff cid stored (ms : list Message) :
  cid ≠ "" →
  needsReload cid stored ms = true ↔ stored = None ∨ stored ≠ Some cid ∨ ms = [].
Proof.
  intros Hcid. unfold needsReload.
  rewrite !orb_true_iff, !negb_true_iff, bool_decide_eq_false, Nat.eqb_eq.
  rewrite length_zero_iff_nil. split.
  - intros [[Hf|Hne]|Hnil]; [|by right; left; intros ->|by right; right].
    destruct stored as [x|]; [|by left]. right; left. intros [= ->].
    apply truthy_Some in Hcid. congruence.
  - intros [->|[Hne|Hnil]]; [by left; left| |by right].
    left; right. intros Heq. by apply Hne.
Qed.

Lemma load_messages_eq env cid s :
  messages s = [] →
  load_messages env cid s
  = if d1_fails env (d1_count s)
    then (mkState [] (storage s) (db s) (S (d1_count s)), [d1 (SelectMessages cid)],
          inl D1Error)
    else match loaded cid (db s) with
         | Some ms => (mkState ms (storage s) (db s) (S (d1_count s)),
                       [d1 (SelectMessages cid)], inr tt)
         | None => (mkState [] (storage s) (db s) (S (d1_count s)),
                    [d1 (SelectMessages cid)], inl SyntaxError)
         end.
Proof.
  intros Hnil. unfold load_messages, loaded.
  destruct (d1_fails env (d1_count s)) eqn:E.
  - erewrite bind_throw; [|by apply d1_run_fails]. by rewrite Hnil.
  - erewrite bind_ok; [|by apply d1_query_ok]. rewrite Hnil.
    destruct (select_messages cid (db s)) as [|r rows] eqn:Hrows; [done|].
    cbn [length Nat.ltb Nat.leb].
    by destruct (mapM JSON_parse (content <$> r :: rows)).
Qed.

Lemma bind_conversation_keep env cid s :
  cid ≠ "" → needsReload cid (storage s !! "conversationId") (messages s) = false →
  bind_conversation env (Some cid) s = (s, [], inr tt).
Proof.
  intros Hcid%truthy_Some Hkeep. unfold bind_conversation. unfold_handler.
  rewrite Hcid. cbn [from_option id]. by rewrite Hkeep.
Qed.

Lemma bind_conversation_reload env cid s :
  cid ≠ "" → needsReload cid (storage s !! "conversationId") (messages s) = true →
  bind_conversation env (Some cid) s
  = if d1_fails env (d1_count s)
    then (mkState [] (storage s) (db s) (S (d1_count s)),
          [d1 (SelectMessages cid); load_error], inr tt)
    else match loaded cid (db s) with
         | Some ms => (mkState ms (storage s) (db s) (S (d1_count s)),
                       [d1 (SelectMessages cid)], inr tt)
         | None => (mkState [] (storage s) (db s) (S (d1_count s)),
                    [d1 (SelectMessages cid); load_error], inr tt)
         end.
Proof.
  intros Hcid%truthy_Some Hreload. unfold bind_conversation.
  erewrite bind_ok; [|done]. rewrite Hcid. cbn [from_option id]. rewrite Hreload.
  erewrite bind_ok; [|done].
  pose proof (load_messages_eq env cid (set_messages [] s) eq_refl) as Hload.
  cbn [set_messages messages storage db d1_count] in Hload.
  destruct (d1_fails env (d1_count s)).
  - erewrite try_catch_throw; [|exact Hload]. done.
  - destruct (loaded cid (db s)) as [ms|].
    + erewrite try_catch_ok; [|exact Hload]. done.
    + erewrite try_catch_throw; [|exact Hload]. done.
Qed.

Lemma validateToken_cases env tok s :
  validateToken env tok s
  = (mkState (messages s) (storage s) (db s) (S (d1_count s)),
     [d1 (SelectSessionByToken tok)],
     if d1_fails env (d1_count s) then inl D1Error else inr (token_user env tok (db s))).
Proof.
  unfold validateToken, d1_query, d1_run. unfold_handler. cbn.
  by destruct (d1_fails env (d1_count s)).
Qed.

Lemma save_token_frame env tok s :
  messages (state_of (save_token env tok s)) = messages s ∧
  db (state_of (save_token env tok s)) = db s ∧
  storage (state_of (save_token env tok s)) !! "conversationId"
  = storage s !! "conversationId" ∧
  (∀ c, d1 (SelectMessages c) ∉ trace_of (save_token env tok s)) ∧
  (load_error ∉ trace_of (save_token env tok s)) ∧
  outcome_of (save_token env tok s)
  = (if truthy tok && d1_fails env (d1_count s) then inl D1Error else inr tt) ∧
  (truthy tok = true → d1_fails env (d1_count s) = false →
   ∀ au, token_user env (default "" tok) (db s) = Some au →
         storage (state_of (save_token env tok s)) !! "userId" = Some (userId au)).
Proof.
  unfold save_token. destruct (truthy tok); cbn [andb].
  2: { split_and!; try done; [intros c|]; apply not_elem_of_nil. }
  erewrite bind_ok; [|done].
  set (s1 := state_of (storage_put "userToken" (default "" tok) s)).
  pose proof (validateToken_cases env (default "" tok) s1) as Hv.
  change (d1_count s) with (d1_count s1). change (db s) with (db s1).
  assert (∀ c t e, d1 (SelectMessages c) ∉ [d1 (SelectSessionByToken t); console_error e])
    as Hnot.
  { intros c t e Hin. repeat (apply elem_of_cons in Hin as [?|Hin]; [done|]).
    by apply elem_of_nil in Hin. }
  assert (∀ t e, e ≠ "Error loading messages from DB" →
            load_error ∉ [d1 (SelectSessionByToken t); console_error e]) as Hnot'.
  { intros t e He Hin. apply elem_of_cons in Hin as [Heq|Hin]; [done|].
    apply elem_of_cons in Hin as [Heq|Hin]; [unfold load_error in Heq; congruence|].
    by apply elem_of_nil in Hin. }
  assert (∀ (c : Effect) t e l, c ∉ [d1 t; console_error e] → l = [] → c ∉ d1 t :: l)
    as Hweak.
  { intros c t e l Hc -> Hin. apply Hc. apply elem_of_cons in Hin as [->|Hin]; [by left|].
    by apply elem_of_nil in Hin. }
  destruct (d1_fails env (d1_count s1)).
  - erewrite bind_throw; [|exact Hv]. cbn. split_and!; try done.
    + by rewrite lookup_insert_ne.
    + intros c. eapply Hweak; [apply (Hnot c _ "")|done].
    + eapply Hweak; [apply (Hnot' _ "")|]; done.
  - erewrite bind_ok; [|exact Hv]. destruct (token_user env (default "" tok) (db s1)); cbn.
    + split_and!; try done.
      * by rewrite !lookup_insert_ne.
      * intros c. eapply Hweak; [apply (Hnot c _ "")|done].
      * eapply Hweak; [apply (Hnot' _ "")|]; done.
      * intros _ _ au [= <-]. by rewrite lookup_insert_eq.
    + split_and!; try done.
      * by rewrite lookup_insert_ne.
      * by apply Hnot'.
Qed.

Lemma respond_eq request s :
  respond request s
  = (s, [], inr (if includes "/get-messages" (pathname request) && (length (messages s) =? 0)
                 then EmptyArray else Super)).
Proof. unfold respond. unfold_handler. by destruct (_ && _). Qed.

(** [onRequest] after the binding block: the log, the database and the
    binding are those the block left; no further load is issued. *)
Lemma onRequest_after_bind env request cid s s1 t1 :
  query_conversationId request = Some cid → cid ≠ "" →
  bind_conversation env (Some cid) s = (s1, t1, inr tt) →
  messages (state_of (onRequest env request s)) = messages s1 ∧
  db (state_of (onRequest env request s)) = db s1 ∧
  storage (state_of (onRequest env request s)) !! "conversationId" = Some cid ∧
  (∃ t2, trace_of (onRequest env request s) = t1 ++ t2 ∧
         (∀ c, d1 (SelectMessages c) ∉ t2) ∧ load_error ∉ t2) ∧
  outcome_of (onRequest env request s)
  = (if truthy (request_token request) && d1_fails env (d1_count s1) then inl D1Error
     else inr (if includes "/get-messages" (pathname request) && (length (messages s1) =? 0)
               then EmptyArray else Super)).
Proof.
  intros Hq Hcid Hbind.
  set (s2 := mkState (messages s1) (<["conversationId" := cid]> (storage s1)) (db s1)
                     (d1_count s1)).
  assert (save_conversationId (Some cid) s1 = (s2, [], inr tt)) as Hsave.
  { unfold save_conversationId. by rewrite (proj2 (truthy_Some cid) Hcid). }
  destruct (save_token_frame env (request_token request) s2)
    as (Hm & Hd & Hs & Ht & Hl & Ho & _).
  destruct (save_token env (request_token request) s2) as [[s3 t3] r3] eqn:Htok.
  unfold state_of, trace_of, outcome_of in Hm, Hd, Hs, Ht, Hl, Ho.
  cbn [fst snd] in Hm, Hd, Hs, Ht, Hl, Ho. subst r3.
  change (d1_count s2) with (d1_count s1) in Htok.
  unfold onRequest. rewrite Hq.
  destruct (truthy (request_token request) && d1_fails env (d1_count s1)).
  - erewrite bind_step; [|exact Hbind|].
    2: { eapply bind_step; [exact Hsave|]. eapply bind_throw. exact Htok. }
    unfold_handler. cbn [fst snd]. split_and!; try done.
    + rewrite Hs. apply lookup_insert_eq.
    + by exists t3.
  - erewrite bind_step; [|exact Hbind|].
    2: { eapply bind_step; [exact Hsave|]. eapply bind_step; [exact Htok|]. apply respond_eq. }
    unfold_handler. cbn [fst snd]. rewrite Hm. split_and!; try done.
    + rewrite Hs. apply lookup_insert_eq.
    + exists t3. by rewrite !app_nil_r.
Qed.





(** Insertion keeps the rows and their order by [created_at]. *)
Lemma insert_by_created_at_perm r rows : insert_by_created_at r rows ≡ₚ r :: rows.
Proof.
  clear. induction rows as [|r' rows IH]; cbn; [done|].
  destruct (created_at r <=? created_at r')%Z; [done|].
  rewrite IH. apply Permutation_swap.
Qed.

Lemma order_by_created_at_perm rows : order_by_created_at rows ≡ₚ rows.
Proof.
  clear. induction rows as [|r rows IH]; cbn; [done|].
  by rewrite insert_by_created_at_perm, IH.
Qed.

Lemma insert_by_created_at_sorted r rows :
  Sorted by_created_at rows → Sorted by_created_at (insert_by_created_at r rows).
Proof.
  clear. induction 1 as [|r' rows Hs IH Hhd]; cbn; [by repeat constructor|].
  destruct (Z.leb_spec (created_at r) (created_at r')).
  - constructor; [by constructor|]. constructor. unfold by_created_at. lia.
  - constructor; [done|].
    destruct rows as [|r'' rows]; cbn in *.
    + constructor. unfold by_created_at. lia.
    + destruct (Z.leb_spec (created_at r) (created_at r'')).
      * constructor. unfold by_created_at. lia.
      * constructor. by inversion Hhd.
Qed.

(** The rows that [SELECT ... ORDER BY created_at ASC] returns are the rows
    of the conversation, by creation time. *)
Lemma select_messages_ordered cid d :
  select_messages cid d ≡ₚ rows_of cid d ∧ Sorted by_created_at (select_messages cid d).
Proof.
  clear. unfold select_messages, rows_of. split; [apply order_by_created_at_perm|].
  induction (filter _ _) as [|r rows IH]; cbn; [constructor|].
  by apply insert_by_created_at_sorted.
Qed.

Lemma insert_by_created_at_head r rows :
  HdRel by_created_at r rows → insert_by_created_at r rows = r :: rows.
Proof.
  clear. destruct 1 as [|r' rows Hle]; [done|]. cbn.
  unfold by_created_at in Hle. by destruct (Z.leb_spec (created_at r) (created_at r')); [|lia].
Qed.

(** Rows that are already in order come back as they are. *)
Lemma order_by_created_at_sorted rows :
  Sorted by_created_at rows → order_by_created_at rows = rows.
Proof.
  clear. induction 1 as [|r rows Hs IH Hhd]; [done|].
  unfold order_by_created_at in *. cbn [foldr].
  rewrite IH. by apply insert_by_created_at_head.
Qed.

Lemma new_rows_sorted env cid k ms :
  (∀ i, (datetime_now env i ≤ datetime_now env (S i))%Z) →
  Sorted by_created_at (new_rows env cid k ms).
Proof.
  intros Hmono. revert k. induction ms as [|m ms IH]; intros k; cbn; [constructor|].
  constructor; [apply IH|]. destruct ms; cbn; constructor. apply Hmono.
Qed.

(** After a clean turn the durable copy is the log: when the clock of D1
    does not go back and [JSON.parse] inverts [JSON.stringify], loading
    the conversation gives the in-memory log back. *)
Lemma saved_log_reloads env onFinish cid uid s s1 t1 :
  (∀ m, JSON_parse (JSON_stringify m) = Some m) →
  (∀ i, (datetime_now env i ≤ datetime_now env (S i))%Z) →
  onFinish s = (s1, t1, inr tt) →
  (∀ i, i ≤ length (messages s1) → d1_fails env (d1_count s1 + i) = false) →
  loaded cid (db (state_of (wrappedOnFinish env onFinish cid uid s))) = Some (messages s1).
Proof.
  intros Hjson Hmono Hfin Hok.
  destruct (wrappedOnFinish_saved env onFinish cid uid s s1 t1 Hfin Hok) as (Hdb & _).
  unfold loaded, select_messages. rewrite Hdb.
  change (filter (λ r, conversation_id r = cid) (chat_messages ?d)) with (rows_of cid d).
  rewrite rows_of_rewritten by apply new_rows_conversation.
  rewrite order_by_created_at_sorted by by apply new_rows_sorted.
  assert (∀ k ms, content <$> new_rows env cid k ms = JSON_stringify <$> ms) as ->.
  { intros k ms. revert k. induction ms as [|m ms IH]; intros k; cbn; [done|].
    by rewrite IH. }
  clear Hok Hdb. induction (messages s1) as [|m ms IH]; [done|].
  cbn. rewrite Hjson. cbn. by rewrite IH.
Qed.


(** C6. What the code does when the [SELECT] of the log fails during a
    reload, which is not what is claimed: the error is caught and logged,
    not surfaced, and the request goes on against the empty log. The
    requested id is stored as bound, and the request is answered as any
    other (a [get-messages] request with the empty array), unless the
    later validation of its token fails in D1. The second half of the
    claim holds: as long as the log is still empty, the next request for
    the id reloads it, which succeeds when D1 answers. *)
Theorem onRequest_load_failure (env : Env) (request : Request) (cid : string) (s : State) :
  query_conversationId request = Some cid → cid ≠ "" →
  (storage s !! "conversationId" = None ∨ storage s !! "conversationId" ≠ Some cid
   ∨ messages s = []) →
  d1_fails env (d1_count s) = true →
  let r := onRequest env request s in
  messages (state_of r) = [] ∧
  load_error ∈ trace_of r ∧
  db (state_of r) = db s ∧
  storage (state_of r) !! "conversationId" = Some cid ∧
  outcome_of r
  = (if truthy (request_token request) && d1_fails env (S (d1_count s)) then inl D1Error
     else inr (if includes "/get-messages" (pathname request) then EmptyArray else Super)) ∧
  (∀ env' ms,
     d1_fails env' (d1_count (state_of r)) = false →
     loaded cid (db s) = Some ms →
     messages (state_of (onRequest env' request (state_of r))) = ms ∧
     load_error ∉ trace_of (onRequest env' request (state_of r))).
Proof.
  intros Hq Hcid Hcond Hfail. cbn zeta.
  apply (needsReload_iff cid _ _ Hcid) in Hcond.
  pose proof (bind_conversation_reload env cid s Hcid Hcond) as Hb. rewrite Hfail in Hb.
  destruct (onRequest_after_bind env request cid s _ _ Hq Hcid Hb)
    as (Hm & Hd & Hst & (t2 & Ht & _) & Ho).
  cbn [messages db d1_count length Nat.eqb] in Hm, Hd, Ho. rewrite andb_true_r in Ho.
  split_and!; try done.
  - rewrite Ht. right. by left.
  - intros env' ms Hok Hl.
    set (s' := state_of (onRequest env request s)) in *.
    assert (needsReload cid (storage s' !! "conversationId") (messages s') = true) as Hre.
    { apply needsReload_iff; [done|]. right; right. done. }
    pose proof (bind_conversation_reload env' cid s' Hcid Hre) as Hb'.
    rewrite Hok, Hd, Hl in Hb'.
    destruct (onRequest_after_bind env' request cid s' _ _ Hq Hcid Hb')
      as (Hm' & _ & _ & (t2' & Ht' & _ & Hno) & _).
    split; [done|]. rewrite Ht'. intros Hin.
    apply elem_of_cons in Hin as [?|Hin]; done.
Qed.

(** *** Who is acting *)

(** The two fallbacks of [onChatMessage] compute [resolved]. *)
Lemma resolution_in_order (userId0 storedToken : option string)
    (token_owner : option AuthUser) (conversation : option ConversationRow) :
  let userId1 :=
    if negb (truthy userId0) && truthy storedToken
    then match token_owner with Some u => Some (userId u) | None => userId0 end
    else userId0 in
  (if negb (truthy userId1) then
     match conversation with
     | Some c => if truthy (Some (conv_user_id c)) then inr (conv_user_id c)
                 else inl Unauthorized_NoValidSession
     | None => inl Unauthorized_NoValidSession
     end
   else inr (default "" userId1))
  = match resolved userId0 storedToken token_owner conversation with
    | Some uid => inr uid
    | None => inl Unauthorized_NoValidSession
    end.
Proof.
  clear. unfold resolved, truthy.
  destruct userId0 as [u0|], storedToken as [t|], token_owner as [u|],
    conversation as [c|]; cbn;
    repeat (match goal with
            | |- context [String.eqb ?a ?b] => destruct (String.eqb a b) eqn:?; cbn in *
            end);
    try done; congruence.
Qed.

Section NoFault.
Variable env : Env.
Hypothesis d1_ok : ∀ k, d1_fails env k = false.

Lemma from_stored_token_eq userId0 storedToken s :
  ∃ s1 t1,
    from_stored_token env userId0 storedToken s
    = (s1, t1,
       inr (if negb (truthy userId0) && truthy storedToken
            then match token_user env (default "" storedToken) (db s) with
                 | Some u => Some (userId u)
                 | None => userId0
                 end
            else userId0)) ∧
    messages s1 = messages s ∧ db s1 = db s ∧
    storage s1 !! "conversationId" = storage s !! "conversationId" ∧
    storage s1 !! "userToken" = storage s !! "userToken".
Proof using d1_ok.
  unfold from_stored_token.
  destruct (negb (truthy userId0) && truthy storedToken); [|by eexists _, _].
  pose proof (validateToken_cases env (default "" storedToken) s) as Hv.
  rewrite d1_ok in Hv.
  destruct (token_user env (default "" storedToken) (db s)) as [u|].
  - eexists _, _. split.
    + eapply bind_step; [exact Hv|]. eapply bind_step; done.
    + cbn. by rewrite !lookup_insert_ne.
  - eexists _, _. split; [|shelve].
    eapply bind_step; [exact Hv|done].
    Unshelve. done.
Qed.

Lemma from_conversation_eq cid userId1 s :
  ∃ s1 t1,
    from_conversation env cid userId1 s
    = (s1, t1,
       if negb (truthy userId1) then
         match select_conversation cid (db s) with
         | Some c => if truthy (Some (conv_user_id c)) then inr (conv_user_id c)
                     else inl Unauthorized_NoValidSession
         | None => inl Unauthorized_NoValidSession
         end
       else inr (default "" userId1)) ∧
    messages s1 = messages s ∧ db s1 = db s ∧
    storage s1 !! "conversationId" = storage s !! "conversationId" ∧
    storage s1 !! "userToken" = storage s !! "userToken".
Proof using d1_ok.
  unfold from_conversation. destruct (negb (truthy userId1)); [|by eexists _, _].
  pose proof (d1_query_ok env (SelectConversationUser cid) (select_conversation cid) s
                (d1_ok _)) as Hq.
  destruct (select_conversation cid (db s)) as [c|].
  - destruct (truthy (Some (conv_user_id c))) eqn:Ht.
    + eexists _, _. split.
      * eapply bind_step; [exact Hq|]. cbv beta iota. rewrite Ht. eapply bind_step; done.
      * cbn. by rewrite !lookup_insert_ne.
    + eexists _, _. split; [|shelve].
      eapply bind_step; [exact Hq|]. cbv beta iota. rewrite Ht. done.
      Unshelve. done.
  - eexists _, _. split; [|shelve].
    eapply bind_step; [exact Hq|]. done.
    Unshelve. done.
Qed.

Lemma valid_session_eq uid s :
  valid_session env uid s
  = (mkState (messages s) (storage s) (db s) (S (d1_count s)),
     [d1 (SelectValidSession uid)],
     match select_valid_session uid (Date_now env) (db s) with
     | Some su => inr su
     | None => inl Unauthorized_SessionExpired
     end).
Proof using d1_ok.
  unfold valid_session.
  pose proof (d1_query_ok env (SelectValidSession uid)
                (select_valid_session uid (Date_now env)) s (d1_ok _)) as Hq.
  destruct (select_valid_session uid (Date_now env) (db s)) as [su|].
  - erewrite bind_step; [|exact Hq|done]. done.
  - erewrite bind_step; [|exact Hq|done]. done.
Qed.

Lemma ensure_conversation_returns cid user uid s :
  ∃ s1 t1, ensure_conversation env cid user uid s = (s1, t1, inr tt) ∧
           messages s1 = messages s ∧ storage s1 = storage s.
Proof using d1_ok.
  unfold ensure_conversation.
  pose proof (d1_query_ok env (SelectConversationId cid) (select_conversation cid) s
                (d1_ok _)) as Hq.
  destruct (select_conversation cid (db s)) as [c|].
  - eexists _, _. split; [|shelve].
    eapply bind_step; [exact Hq|done].
    Unshelve. done.
  - eexists _, _. split; [|shelve].
    eapply bind_step; [exact Hq|].
    eapply bind_step; [by apply d1_run_ok|].
    unfold notifyConversationUpdate.
    erewrite try_catch_throw;
      [|eapply bind_step; [by apply d1_query_ok|]; eapply bind_step; done].
    done.
    Unshelve. done.
Qed.

(** [onChatMessage] with a bound conversation: what it returns or throws. *)
Lemma onChatMessage_outcome cid s :
  storage s !! "conversationId" = Some cid → cid ≠ "" →
  ∃ s1 t1,
    onChatMessage env s
    = (s1, t1,
       match resolve_userId env cid s with
       | None => inl Unauthorized_NoValidSession
       | Some uid =>
           match select_valid_session uid (Date_now env) (db s) with
           | None => inl Unauthorized_SessionExpired
           | Some su =>
               inr (mkTurn cid uid (mkAuthUser (user_id su.2) (email su.2) (name su.2)))
           end
       end) ∧
    (messages s1 = messages s ∧ storage s1 !! "conversationId" = Some cid) ∧
    ((resolve_userId env cid s = None ∨
      ∃ uid, resolve_userId env cid s = Some uid ∧
             select_valid_session uid (Date_now env) (db s) = None) →
     db s1 = db s).
Proof using d1_ok.
  intros Hcid Hne. unfold onChatMessage, resolve_userId.
  set (userId0 := storage s !! "userId"). set (storedToken := storage s !! "userToken").
  destruct (from_stored_token_eq userId0 storedToken s)
    as (sa & ta & Ha & Hma & Hda & Hca & Hta).
  set (userId1 := if negb (truthy userId0) && truthy storedToken then _ else _) in Ha.
  destruct (from_conversation_eq cid userId1 sa) as (sb & tb & Hb & Hmb & Hdb & Hcb & Htb).
  rewrite Hda in Hb. subst userId1.
  rewrite (resolution_in_order userId0 storedToken
             (token_user env (default "" storedToken) (db s))
             (select_conversation cid (db s))) in Hb.
  set (userId1 := if negb (truthy userId0) && truthy storedToken then _ else _) in *.
  assert (match resolved userId0 storedToken
                  (token_user env (default "" storedToken) (db s))
                  (select_conversation cid (db s)) with
          | Some uid => from_conversation env cid userId1 sa = (sb, tb, inr uid)
          | None => from_conversation env cid userId1 sa
                    = (sb, tb, inl Unauthorized_NoValidSession)
          end) as Hres.
  { rewrite Hb. by destruct (resolved _ _ _ _). }
  clear Hb. rewrite bind_get, Hcid, (proj2 (truthy_Some cid) Hne).
  cbn [negb from_option id]. fold userId0 storedToken.
  destruct (resolved _ _ _ _) as [uid|].
  2: { eexists _, _. split.
       - eapply bind_step; [exact Ha|].
         eapply bind_throw. exact Hres.
       - split; [split; congruence|]. intros _. congruence. }
  pose proof (valid_session_eq uid sb) as Hv.
  set (sc := mkState (messages sb) (storage sb) (db sb) (S (d1_count sb))) in Hv.
  rewrite Hdb, Hda in Hv.
  destruct (select_valid_session uid (Date_now env) (db s)) as [su|] eqn:Hsel.
  2: { eexists _, _. split.
       - eapply bind_step; [exact Ha|].
         eapply bind_step; [exact Hres|]. eapply bind_throw. exact Hv.
       - cbn. split; [split; congruence|]. intros _. congruence. }
  set (user := mkAuthUser (user_id su.2) (email su.2) (name su.2)).
  assert (∃ sd, (if bool_decide (storedToken = Some (token su.1)) then mret tt
                 else storage_put "userToken" (token su.1)) sc = (sd, [], inr tt)
                ∧ messages sd = messages sb
                ∧ storage sd !! "conversationId" = storage sb !! "conversationId")
    as (sd & Hd & Hmd & Hcd).
  { destruct (bool_decide _); eexists; (split; [done|]); [done|].
    cbn. by rewrite lookup_insert_ne. }
  destruct (ensure_conversation_returns cid user uid sd) as (se & te & He & Hme & Hse).
  eexists _, _. split.
  - eapply bind_step; [exact Ha|].
    eapply bind_step; [exact Hres|]. eapply bind_step; [exact Hv|].
    eapply bind_step; [exact Hd|]. eapply bind_step; [exact He|]. done.
  - split; [split; congruence|]. intros [?|(uid' & [= <-] & ?)]; congruence.
Qed.

Lemma bind_conversation_returns cid s :
  cid ≠ "" →
  ∃ s1 t1, bind_conversation env (Some cid) s = (s1, t1, inr tt) ∧
           db s1 = db s ∧ storage s1 = storage s.
Proof using d1_ok.
  intros Hcid.
  destruct (needsReload cid (storage s !! "conversationId") (messages s)) eqn:Hn.
  - rewrite (bind_conversation_reload env cid s Hcid Hn), d1_ok.
    destruct (loaded cid (db s)); by eexists _, _.
  - rewrite (bind_conversation_keep env cid s Hcid Hn). by eexists _, _.
Qed.

(** A request that carries a valid token leaves the token's user as the
    stored user id. *)
Lemma onRequest_stores_user request cid tok au s :
  query_conversationId request = Some cid → cid ≠ "" →
  request_token request = Some tok → tok ≠ "" →
  token_user env tok (db s) = Some au →
  storage (state_of (onRequest env request s)) !! "conversationId" = Some cid ∧
  storage (state_of (onRequest env request s)) !! "userId" = Some (userId au) ∧
  db (state_of (onRequest env request s)) = db s.
Proof using d1_ok.
  intros Hq Hcid Htok Hne Hau.
  destruct (bind_conversation_returns cid s Hcid) as (s1 & t1 & Hb & Hd1 & Hs1).
  destruct (onRequest_after_bind env request cid s s1 t1 Hq Hcid Hb)
    as (_ & Hd & Hc & _ & _).
  split; [done|]. split; [|congruence].
  set (s2 := mkState (messages s1) (<["conversationId" := cid]> (storage s1)) (db s1)
                     (d1_count s1)).
  assert (save_conversationId (Some cid) s1 = (s2, [], inr tt)) as Hsave.
  { unfold save_conversationId. by rewrite (proj2 (truthy_Some cid) Hcid). }
  destruct (save_token_frame env (request_token request) s2)
    as (_ & _ & _ & _ & _ & Ho & Hu).
  rewrite Htok in Hu, Ho. rewrite d1_ok, andb_false_r in Ho.
  specialize (Hu (proj2 (truthy_Some tok) Hne) (d1_ok _) au).
  cbn [from_option id db] in Hu. change (db s2) with (db s1) in Hu.
  rewrite Hd1 in Hu. specialize (Hu Hau).
  destruct (save_token env (Some tok) s2) as [[s3 t3] r3] eqn:Ht.
  unfold state_of, outcome_of in Hu, Ho. cbn [fst snd] in Hu, Ho. subst r3.
  unfold onRequest. rewrite Hq, Htok.
  erewrite bind_step; [|exact Hb|].
  2: { eapply bind_step; [exact Hsave|]. eapply bind_step; [exact Ht|]. apply respond_eq. }
  done.
Qed.

End NoFault.

(** *** Sessions *)

Lemma session_join_user_elem d su :
  su ∈ session_join_user d → user_id su.2 = session_user_id su.1.
Proof.
  clear. unfold session_join_user.
  intros (sess & Hin & _)%list_elem_of_bind.
  apply list_elem_of_bind in Hin as (u & Hin & Hu%list_elem_of_filter).
  apply list_elem_of_singleton in Hin as ->. by destruct Hu.
Qed.

Lemma latest_elem rows :
  rows ≠ [] → ∃ su, latest rows = Some su ∧ su ∈ rows.
Proof.
  clear. unfold latest.
  enough (∀ best : option (SessionRow * UserRow),
            (best = None → rows ≠ []) →
            ∃ su, foldl (λ best su,
                           match best with
                           | None => Some su
                           | Some b =>
                               if (session_created_at b.1 <? session_created_at su.1)%Z
                               then Some su else Some b
                           end) best rows = Some su
                  ∧ (su ∈ rows ∨ best = Some su)) as H.
  { intros Hne. destruct (H None) as (su & Hsu & [?|?]); [done|by exists su|done]. }
  induction rows as [|x rows IH]; intros best Hbest.
  - destruct best as [b|]; [by exists b; split; [|right]|]. by destruct Hbest.
  - cbn [foldl]. destruct best as [b|].
    + destruct (session_created_at b.1 <? session_created_at x.1)%Z.
      * destruct (IH (Some x)) as (su & Hsu & Hin); [done|]. exists su. split; [done|].
        left. destruct Hin as [?|[= <-]]; [by right|by left].
      * destruct (IH (Some b)) as (su & Hsu & Hin); [done|]. exists su. split; [done|].
        destruct Hin as [?|?]; [left; by right|by right].
    + destruct (IH (Some x)) as (su & Hsu & Hin); [done|]. exists su. split; [done|].
      left. destruct Hin as [?|[= <-]]; [by right|by left].
Qed.

(** A token that [validateToken] accepts belongs to a user with a session
    that has not expired. *)
Lemma valid_token_valid_session tok now d sess u :
  select_session_by_token tok now d = Some (sess, u) →
  ∃ su, select_valid_session (user_id u) now d = Some su ∧ user_id su.2 = user_id u.
Proof.
  clear. unfold select_session_by_token, select_valid_session.
  intros Hin%head_Some_elem_of. apply list_elem_of_filter in Hin as [[_ Hexp] Hin].
  pose proof (session_join_user_elem d _ Hin) as Hu. cbn in *.
  destruct (latest_elem (filter (λ su, session_user_id su.1 = user_id u
                                       ∧ (now < expires_at su.1)%Z)
                                (session_join_user d))) as (su & Hsu & Hsu_in).
  { intros Hnil. assert ((sess, u) ∈ filter (λ su, session_user_id su.1 = user_id u
                                                   ∧ (now < expires_at su.1)%Z)
                                            (session_join_user d)) as Hmem.
    { apply list_elem_of_filter. by split. }
    rewrite Hnil in Hmem. by apply elem_of_nil in Hmem. }
  exists su. split; [done|].
  apply list_elem_of_filter in Hsu_in as [[Heq _] Hj].
  by rewrite (session_join_user_elem d _ Hj).
Qed.

(** C3, amended. With a conversation bound, [onChatMessage] takes the
    acting user from, in this order, the user id in the object's storage
    (which [onRequest] records when the request carries a valid token),
    else the user of the stored token, else the owner recorded on the
    conversation's durable record. It throws an unauthorized error when
    none of the three yields a user id, and also when the user id they
    yield has no session that has not expired; otherwise it goes on with
    that user. The error ends that request only: the message log, the
    database and the binding are as before, and after a later request
    that carries a valid token of a user, [onChatMessage] goes on with
    that user. *)
Theorem onChatMessage_identity (env : Env) (cid : string) (s : State) :
  (∀ k, d1_fails env k = false) →
  storage s !! "conversationId" = Some cid → cid ≠ "" →
  let r := onChatMessage env s in
  match resolve_userId env cid s with
  | None => outcome_of r = inl Unauthorized_NoValidSession
  | Some uid =>
      match select_valid_session uid (Date_now env) (db s) with
      | None => outcome_of r = inl Unauthorized_SessionExpired
      | Some su =>
          outcome_of r
          = inr (mkTurn cid uid (mkAuthUser (user_id su.2) (email su.2) (name su.2)))
      end
  end ∧
  (∀ e, outcome_of r = inl e →
     unauthorized e = true ∧
     messages (state_of r) = messages s ∧ db (state_of r) = db s ∧
     storage (state_of r) !! "conversationId" = Some cid) ∧
  (∀ request tok sess u,
     query_conversationId request = Some cid →
     request_token request = Some tok → tok ≠ "" →
     select_session_by_token tok (Date_now env) (db (state_of r)) = Some (sess, u) →
     user_id u ≠ "" →
     ∃ turn,
       outcome_of (onChatMessage env (state_of (onRequest env request (state_of r))))
       = inr turn ∧
       turn_userId turn = user_id u ∧ userId (turn_user turn) = user_id u ∧
       turn_conversationId turn = cid).
Proof.
  intros Hok Hcid Hne. cbn zeta.
  destruct (onChatMessage_outcome env Hok cid s Hcid Hne)
    as (s1 & t1 & Heq & [Hm Hc] & Hdb).
  rewrite Heq. unfold state_of, outcome_of. cbn [fst snd]. split_and!.
  - destruct (resolve_userId env cid s) as [uid|]; [|done].
    by destruct (select_valid_session uid (Date_now env) (db s)).
  - intros e He. destruct (resolve_userId env cid s) as [uid|].
    + destruct (select_valid_session uid (Date_now env) (db s)) eqn:Hsel; [done|].
      injection He as <-. split_and!; try done. apply Hdb. right. by exists uid.
    + injection He as <-. split_and!; try done. apply Hdb. by left.
  - intros request tok sess u Hq Htok Htne Hsess Hu.
    assert (token_user env tok (db s1) = Some (mkAuthUser (user_id u) (email u) (name u)))
      as Hau by (unfold token_user; by rewrite Hsess).
    destruct (onRequest_stores_user env Hok request cid tok _ s1 Hq Hne Htok Htne Hau)
      as (Hc2 & Hu2 & Hd2).
    unfold state_of in Hc2, Hu2, Hd2.
    set (s2 := (onRequest env request s1).1.1) in *.
    destruct (onChatMessage_outcome env Hok cid s2 Hc2 Hne) as (s3 & t3 & Heq3 & _).
    assert (resolve_userId env cid s2 = Some (user_id u)) as Hres.
    { unfold resolve_userId, resolved. rewrite Hu2. cbn [userId].
      by rewrite (proj2 (truthy_Some (user_id u)) Hu). }
    rewrite Hres in Heq3.
    destruct (valid_token_valid_session tok (Date_now env) (db s1) sess u Hsess)
      as (su & Hsu & Hsu_id).
    rewrite Hd2, Hsu in Heq3. rewrite Heq3. eexists. split; [done|]. done.
Qed.

End ChatFacts.

Section ChatMore.
Context `{json : Json}.

Lemma request_token_bearer r t :
  truthy (query_token r) = false → authorization r = Some ("Bearer " +:+ t) →
  request_token r = Some t.
Proof.
  clear. intros Hq Ha. unfold request_token. rewrite Hq, Ha, prefix_append.
  rewrite length_append. change (String.length "Bearer ") with 7.
  replace (7 + String.length t - 7) with (String.length t) by lia.
  by rewrite (substring_append_skip "Bearer "), substring_all.
Qed.

Lemma String_remove_first_bearer t : String_remove_first "Bearer " ("Bearer " +:+ t) = t.
Proof.
  clear. unfold String_remove_first. rewrite index_append.
  rewrite length_append. change (String.length "Bearer ") with 7.
  replace (7 + String.length t - (0 + 7)) with (String.length t) by lia.
  change (0 + 7) with (String.length "Bearer ").
  by rewrite (substring_append_skip "Bearer "), substring_all.
Qed.

(** *** The session that a token names *)

Lemma select_session_by_token_Some tok now d sess u :
  select_session_by_token tok now d = Some (sess, u) →
  sess ∈ session d ∧ u ∈ user d ∧ token sess = tok ∧ (now < expires_at sess)%Z ∧
  user_id u = session_user_id sess.
Proof.
  clear. unfold select_session_by_token. intros Hin%head_Some_elem_of.
  apply list_elem_of_filter in Hin as [[Htok Hexp] Hin].
  unfold session_join_user in Hin.
  apply list_elem_of_bind in Hin as (sess' & Hin & Hsess).
  apply list_elem_of_bind in Hin as (u' & Hin & Hu%list_elem_of_filter).
  apply list_elem_of_singleton in Hin. injection Hin as -> ->. by destruct Hu.
Qed.

Lemma select_session_by_token_None tok now d :
  select_session_by_token tok now d = None ↔
  ∀ sess u, sess ∈ session d → u ∈ user d → token sess = tok →
            user_id u = session_user_id sess → (expires_at sess ≤ now)%Z.
Proof.
  clear. unfold select_session_by_token. rewrite head_None. split.
  - intros Hnil sess u Hs Hu Htok Hid.
    destruct (decide (now < expires_at sess)%Z) as [Hlt|]; [|lia].
    assert ((sess, u) ∈ filter (λ su, token su.1 = tok ∧ (now < expires_at su.1)%Z)
                               (session_join_user d)) as Hin.
    { apply list_elem_of_filter. split; [done|]. unfold session_join_user.
      apply list_elem_of_bind. exists sess. split; [|done].
      apply list_elem_of_bind. exists u. split; [by left|].
      by apply list_elem_of_filter. }
    rewrite Hnil in Hin. by apply elem_of_nil in Hin.
  - intros Hall. destruct (filter _ _) as [|[sess u] rest] eqn:E; [done|].
    assert ((sess, u) ∈ filter (λ su, token su.1 = tok ∧ (now < expires_at su.1)%Z)
                               (session_join_user d)) as Hin by (rewrite E; by left).
    assert (select_session_by_token tok now d = Some (sess, u)) as Hsel.
    { unfold select_session_by_token. by rewrite E. }
    apply select_session_by_token_Some in Hsel as (Hs & Hu & Htok & Hexp & Hid).
    specialize (Hall sess u Hs Hu Htok Hid). lia.
Qed.

(** *** What a failed turn leaves *)

Lemma reads_ret {A} (a : A) : reads (mret a).
Proof. by intros s. Qed.

Lemma reads_get : reads get.
Proof. by intros s. Qed.

Lemma reads_throw {A} e : reads (throw (A:=A) e).
Proof. by intros s. Qed.

Lemma reads_emit ev : reads (emit ev).
Proof. by intros s. Qed.

Lemma reads_storage_put k v : reads (storage_put k v).
Proof. by intros s. Qed.

Lemma reads_bind {A B} (m : Handler A) (k : A → Handler B) :
  reads m → (∀ a, reads (k a)) → reads (m ≫= k).
Proof.
  intros Hm Hk s. specialize (Hm s). unfold_handler.
  destruct (m s) as [[s1 t1] [e|a]]; [done|].
  specialize (Hk a s1). destruct (k a s1) as [[s2 t2] r]. cbn in *.
  destruct Hm, Hk. split; congruence.
Qed.

Lemma reads_try_catch {A} (m : Handler A) (h : Exception → Handler A) :
  reads m → (∀ e, reads (h e)) → reads (try_catch m h).
Proof.
  intros Hm Hh s. specialize (Hm s). unfold_handler.
  destruct (m s) as [[s1 t1] [e|a]]; [|done].
  specialize (Hh e s1). destruct (h e s1) as [[s2 t2] r]. cbn in *.
  destruct Hm, Hh. split; congruence.
Qed.

Lemma reads_d1_query {A} env st (q : D1 → A) : reads (d1_query env st q).
Proof. intros s. by destruct (d1_query_frame env st q s) as (? & ? & _). Qed.

Create HintDb reads.
#[local] Hint Resolve reads_ret reads_get reads_throw reads_emit reads_storage_put
  reads_bind reads_try_catch reads_d1_query : reads.

Lemma reads_validateToken env tok : reads (validateToken env tok).
Proof. unfold validateToken. auto with reads. Qed.

Lemma reads_from_stored_token env userId0 storedToken :
  reads (from_stored_token env userId0 storedToken).
Proof.
  unfold from_stored_token. destruct (_ && _); [|apply reads_ret].
  apply reads_bind; [apply reads_validateToken|]. intros [u|]; auto with reads.
Qed.

Lemma reads_from_conversation env cid userId1 : reads (from_conversation env cid userId1).
Proof.
  unfold from_conversation. destruct (negb _); [|apply reads_ret].
  apply reads_bind; [apply reads_d1_query|]. intros [c|]; [|apply reads_throw].
  destruct (truthy _); auto with reads.
Qed.

Lemma reads_valid_session env uid : reads (valid_session env uid).
Proof.
  unfold valid_session. apply reads_bind; [apply reads_d1_query|].
  intros [su|]; auto with reads.
Qed.

Lemma reads_notifyConversationUpdate env uid : reads (notifyConversationUpdate env uid).
Proof. unfold notifyConversationUpdate. auto 10 with reads. Qed.

Lemma notifyConversationUpdate_returns env uid s :
  outcome_of (notifyConversationUpdate env uid s) = inr tt.
Proof.
  unfold notifyConversationUpdate, d1_query.
  destruct (d1_fails env (d1_count s)) eqn:E.
  - erewrite try_catch_throw; [done|]. eapply bind_throw. by apply d1_run_fails.
  - erewrite try_catch_throw; [done|].
    eapply bind_step; [by apply d1_run_ok|]. eapply bind_step; done.
Qed.

Lemma careful_of_reads {A} (m : Handler A) : reads m → careful m.
Proof. intros Hm s. destruct (Hm s). by split. Qed.

Lemma careful_bind_reads {A B} (m : Handler A) (k : A → Handler B) :
  reads m → (∀ a, careful (k a)) → careful (m ≫= k).
Proof.
  intros Hm Hk s. specialize (Hm s). unfold_handler.
  destruct (m s) as [[s1 t1] [e|a]]; [by destruct Hm|].
  specialize (Hk a s1). destruct (k a s1) as [[s2 t2] r]. cbn in *.
  destruct Hm as [Hd Hm], Hk as [Hm' Hd']. split; [congruence|].
  intros e He. rewrite (Hd' e He). done.
Qed.

Lemma careful_ensure_conversation env cid user uid :
  careful (ensure_conversation env cid user uid).
Proof.
  unfold ensure_conversation. apply careful_bind_reads; [apply reads_d1_query|].
  intros [c|]; [apply careful_of_reads, reads_ret|]. intros s. unfold d1_update.
  destruct (d1_fails env (d1_count s)) eqn:E.
  - erewrite bind_throw; [|by apply d1_run_fails]. done.
  - erewrite bind_ok; [|by apply d1_run_ok]. cbn [fst snd].
    set (s1 := mkState _ _ _ _).
    destruct (reads_notifyConversationUpdate env uid s1) as [_ Hm].
    pose proof (notifyConversationUpdate_returns env uid s1) as Hr.
    destruct (notifyConversationUpdate env uid s1) as [[s2 t2] r2]. cbn in *.
    split; [done|]. intros e He. congruence.
Qed.

Lemma careful_onChatMessage env : careful (onChatMessage env).
Proof.
  unfold onChatMessage. apply careful_bind_reads; [apply reads_get|]. intros s0.
  destruct (negb _); [apply careful_of_reads, reads_throw|].
  apply careful_bind_reads; [apply reads_from_stored_token|]. intros userId1.
  apply careful_bind_reads; [apply reads_from_conversation|]. intros userId2.
  apply careful_bind_reads; [apply reads_valid_session|]. intros su.
  apply careful_bind_reads; [destruct (bool_decide _); auto with reads|]. intros [].
  intros s. pose proof (careful_ensure_conversation env (default "" (storage s0 !! "conversationId"))
                          (mkAuthUser (user_id su.2) (email su.2) (name su.2)) userId2 s) as Hc.
  unfold_handler. destruct (ensure_conversation _ _ _ _ s) as [[s1 t1] [e|[]]]; cbn in *.
  - destruct Hc as [Hm Hd]. split; [done|]. intros e' _. by apply (Hd e).
  - destruct Hc as [Hm _]. by split.
Qed.

(** *** Requests and restarts *)

Lemma bind_conversation_total env cid s :
  ∃ s1 t1, bind_conversation env cid s = (s1, t1, inr tt) ∧ db s1 = db s ∧
           storage s1 = storage s ∧
           (truthy cid = false → s1 = s ∧ t1 = []).
Proof.
  destruct (truthy cid) eqn:Ht.
  - destruct cid as [c|]; [|done]. apply truthy_Some in Ht.
    destruct (needsReload c (storage s !! "conversationId") (messages s)) eqn:Hn.
    + rewrite (bind_conversation_reload env c s Ht Hn).
      destruct (d1_fails env (d1_count s)); [by eexists _, _|].
      destruct (loaded c (db s)); by eexists _, _.
    + rewrite (bind_conversation_keep env c s Ht Hn). by eexists _, _.
  - exists s, []. unfold bind_conversation. by rewrite bind_get, Ht.
Qed.

(** *** The header of the conversation *)

Lemma returns_with_bind_reads {A B} (m : Handler A) (k : A → Handler B) d0 Q :
  reads m → (∀ a, returns_with (k a) d0 Q) → returns_with (m ≫= k) d0 Q.
Proof.
  intros Hm Hk s Hs b. specialize (Hm s). unfold_handler.
  destruct (m s) as [[s1 t1] [e|a]]; [done|].
  specialize (Hk a s1). destruct (k a s1) as [[s2 t2] r] eqn:E. cbn in *.
  intros ->. destruct Hm as [Hd _]. apply (Hk ltac:(congruence) b eq_refl).
Qed.

Lemma select_conversation_inserted cid uid d :
  select_conversation cid d = None →
  select_conversation cid (insert_conversation (new_conversation cid uid) d)
  = Some (new_conversation cid uid).
Proof.
  clear. unfold select_conversation, insert_conversation. cbn [chat_conversations].
  rewrite filter_app. intros Hnone%head_None. rewrite Hnone.
  by rewrite filter_cons_True.
Qed.

Lemma ensure_conversation_header env cid user uid d0 :
  returns_with (ensure_conversation env cid user uid;; mret (mkTurn cid uid user)) d0
    (λ turn d,
       d = (if select_conversation (turn_conversationId turn) d0 is Some _ then d0
            else insert_conversation
                   (new_conversation (turn_conversationId turn) (userId (turn_user turn))) d0)).
Proof.
  intros s Hs turn. unfold ensure_conversation, d1_query, d1_update.
  destruct (d1_fails env (d1_count s)) eqn:E1.
  { erewrite bind_throw; [done|]. eapply bind_throw. by apply d1_run_fails. }
  destruct (select_conversation cid (db s)) as [c|] eqn:Hsel.
  { erewrite bind_step; [| |done].
    2: { eapply bind_step; [by apply d1_run_ok|]. cbn [fst snd]. by rewrite Hsel. }
    cbn. intros [= <-]. cbn. by rewrite <-Hs, Hsel. }
  destruct (d1_fails env (S (d1_count s))) eqn:E2.
  { erewrite bind_throw; [done|]. eapply bind_step; [by apply d1_run_ok|].
    cbn [fst snd]. rewrite Hsel. eapply bind_throw. by apply d1_run_fails. }
  set (s1 := mkState (messages s) (storage s)
                     (insert_conversation (new_conversation cid (userId user)) (db s))
                     (S (S (d1_count s)))).
  destruct (reads_notifyConversationUpdate env uid s1) as [Hd _].
  pose proof (notifyConversationUpdate_returns env uid s1) as Hr.
  destruct (notifyConversationUpdate env uid s1) as [[s2 t2] r2] eqn:En.
  unfold outcome_of, state_of in Hr, Hd. cbn in Hr, Hd. subst r2.
  erewrite bind_step; [| |done].
  2: { eapply bind_step; [by apply d1_run_ok|]. cbn [fst snd]. rewrite Hsel.
       eapply bind_step; [by apply d1_run_ok|]. exact En. }
  cbn. intros [= <-]. cbn. by rewrite Hd, <-Hs, Hsel.
Qed.

Lemma onChatMessage_header env d0 :
  returns_with (onChatMessage env) d0
    (λ turn d,
       d = (if select_conversation (turn_conversationId turn) d0 is Some _ then d0
            else insert_conversation
                   (new_conversation (turn_conversationId turn) (userId (turn_user turn))) d0)).
Proof.
  unfold onChatMessage. apply returns_with_bind_reads; [apply reads_get|]. intros s0.
  destruct (negb _); [by intros s Hs turn|].
  apply returns_with_bind_reads; [apply reads_from_stored_token|]. intros userId1.
  apply returns_with_bind_reads; [apply reads_from_conversation|]. intros userId2.
  apply returns_with_bind_reads; [apply reads_valid_session|]. intros su.
  apply returns_with_bind_reads; [destruct (bool_decide _); auto with reads|]. intros [].
  apply ensure_conversation_header.
Qed.

(** *** [requireAuth] *)

Lemma requireAuth_eq env request s :
  requireAuth env request s
  = if truthy (requireAuth_token request) then
      (mkState (messages s) (storage s) (db s) (S (d1_count s)),
       [d1 (SelectSessionByToken (default "" (requireAuth_token request)))],
       if d1_fails env (d1_count s) then inl D1Error
       else inr (match token_user env (default "" (requireAuth_token request)) (db s) with
                 | Some u => Authenticated u (default "" (requireAuth_token request))
                 | None => InvalidToken
                 end))
    else (s, [], inr NoTokenProvided).
Proof.
  unfold requireAuth. destruct (truthy (requireAuth_token request)); [|done]. cbn [negb].
  pose proof (validateToken_cases env (default "" (requireAuth_token request)) s) as Hv.
  destruct (d1_fails env (d1_count s)).
  - by erewrite bind_throw.
  - erewrite bind_ok; [|exact Hv].
    by destruct (token_user env (default "" (requireAuth_token request)) (db s)).
Qed.


(** X20. [validateToken] does not change the object. When D1 answers, the user
    it returns is the user of a session row that carries the token and has
    not expired, and it returns no user exactly when every session with the
    token whose user exists has expired; a session that expires at the
    current instant counts as expired. *)
Theorem validateToken_sound_and_complete (env : Env) (tok : string) (s : State) :
  d1_fails env (d1_count s) = false →
  let r := validateToken env tok s in
  db (state_of r) = db s ∧ messages (state_of r) = messages s ∧
  storage (state_of r) = storage s ∧
  (∀ u, outcome_of r = inr (Some u) →
     ∃ sess row,
       sess ∈ session (db s) ∧ row ∈ user (db s) ∧ token sess = tok ∧
       (Date_now env < expires_at sess)%Z ∧ user_id row = session_user_id sess ∧
       u = mkAuthUser (user_id row) (email row) (name row)) ∧
  (outcome_of r = inr None ↔
   ∀ sess row, sess ∈ session (db s) → row ∈ user (db s) → token sess = tok →
               user_id row = session_user_id sess → (expires_at sess ≤ Date_now env)%Z).
Proof.
  intros Hok. cbn zeta. rewrite validateToken_cases, Hok. cbn. split_and!; try done.
  - intros u [= Hu]. unfold token_user in Hu.
    destruct (select_session_by_token tok (Date_now env) (db s)) as [[sess row]|] eqn:E;
      [|done].
    injection Hu as <-. exists sess, row.
    by destruct (select_session_by_token_Some _ _ _ _ _ E) as (? & ? & ? & ? & ?).
  - rewrite <-select_session_by_token_None. unfold token_user.
    destruct (select_session_by_token tok (Date_now env) (db s)) as [[sess row]|];
      split; intros H; done.
Qed.

(** X21. [requireAuth] changes nothing of the object. Without a token it
    answers 401 without asking D1. It authenticates only the user of an
    unexpired session row that carries the token it took from the request,
    and answers 401 when there is none. *)
Theorem requireAuth_sound (env : Env) (request : Request) (s : State) :
  let r := requireAuth env request s in
  db (state_of r) = db s ∧ messages (state_of r) = messages s ∧
  storage (state_of r) = storage s ∧
  (truthy (requireAuth_token request) = false → r = (s, [], inr NoTokenProvided)) ∧
  (∀ u tok, outcome_of r = inr (Authenticated u tok) →
     requireAuth_token request = Some tok ∧ tok ≠ "" ∧
     ∃ sess row,
       sess ∈ session (db s) ∧ row ∈ user (db s) ∧ token sess = tok ∧
       (Date_now env < expires_at sess)%Z ∧ user_id row = session_user_id sess ∧
       u = mkAuthUser (user_id row) (email row) (name row)) ∧
  (outcome_of r = inr InvalidToken →
   ∀ sess row, sess ∈ session (db s) → row ∈ user (db s) →
               Some (token sess) = requireAuth_token request →
               user_id row = session_user_id sess → (expires_at sess ≤ Date_now env)%Z).
Proof.
  cbn zeta. rewrite requireAuth_eq.
  destruct (truthy (requireAuth_token request)) eqn:Ht; [|done].
  destruct (requireAuth_token request) as [tok|] eqn:Htok; [|done].
  apply truthy_Some in Ht. cbn. split_and!; try done.
  - intros u tok'. destruct (d1_fails env (d1_count s)); [done|].
    unfold token_user.
    destruct (select_session_by_token tok (Date_now env) (db s)) as [[sess row]|] eqn:E;
      [|done].
    intros [= <- <-]. split_and!; try done. exists sess, row.
    by destruct (select_session_by_token_Some _ _ _ _ _ E) as (? & ? & ? & ? & ?).
  - destruct (d1_fails env (d1_count s)); [done|]. unfold token_user.
    destruct (select_session_by_token tok (Date_now env) (db s)) as [[sess row]|] eqn:E;
      [done|].
    intros _ sess row Hs Hr [= Heq].
    by apply (proj1 (select_session_by_token_None _ _ _) E).
Qed.

(** X22. A turn that fails, for whatever reason (no conversation bound, no
    user, an expired session, a D1 statement that fails), has written
    nothing to the database, and no turn touches the log in memory.
    Without a bound conversation the turn fails at once, before any
    statement. *)
Theorem onChatMessage_failure_writes_nothing (env : Env) (s : State) :
  let r := onChatMessage env s in
  messages (state_of r) = messages s ∧
  (∀ e, outcome_of r = inl e → db (state_of r) = db s) ∧
  (truthy (storage s !! "conversationId") = false → r = (s, [], inl NoConversationId)).
Proof.
  cbn zeta. destruct (careful_onChatMessage env s) as [Hm Hd]. split_and!; try done.
  intros Ht. unfold onChatMessage. by rewrite bind_get, Ht.
Qed.

(** X23. A turn that [onChatMessage] lets through leaves a header row for the
    conversation: when the conversation had none, one is inserted, owned by
    the acting user and titled [New conversation]; when it had one, the
    database is left as it is, whoever owns the header. *)
Theorem onChatMessage_ensures_header (env : Env) (s : State) (turn : Turn) :
  outcome_of (onChatMessage env s) = inr turn →
  let cid := turn_conversationId turn in
  let d := db (state_of (onChatMessage env s)) in
  d = (if select_conversation cid (db s) is Some _ then db s
       else insert_conversation (new_conversation cid (userId (turn_user turn))) (db s)) ∧
  is_Some (select_conversation cid d) ∧
  (select_conversation cid (db s) = None →
   select_conversation cid d = Some (new_conversation cid (userId (turn_user turn)))).
Proof.
  intros Hr. cbn zeta.
  pose proof (onChatMessage_header env (db s) s eq_refl turn Hr) as Hd. cbn beta in Hd.
  rewrite Hd. split; [done|].
  destruct (select_conversation (turn_conversationId turn) (db s)) as [c|] eqn:E.
  - rewrite E. split; [by eexists|done].
  - rewrite select_conversation_inserted by done. split; [by eexists|done].
Qed.

(** X24. The title check of [wrappedOnFinish] asks D1 only when the log holds
    three or four user messages, and never changes the log or the
    database. When D1 answers, the generation of a title is started exactly
    when, in addition, the header of the conversation still has the title
    [New conversation] and the user id is not empty. *)
Theorem title_generation_trigger (env : Env) (conversationId userId : string) (s : State) :
  let r := title_check env conversationId userId s in
  db (state_of r) = db s ∧ messages (state_of r) = messages s ∧
  (¬ (3 ≤ userMessageCount s ≤ 4) → r = (s, [], inr tt)) ∧
  (d1_fails env (d1_count s) = false →
   (background_title conversationId userId ∈ trace_of r ↔
    3 ≤ userMessageCount s ≤ 4 ∧ userId ≠ "" ∧
    ∃ c, select_conversation conversationId (db s) = Some c ∧
         title c = Some "New conversation")).
Proof.
  cbn zeta. rewrite title_check_eq.
  destruct (3 <=? userMessageCount s) eqn:H3; cbn [andb];
    [destruct (userMessageCount s <=? 4) eqn:H4|].
  - apply Nat.leb_le in H3, H4. destruct (d1_fails env (d1_count s)) eqn:E.
    + split_and!; try done. intros Hn. lia.
    + split_and!; try done; [intros Hn; lia|]. intros _. unfold trace_of. cbn [fst snd].
      destruct (select_conversation conversationId (db s)) as [c|].
      * destruct (bool_decide (title c = Some "New conversation")) eqn:Hb; cbn [andb].
        -- apply bool_decide_eq_true in Hb. destruct (truthy (Some userId)) eqn:Ht.
           ++ apply truthy_Some in Ht. split; [|intros _; right; by left].
              intros _. split_and!; [lia..|done|by exists c].
           ++ split.
              ** intros [?|Hin%elem_of_nil]%elem_of_cons; done.
              ** intros (_ & Hne & _). apply truthy_Some in Hne. congruence.
        -- apply bool_decide_eq_false in Hb. split.
           ++ intros [?|Hin%elem_of_nil]%elem_of_cons; done.
           ++ intros (_ & _ & c' & [= <-] & ?). done.
      * split.
        -- intros [?|Hin%elem_of_nil]%elem_of_cons; done.
        -- by intros (_ & _ & c' & ? & _).
  - apply Nat.leb_gt in H4. split_and!; try done. intros _. split.
    + by intros ?%elem_of_nil.
    + intros (? & _). lia.
  - apply Nat.leb_gt in H3. split_and!; try done. intros _. split.
    + by intros ?%elem_of_nil.
    + intros (? & _). lia.
Qed.

(** X25. The rewrite of the durable log is not atomic, and its failure is only
    logged. When the [DELETE] fails, the rows stay as they were. When the
    [DELETE] and the first [j] [INSERT]s succeed and the next [INSERT]
    fails, the conversation is left with the rows of its first [j]
    messages only. In both cases the log in memory and the rows of other
    conversations are untouched and nothing is thrown. *)
Theorem save_messages_is_not_atomic (env : Env) (conversationId : string) (s : State) :
  (d1_fails env (d1_count s) = true →
   save_messages env conversationId s
   = (mkState (messages s) (storage s) (db s) (S (d1_count s)),
      [d1 (DeleteMessages conversationId); console_error "Error saving messages"],
      inr tt)) ∧
  (∀ j, j < length (messages s) →
     (∀ i, i ≤ j → d1_fails env (d1_count s + i) = false) →
     d1_fails env (d1_count s + S j) = true →
     let r := save_messages env conversationId s in
     outcome_of r = inr tt ∧
     messages (state_of r) = messages s ∧
     (λ row, (row_role row, content row)) <$> rows_of conversationId (db (state_of r))
     = (λ m, (role m, JSON_stringify m)) <$> take j (messages s) ∧
     (∀ c, c ≠ conversationId → rows_of c (db (state_of r)) = rows_of c (db s)) ∧
     last (trace_of r) = Some (console_error "Error saving messages")).
Proof.
  split; [apply save_messages_delete_fails|].
  intros j Hj Hok Hfail. cbn zeta.
  rewrite (save_messages_insert_fails env conversationId s j Hj Hok Hfail).
  unfold outcome_of, state_of, trace_of. cbn [fst snd messages db].
  split_and!; try done.
  - rewrite rows_of_rewritten by apply new_rows_conversation. apply new_rows_contents.
  - intros c Hc. apply rows_of_other; [done|apply new_rows_conversation].
  - by rewrite app_comm_cons, last_snoc.
Qed.

(** X26. [onRequest] never writes to the database, and throws only when the
    validation of the request's token fails in D1. A request without a
    conversation id, or with an empty one, leaves the log and the binding
    as they are and loads nothing. *)
Theorem onRequest_reads_only (env : Env) (request : Request) (s : State) :
  let r := onRequest env request s in
  db (state_of r) = db s ∧
  (∀ e, outcome_of r = inl e → e = D1Error ∧ truthy (request_token request) = true) ∧
  (truthy (query_conversationId request) = false →
   messages (state_of r) = messages s ∧
   storage (state_of r) !! "conversationId" = storage s !! "conversationId" ∧
   ∀ c, d1 (SelectMessages c) ∉ trace_of r).
Proof.
  cbn zeta. unfold onRequest.
  destruct (bind_conversation_total env (query_conversationId request) s)
    as (s1 & t1 & Hb & Hd1 & Hs1 & Hfalsy).
  set (s2 := if truthy (query_conversationId request)
             then mkState (messages s1)
                    (<["conversationId" := default "" (query_conversationId request)]>
                       (storage s1)) (db s1) (d1_count s1)
             else s1).
  assert (save_conversationId (query_conversationId request) s1 = (s2, [], inr tt)) as Hsave.
  { unfold save_conversationId, s2. by destruct (truthy (query_conversationId request)). }
  assert (db s2 = db s1 ∧ messages s2 = messages s1) as [Hd2 Hm2].
  { unfold s2. by destruct (truthy (query_conversationId request)). }
  destruct (save_token_frame env (request_token request) s2)
    as (Hm3 & Hd3 & Hc3 & Hsel3 & _ & Ho3 & _).
  destruct (save_token env (request_token request) s2) as [[s3 t3] r3] eqn:Ht.
  unfold state_of, trace_of, outcome_of in Hm3, Hd3, Hc3, Hsel3, Ho3. cbn in *. subst r3.
  destruct (truthy (request_token request) && d1_fails env (d1_count s2)) eqn:Hfail.
  - erewrite bind_step; [|exact Hb|].
    2: { eapply bind_step; [exact Hsave|]. eapply bind_throw. exact Ht. }
    cbn. split_and!.
    + congruence.
    + intros e [= <-]. by apply andb_true_iff in Hfail as [? _].
    + intros Hf. destruct (Hfalsy Hf) as [-> ->]. unfold s2 in *. rewrite Hf in *.
      split_and!; [congruence|done|done].
  - erewrite bind_step; [|exact Hb|].
    2: { eapply bind_step; [exact Hsave|]. eapply bind_step; [exact Ht|]. apply respond_eq. }
    cbn. split_and!.
    + congruence.
    + done.
    + intros Hf. destruct (Hfalsy Hf) as [-> ->]. unfold s2 in *. rewrite Hf in *.
      rewrite !app_nil_r. split_and!; [congruence|done|done].
Qed.

(** X27. The log survives a restart of the object: after a turn that ended
    cleanly, a new instance (whose constructor clears the log in memory)
    that handles a request for the conversation has the log of the old
    instance again, provided [JSON.parse] inverts [JSON.stringify], the
    clock of D1 does not go back, and D1 answers the load. *)
Theorem saved_log_survives_restart (env env' : Env) (onFinish : Handler unit)
    (request : Request) (cid uid : string) (s s1 : State) (t1 : list Effect) :
  (∀ m, JSON_parse (JSON_stringify m) = Some m) →
  (∀ i, (datetime_now env i ≤ datetime_now env (S i))%Z) →
  onFinish s = (s1, t1, inr tt) →
  (∀ i, i ≤ length (messages s1) → d1_fails env (d1_count s1 + i) = false) →
  query_conversationId request = Some cid → cid ≠ "" →
  let s' := constructor (state_of (wrappedOnFinish env onFinish cid uid s)) in
  d1_fails env' (d1_count s') = false →
  messages s' = [] ∧
  messages (state_of (onRequest env' request s')) = messages s1.
Proof.
  intros Hjson Hmono Hfin Hok Hq Hcid s' Hok'. split; [done|].
  pose proof (saved_log_reloads env onFinish cid uid s s1 t1 Hjson Hmono Hfin Hok) as Hl.
  assert (needsReload cid (storage s' !! "conversationId") (messages s') = true) as Hn.
  { apply needsReload_iff; [done|]. right. by right. }
  pose proof (bind_conversation_reload env' cid s' Hcid Hn) as Hb.
  rewrite Hok' in Hb. change (db s') with (db (state_of (wrappedOnFinish env onFinish cid uid s))) in Hb.
  rewrite Hl in Hb.
  by destruct (onRequest_after_bind env' request cid s' _ _ Hq Hcid Hb) as (-> & _).
Qed.

End ChatMore.

Lemma saved_log_survives_restart_witness :
  messages (state_of (onRequest (json := tagged_json) env_ok get_messages_c1
                        (constructor (state_of (wrappedOnFinish env_ok (mret tt)
                                                   "c1" "u1" tagged_c1)))))
  = [(true, "hello"); (false, "hi")].
Proof.
  refine (proj2 (saved_log_survives_restart (json := tagged_json) env_ok env_ok (mret tt)
                   get_messages_c1 "c1" "u1" tagged_c1 tagged_c1 [] _ _ eq_refl _ eq_refl
                   _ eq_refl)).
  - by intros [[] t].
  - intros i. cbn. lia.
  - done.
  - done.
Defined.


#[local] Existing Instance simple_json.

(** C1, as stated, fails: D1 rejects the second [INSERT] of the save; the
    error is caught, the turn completes, and the conversation is left with
    one row while the log holds three messages. *)
Lemma wrappedOnFinish_rewrites_log_counterexample :
  let r := wrappedOnFinish env_third_fails (mret tt) "c1" "u1" bound_c1 in
  outcome_of r = inr tt ∧
  (λ m, (simple_role m, simple_stringify m)) <$> messages (state_of r)
  = [("user", "user:hello"); ("assistant", "assistant:hi"); ("user", "user:thanks")] ∧
  (λ row, (row_role row, content row)) <$> rows_of "c1" (db (state_of r))
  = [("user", "user:hello")] ∧
  console_error "Error saving messages" ∈ trace_of r.
Proof.
  cbn zeta. split_and!; [by vm_compute..|].
  apply (list_elem_of_lookup_2 _ 3). by vm_compute.
Qed.

Lemma wrappedOnFinish_rewrites_log_witness :
  (λ row, (row_role row, content row))
    <$> rows_of "c1" (db (state_of (wrappedOnFinish env_ok (mret tt) "c1" "u1" bound_c1)))
  = [("user", "user:hello"); ("assistant", "assistant:hi"); ("user", "user:thanks")] ∧
  rows_of "c2" (db (state_of (wrappedOnFinish env_ok (mret tt) "c1" "u1" bound_c1)))
  = [mkMessageRow "c2" "user" "user:other" 11] ∧
  (λ row, (row_role row, content row))
    <$> rows_of "c1"
          (db (state_of (wrappedOnFinish env_third_fails (mret tt) "c1" "u1" bound_c1)))
  = [("user", "user:hello")].
Proof.
  pose proof (wrappedOnFinish_rewrites_log env_ok (mret tt) "c1" "u1" bound_c1 bound_c1 []
                eq_refl) as Hok.
  pose proof (wrappedOnFinish_rewrites_log env_third_fails (mret tt) "c1" "u1"
                bound_c1 bound_c1 [] eq_refl) as Hko.
  cbv zeta in Hok, Hko.
  destruct Hok as (_ & Hother & _ & Hall & _). destruct Hko as (_ & _ & _ & _ & _ & Hins).
  split; [exact (proj1 (Hall (λ _ _, eq_refl)))|]. split; [by rewrite (Hother "c2")|].
  refine (proj1 (Hins 1 _ _ _)).
  - cbn. lia.
  - intros [|[|i]] Hi; [done..|lia].
  - done.
Defined.


(** C6 does not hold of the code. The [SELECT] of the log of [c1] is
    rejected, yet the [get-messages] request is answered with the empty
    array, not with an error, although the conversation has rows. The
    object then works on the empty log: the next turn saves what the log
    holds, the messages of that turn, and the rows stored before are gone. *)
Lemma onRequest_load_failure_counterexample :
  let r := onRequest env_d1_down get_messages_c1 fresh in
  let turn := set_messages [("user", "again"); ("assistant", "sure")] (state_of r) in
  d1_fails env_d1_down (d1_count fresh) = true ∧
  content <$> rows_of "c1" (db fresh) = ["user:hello"; "assistant:hi"] ∧
  load_error ∈ trace_of r ∧
  outcome_of r = inr EmptyArray ∧
  outcome_of (wrappedOnFinish env_ok (mret tt) "c1" "u1" turn) = inr tt ∧
  content <$> rows_of "c1" (db (state_of (wrappedOnFinish env_ok (mret tt) "c1" "u1" turn)))
  = ["user:again"; "assistant:sure"].
Proof.
  cbn zeta. split_and!; try by vm_compute.
  right. by left.
Qed.

Lemma onRequest_load_failure_witness :
  messages (state_of (onRequest env_d1_down get_messages_c1 fresh)) = [] ∧
  outcome_of (onRequest env_d1_down get_messages_c1 fresh) = inr EmptyArray ∧
  messages (state_of (onRequest env_ok get_messages_c1
                        (state_of (onRequest env_d1_down get_messages_c1 fresh))))
  = [("user", "hello"); ("assistant", "hi")].
Proof.
  destruct (onRequest_load_failure env_d1_down get_messages_c1 "c1" fresh
              eq_refl ltac:(done) ltac:(by left) eq_refl)
    as (Hm & _ & _ & _ & Ho & Hretry).
  split; [exact Hm|]. split; [exact Ho|].
  by apply (Hretry env_ok).
Defined.

(** C3, as stated, fails: the stored user id yields a user, and yet the
    request is refused as unauthorized, because the user's only session
    has expired. *)
Lemma onChatMessage_identity_counterexample :
  resolve_userId env_late "c1" bound_c1 = Some "u1" ∧
  outcome_of (onChatMessage env_late bound_c1) = inl Unauthorized_SessionExpired.
Proof. split; by vm_compute. Qed.

Lemma onChatMessage_identity_witness :
  outcome_of (onChatMessage env_ok bound_c1)
  = inr (mkTurn "c1" "u1" (mkAuthUser "u1" "ann@example.org" "Ann")) ∧
  outcome_of (onChatMessage env_ok unknown_c9) = inl Unauthorized_NoValidSession ∧
  ∃ turn,
    outcome_of
      (onChatMessage env_ok
         (state_of (onRequest env_ok chat_c9_with_token
                      (state_of (onChatMessage env_ok unknown_c9)))))
    = inr turn ∧ turn_userId turn = "u1".
Proof.
  destruct (onChatMessage_identity env_ok "c1" bound_c1
              (λ _, eq_refl) ltac:(by vm_compute) ltac:(done)) as (Hout & _).
  destruct (onChatMessage_identity env_ok "c9" unknown_c9
              (λ _, eq_refl) ltac:(by vm_compute) ltac:(done)) as (Hout9 & _ & Hretry).
  assert (resolve_userId env_ok "c1" bound_c1 = Some "u1") as Hr by (by vm_compute).
  assert (select_valid_session "u1" (Date_now env_ok) (db bound_c1)
          = Some (mkSessionRow "t1" "u1" 5000 1, mkUserRow "u1" "ann@example.org" "Ann"))
    as Hs by (by vm_compute).
  assert (resolve_userId env_ok "c9" unknown_c9 = None) as Hr9 by (by vm_compute).
  rewrite Hr, Hs in Hout. rewrite Hr9 in Hout9.
  split; [exact Hout|]. split; [exact Hout9|].
  destruct (Hretry chat_c9_with_token "t1"
              (mkSessionRow "t1" "u1" 5000 1) (mkUserRow "u1" "ann@example.org" "Ann")
              eq_refl eq_refl ltac:(done) ltac:(by vm_compute) ltac:(done))
    as (turn & Hturn & Huid & _).
  by exists turn.
Defined.

Lemma validateToken_sound_and_complete_witness :
  ∃ sess row,
    sess ∈ session a_db ∧ row ∈ user a_db ∧ token sess = "t1" ∧
    (1000 < expires_at sess)%Z ∧ user_id row = session_user_id sess ∧
    mkAuthUser "u1" "ann@example.org" "Ann"
    = mkAuthUser (user_id row) (email row) (name row).
Proof.
  destruct (validateToken_sound_and_complete env_ok "t1" fresh eq_refl) as (_ & _ & _ & H & _).
  apply (H (mkAuthUser "u1" "ann@example.org" "Ann")). by vm_compute.
Defined.

Lemma onChatMessage_ensures_header_witness :
  select_conversation "c9" (db (state_of (onChatMessage env_ok bound_c9)))
  = Some (mkConversationRow "c9" "u1" (Some "New conversation")) ∧
  db (state_of (onChatMessage env_ok bound_c1)) = a_db.
Proof.
  split.
  - destruct (onChatMessage_ensures_header env_ok bound_c9
                (mkTurn "c9" "u1" (mkAuthUser "u1" "ann@example.org" "Ann"))
                ltac:(by vm_compute)) as (_ & _ & H).
    apply H. by vm_compute.
  - destruct (onChatMessage_ensures_header env_ok bound_c1
                (mkTurn "c1" "u1" (mkAuthUser "u1" "ann@example.org" "Ann"))
                ltac:(by vm_compute)) as (H & _).
    rewrite H. by vm_compute.
Defined.

Lemma save_messages_is_not_atomic_witness :
  (λ row, (row_role row, content row))
    <$> rows_of "c1" (db (state_of (save_messages env_third_fails "c1" bound_c1)))
  = [("user", "user:hello")] ∧
  rows_of "c1" (db bound_c1) ≠ [] ∧
  outcome_of (save_messages env_third_fails "c1" bound_c1) = inr tt.
Proof.
  destruct (save_messages_is_not_atomic env_third_fails "c1" bound_c1) as [_ H].
  destruct (H 1) as (Ho & _ & Hrows & _).
  - cbn. lia.
  - intros i Hi. destruct i as [|[|i]]; [done..|lia].
  - done.
  - split; [rewrite Hrows; by vm_compute|]. split; [by vm_compute|done].
Defined.

End Chat.

(** ** The Worker *)

Module Worker.

(** The request that [Chat.notifyConversationUpdate] sends to the user's
    NotificationManager: a POST to [https://internal/notify], the user id
    and the data in the body, no query string. *)
Definition notify_request (userId data : string) : NotificationManager.Request :=
  NotificationManager.mkRequest None "/notify" "POST" userId data.

(** What [handleCollabRoutes] does with a request: the branch it takes.
    The statements that the last three branches send to D1 are not
    modelled. *)
Inductive CollabRoute :=
| MissingItineraryId                        (* 400 "Missing itinerary ID" *)
| ToObject (itineraryId : string)           (* the [fetch] of the object of that name *)
| ListItineraries                           (* the listing read from D1 *)
| GetSharedItinerary (itineraryId : option string)   (* the row read from D1 *)
| PutSharedItinerary (itineraryId : option string).  (* the row updated in D1 *)

(** [handleCollabRoutes(request, env)], by the path and the method of the
    request; [None] is the [null] that passes the request on. *)
Definition handleCollabRoutes (pathname method : string) : option CollabRoute :=
  if String.prefix "/api/collab/" pathname then
    let pathParts := String_split "/" pathname in
    let itineraryId := pathParts !! 3 in
    if negb (truthy itineraryId) then Some MissingItineraryId
    else Some (ToObject (default "" itineraryId))
  else if String.eqb pathname "/api/collab/itineraries/list" && String.eqb method "GET"
  then Some ListItineraries
  else if String.prefix "/api/collab/itinerary/" pathname && String.eqb method "GET"
  then Some (GetSharedItinerary (String_split "/api/collab/itinerary/" pathname !! 1))
  else if String.prefix "/api/collab/itinerary/" pathname && String.eqb method "PUT"
  then Some (PutSharedItinerary (String_split "/api/collab/itinerary/" pathname !! 1))
  else None.

Lemma split_itinerary_path t :
  String_split "/" ("/api/collab/itinerary/" +:+ t) !! 3 = Some "itinerary".
Proof. by destruct t. Qed.

Lemma prefix_collab_itinerary pathname :
  String.prefix "/api/collab/itinerary/" pathname = true →
  String.prefix "/api/collab/" pathname = true.
Proof. apply (prefix_append_inv "/api/collab/" "itinerary/"). Qed.

Lemma prefix_itinerary_path t :
  String.prefix "/api/collab/" ("/api/collab/itinerary/" +:+ t) = true.
Proof. apply (prefix_append "/api/collab/" ("itinerary/" +:+ t)). Qed.

Lemma handleCollabRoutes_eq pathname method :
  handleCollabRoutes pathname method
  = if String.prefix "/api/collab/" pathname then
      if negb (truthy (String_split "/" pathname !! 3)) then Some MissingItineraryId
      else Some (ToObject (default "" (String_split "/" pathname !! 3)))
    else None.
Proof.
  unfold handleCollabRoutes.
  destruct (String.prefix "/api/collab/" pathname) eqn:Hp; [done|].
  destruct (String.eqb_spec pathname "/api/collab/itineraries/list") as [->|_]; [done|].
  cbn [andb].
  destruct (String.prefix "/api/collab/itinerary/" pathname) eqn:Hp'; [|done].
  apply prefix_collab_itinerary in Hp'. congruence.
Qed.

(** X28. The notification that the Chat object posts never reaches a
    subscriber: its URL has no [userId] parameter, so the
    NotificationManager answers 400 before it looks at the path, and writes
    nothing. The parameter is only tested for presence: with any non-empty
    value in it the same body is delivered to the user named in the body. *)
Theorem chat_notification_is_rejected (userId data : string)
    (s : NotificationManager.State) :
  NotificationManager.fetch (notify_request userId data) s
  = (NotificationManager.MissingUserId, s) ∧
  ∀ q, q ≠ "" →
    NotificationManager.fetch
      (NotificationManager.mkRequest (Some q) "/notify" "POST" userId data) s
    = (NotificationManager.Notified (NotificationManager.notify userId data s).1,
       (NotificationManager.notify userId data s).2).
Proof.
  split; [done|]. intros q Hq. unfold NotificationManager.fetch. cbn.
  destruct (String.eqb_spec q ""); [done|]. cbn.
  by destruct (NotificationManager.notify userId data s).
Qed.

(** X29. Every request under [/api/collab/] is answered by the first branch of
    [handleCollabRoutes]: it is handed to the object named by the fourth
    segment of the path, or refused with 400 when that segment is empty.
    The branches that list, read and update shared itineraries in D1 are
    never reached: their paths go to the objects named [itineraries] and
    [itinerary]. Any other path is passed on. *)
Theorem collab_routes_reach_only_the_object (pathname method : string) :
  handleCollabRoutes pathname method
  = (if String.prefix "/api/collab/" pathname then
       if negb (truthy (String_split "/" pathname !! 3)) then Some MissingItineraryId
       else Some (ToObject (default "" (String_split "/" pathname !! 3)))
     else None) ∧
  handleCollabRoutes pathname method ≠ Some ListItineraries ∧
  (∀ id, handleCollabRoutes pathname method ≠ Some (GetSharedItinerary id)) ∧
  (∀ id, handleCollabRoutes pathname method ≠ Some (PutSharedItinerary id)) ∧
  handleCollabRoutes "/api/collab/itineraries/list" method = Some (ToObject "itineraries") ∧
  (∀ id, handleCollabRoutes ("/api/collab/itinerary/" +:+ id) method
         = Some (ToObject "itinerary")).
Proof.
  rewrite handleCollabRoutes_eq. split; [done|].
  assert (∀ r, (if String.prefix "/api/collab/" pathname then
                  if negb (truthy (String_split "/" pathname !! 3)) then Some MissingItineraryId
                  else Some (ToObject (default "" (String_split "/" pathname !! 3)))
                else None) = Some r →
               r = MissingItineraryId ∨ ∃ id, r = ToObject id) as Hr.
  { intros r. destruct (String.prefix _ _); [|done].
    destruct (negb _); intros [= <-]; [by left|right; by eexists]. }
  split_and!.
  - intros [?|[? ?]]%Hr; done.
  - intros id [?|[? ?]]%Hr; done.
  - intros id [?|[? ?]]%Hr; done.
  - done.
  - intros id. rewrite handleCollabRoutes_eq.
    by rewrite prefix_itinerary_path, split_itinerary_path.
Qed.

(** X30. So a request to read or update a shared itinerary ends in the 404 of
    the object named [itinerary], which is left unchanged: the object
    knows only the WebSocket upgrade, [GET .../state] and [POST .../create]. *)
Theorem shared_itinerary_requests_get_404 (id : string) (env : CollaborativeItinerary.Env)
    (server : CollaborativeItinerary.WebSocket) (generated : string) (r : CollaborativeItinerary.Request)
    (s : CollaborativeItinerary.State) :
  CollaborativeItinerary.pathname r = "/api/collab/itinerary/" +:+ id →
  CollaborativeItinerary.upgrade r ≠ Some "websocket" →
  CollaborativeItinerary.method r = "GET" ∨ CollaborativeItinerary.method r = "PUT" →
  endsWith "/state" (CollaborativeItinerary.pathname r) = false →
  handleCollabRoutes (CollaborativeItinerary.pathname r) (CollaborativeItinerary.method r) = Some (ToObject "itinerary") ∧
  CollaborativeItinerary.fetch env server generated r s = (s, [], inr CollaborativeItinerary.NotFound).
Proof.
  intros Hp Hu Hm Hs. split.
  - rewrite Hp, handleCollabRoutes_eq.
    by rewrite prefix_itinerary_path, split_itinerary_path.
  - unfold CollaborativeItinerary.fetch. rewrite bool_decide_false by done. rewrite Hs, andb_false_r.
    by destruct Hm as [-> | ->].
Qed.

Lemma shared_itinerary_requests_get_404_witness :
  handleCollabRoutes "/api/collab/itinerary/abc" "GET" = Some (ToObject "itinerary") ∧
  CollaborativeItinerary.fetch CollaborativeItinerary.env_ok 3 "user_1"
    (CollaborativeItinerary.mkRequest None "GET" "/api/collab/itinerary/abc" None None None
                   CollaborativeItinerary.trip)
    CollaborativeItinerary.trip1
  = (CollaborativeItinerary.trip1, [], inr CollaborativeItinerary.NotFound).
Proof.
  apply (shared_itinerary_requests_get_404 "abc" CollaborativeItinerary.env_ok 3 "user_1"
           (CollaborativeItinerary.mkRequest None "GET" "/api/collab/itinerary/abc" None None None
                          CollaborativeItinerary.trip)
           CollaborativeItinerary.trip1 eq_refl ltac:(done) (or_introl eq_refl) eq_refl).
Defined.

End Worker.
